(** * key-weaver: deterministic key derivation and threshold recovery

    A shallow embedding of [src/crypto/keyDerivation.ts], [src/api/state.ts],
    the wallet API ([initKeyWeaver], [registerWallet], [recoverWallet],
    [createSignerFromPrivateKey]) and the status helpers of the key
    derivation inspector, followed by the properties the specification
    states about them and by further properties of the code.

    Conventions of the embedding:
    - a JavaScript string is its sequence of UTF-16 code units;
    - a [Uint8Array] is a [list byte];
    - a [bigint] is a [Z]; a [number] holding a count or a threshold is a [Z]
      or a [nat]: the numbers of the model are integers, so [NaN], the
      infinities and fractions are outside it;
    - a function that may throw returns a [result]; the asynchronous API
      functions reject their promise exactly where the model returns [Err];
    - what the JavaScript engine and the cryptographic libraries provide
      (case mapping, collation, SHA-256, HKDF, Keccak-256, secp256k1) is a
      [Platform]; the modules of the repository that the API calls but that
      are not part of the sources at hand are [Collaborators]. *)

From Stdlib Require Import String Ascii.
From Stdlib Require Import List ZArith NArith Bool Lia.
From Stdlib Require Import Permutation Sorting.Sorted.
From Stdlib Require Import Init.Byte Strings.Byte.
From Stdlib Require Import Numbers.DecimalString.
Import ListNotations.

Open Scope list_scope.

(* ================================================================== *)
(** ** Strings and bytes *)

(** A JavaScript string, as its UTF-16 code units. *)
Definition jsstring := list N.

(** The JavaScript string written by an ASCII literal. *)
Definition js (s : string) : jsstring :=
  map N_of_ascii (list_ascii_of_string s).

Definition jsstring_dec : forall a b : jsstring, {a = b} + {a <> b} :=
  list_eq_dec N.eq_dec.

(** [a === b] on strings. *)
Definition streq (a b : jsstring) : bool :=
  if jsstring_dec a b then true else false.

(** [Array.prototype.join]. *)
Fixpoint join (sep : jsstring) (parts : list jsstring) : jsstring :=
  match parts with
  | [] => []
  | [p] => p
  | p :: rest => p ++ sep ++ join sep rest
  end.

(** [s.padStart(n, c)] for a one-character filler [c]. *)
Definition padStart (n : nat) (c : N) (s : jsstring) : jsstring :=
  repeat c (n - length s) ++ s.

(** The decimal digits of an integer, with a leading minus sign for a
    negative one. *)
Definition decimalDigits (z : Z) : jsstring :=
  js (NilZero.string_of_int (Z.to_int z)).

(** The [number] (IEEE 754 double) nearest to a positive integer: 53
    significant bits, a tie going to the even significand. *)
Definition nearestDouble (v : Z) : Z :=
  let e := (Z.log2 v - 52)%Z in
  if (e <=? 0)%Z then v
  else
    let q := Z.shiftr v e in
    let r := (v - Z.shiftl q e)%Z in
    let half := Z.shiftl 1 (e - 1) in
    let up := (half <? r)%Z || ((r =? half)%Z && Z.odd q) in
    Z.shiftl (if up then q + 1 else q) e.

(** The integers with [k] significant decimal digits next to [x], where [x]
    has [n] digits: the one of them that reads back as [x], the closer one if
    both do, the one with the even digit string if they are as close. *)
Definition roundTrip (x n : Z) (k : nat) : option Z :=
  let p := (10 ^ (n - Z.of_nat k))%Z in
  let s := (x / p)%Z in
  let lo := (s * p)%Z in
  let hi := ((s + 1) * p)%Z in
  match (nearestDouble lo =? x)%Z, (nearestDouble hi =? x)%Z with
  | true, true =>
      if (x - lo <? hi - x)%Z then Some lo
      else if (hi - x <? x - lo)%Z then Some hi
      else if Z.even s then Some lo else Some hi
  | true, false => Some lo
  | false, true => Some hi
  | false, false => None
  end.

(** The integer with the fewest significant decimal digits that reads back as
    the double [x] (Number::toString, step 5 of the specification of
    ECMAScript); seventeen digits always suffice. *)
Definition shortestDecimal (x : Z) : Z :=
  let n := Z.of_nat (length (decimalDigits x)) in
  let first (found : option Z) (k : nat) :=
    match found with
    | Some v => Some v
    | None => if (Z.of_nat k <=? n)%Z then roundTrip x n k else None
    end in
  match fold_left first (seq 1 17) None with
  | Some v => v
  | None => x
  end.

(** A digit string without its trailing zeros. *)
Fixpoint dropTrailingZeros (digits : jsstring) : jsstring :=
  match digits with
  | [] => []
  | c :: rest =>
      match dropTrailingZeros rest with
      | [] => if (c =? 48)%N then [] else [c]
      | rest' => c :: rest'
      end
  end.

(** [String(v)] for a positive integer [v]: the digits themselves up to
    twenty-one of them, exponent notation from [1e21] on. *)
Definition positiveToString (v : Z) : jsstring :=
  let x := nearestDouble v in
  if (2 ^ 1024 <=? x)%Z then js "Infinity"
  else
    let shortest := shortestDecimal x in
    let digits := decimalDigits shortest in
    if (shortest <? 10 ^ 21)%Z then digits
    else
      let exponent := js "e+" ++ decimalDigits (Z.of_nat (length digits) - 1) in
      match dropTrailingZeros digits with
      | [] => digits
      | [d] => d :: exponent
      | d :: more => d :: js "." ++ more ++ exponent
      end.

(** [String(z)], which is also what a template literal makes of a number:
    Number::toString of a finite integral [number].  An integer that is no
    double is printed as the double nearest to it, the value its literal has
    in a JavaScript program. *)
Definition numberToString (z : Z) : jsstring :=
  if (z =? 0)%Z then js "0"
  else if (z <? 0)%Z then js "-" ++ positiveToString (- z)
  else positiveToString z.

(** The character of a hexadecimal digit value, lowercase. *)
Definition hexDigit (d : N) : N :=
  (if d <? 10 then 48 + d else 87 + d)%N.

(** [[0-9a-f]] and [[0-9a-fA-F]] on one code unit. *)
Definition isLowerHexChar (c : N) : bool :=
  ((48 <=? c) && (c <=? 57) || (97 <=? c) && (c <=? 102))%N.

Definition isHexChar (c : N) : bool :=
  (isLowerHexChar c || (65 <=? c) && (c <=? 70))%N.

(** The value of a hexadecimal digit, [None] for any other code unit. *)
Definition hexValue (c : N) : option N :=
  (if (48 <=? c) && (c <=? 57) then Some (c - 48)
   else if (97 <=? c) && (c <=? 102) then Some (c - 87)
   else if (65 <=? c) && (c <=? 70) then Some (c - 55)
   else None)%N.

(** ASCII lower-casing of one code unit: what [toLowerCase] does to a code
    unit below 128. *)
Definition asciiLower (c : N) : N :=
  (if (65 <=? c) && (c <=? 90) then c + 32 else c)%N.

Definition isAscii (c : N) : bool := (c <? 128)%N.

Definition byteOfN (n : N) : byte :=
  match Byte.of_N (n mod 256) with
  | Some b => b
  | None => x00
  end.

(** [bytesToHex] of @noble/hashes/utils: two lowercase digits per byte. *)
Definition bytesToHex (bs : list byte) : jsstring :=
  flat_map (fun b => [hexDigit (Byte.to_N b / 16); hexDigit (Byte.to_N b mod 16)]) bs.

(** The unsigned big-endian value of a byte sequence. *)
Definition bigEndian (bs : list byte) : Z :=
  fold_left (fun acc b => acc * 256 + Z.of_N (Byte.to_N b))%Z bs 0%Z.

(* ================================================================== *)
(** ** Errors ([src/errors]) and results *)

Inductive JsError : Type :=
| InvalidIdentityTokenError (provider reason : jsstring)
| InsufficientIdentitiesError (provided required : Z)
| KeyDerivationError (reason : jsstring)
| KeyWeaverNotInitializedError
| PlainError (msg : jsstring).   (* [new Error(msg)], also library faults *)

(** [x || fallback] on strings: the empty string is falsy. *)
Definition orElse (x fallback : jsstring) : jsstring :=
  match x with [] => fallback | _ => x end.

(** [error.message], as the constructors of [src/errors] build it. *)
Definition message (e : JsError) : jsstring :=
  match e with
  | InvalidIdentityTokenError provider reason =>
      js "Invalid " ++ provider ++ js " token: "
         ++ orElse reason (js "token validation failed")
  | InsufficientIdentitiesError provided required =>
      js "Insufficient identities: provided " ++ numberToString provided
         ++ js ", required " ++ numberToString required
  | KeyDerivationError reason =>
      js "Key derivation failed: " ++ orElse reason (js "unknown error")
  | KeyWeaverNotInitializedError =>
      js "Key Weaver system not initialized. Call initKeyWeaver() first."
  | PlainError msg => msg
  end.

Inductive result (A : Type) : Type :=
| Ok (a : A)
| Err (e : JsError).
Arguments Ok {A} a.
Arguments Err {A} e.

Definition rbind {A B} (r : result A) (k : A -> result B) : result B :=
  match r with
  | Ok a => k a
  | Err e => Err e
  end.

Declare Scope result_scope.
Delimit Scope result_scope with result.
Notation "x <- r ;; k" := (rbind r (fun x => k))
  (at level 61, r at next level, right associativity) : result_scope.

(** [hexToBytes] of @noble/hashes/utils: pairs of hexadecimal digits; an
    odd length or a character that is no digit is an error. *)
Fixpoint hexToBytes (s : jsstring) : result (list byte) :=
  match s with
  | [] => Ok []
  | hi :: lo :: rest =>
      match hexValue hi, hexValue lo with
      | Some h, Some l =>
          match hexToBytes rest with
          | Ok bs => Ok (byteOfN (16 * h + l) :: bs)
          | Err e => Err e
          end
      | _, _ => Err (PlainError (js "Invalid byte sequence"))
      end
  | [_] => Err (PlainError (js "padded hex string expected"))
  end.

(** [BigInt('0x' + digits)]: the value of a non-empty run of hexadecimal
    digits; anything else is a [SyntaxError]. *)
Definition parseStep (acc : option Z) (c : N) : option Z :=
  match acc, hexValue c with
  | Some a, Some v => Some (a * 16 + Z.of_N v)%Z
  | _, _ => None
  end.

Definition parseHexDigits (digits : jsstring) : option Z :=
  fold_left parseStep digits (Some 0%Z).

Definition BigIntHex (digits : jsstring) : result Z :=
  match digits, parseHexDigits digits with
  | _ :: _, Some z => Ok z
  | _, _ => Err (PlainError (js "Cannot convert to a BigInt"))
  end.

(** [n.toString(16)] for a non-negative bigint: lowercase digits, no
    leading zero, ["0"] for zero. *)
Fixpoint hexDigitsOf (fuel : nat) (n : N) (acc : jsstring) : jsstring :=
  match fuel with
  | O => acc
  | S fuel' =>
      if (n =? 0)%N then acc
      else hexDigitsOf fuel' (n / 16) (hexDigit (n mod 16) :: acc)
  end.

Definition toString16 (z : Z) : jsstring :=
  match Z.to_N z with
  | N0 => js "0"
  | n => hexDigitsOf (N.to_nat (N.size n)) n []
  end.

(* ================================================================== *)
(** ** The platform: the JavaScript engine and the cryptographic libraries *)

(** What the code imports and does not define.  [localeCompare] is reduced
    to the sign of its result, the only thing [Array.prototype.sort] looks
    at.  [hkdf ikm salt info len] is [hkdf(sha256, ikm, salt, info, len)];
    [getPublicKey] throws on a key that is no valid scalar. *)
Class Platform : Type := {
  toLowerCase : jsstring -> jsstring;
  trim : jsstring -> jsstring;
  localeCompare : jsstring -> jsstring -> comparison;
  utf8ToBytes : jsstring -> list byte;
  sha256 : list byte -> list byte;
  hkdf : list byte -> list byte -> list byte -> nat -> list byte;
  keccak_256 : list byte -> list byte;
  getPublicKey : jsstring -> bool -> result (list byte)
}.

(** [Array.prototype.sort] with a comparator: the result is ordered by the
    comparator and stable (ECMAScript 2019), which fixes it; it is computed
    here by stable insertion. *)
Fixpoint insertSorted {A} (cmp : A -> A -> comparison) (x : A) (l : list A)
  : list A :=
  match l with
  | [] => [x]
  | y :: l' =>
      match cmp x y with
      | Gt => y :: insertSorted cmp x l'
      | _ => x :: l
      end
  end.

Definition sortWith {A} (cmp : A -> A -> comparison) (l : list A) : list A :=
  fold_right (insertSorted cmp) [] l.

(** [a.slice(-n)] and [a.slice(1)] on arrays. *)
Definition sliceLast {A} (n : nat) (l : list A) : list A :=
  skipn (length l - n) l.

Definition sliceFrom1 {A} (l : list A) : list A := skipn 1 l.

(* ================================================================== *)
(** ** [src/crypto/keyDerivation.ts] *)

Record TypedCommitment : Type := mkTyped {
  provider : jsstring;
  commitment : jsstring   (* hex string *)
}.

Record KeyDerivationParams : Type := mkParams {
  commitments : list TypedCommitment;
  threshold : Z;
  salt : jsstring
}.

Record DerivedKeyResult : Type := mkDerived {
  privateKey : jsstring;
  address : jsstring
}.

(** [salt.length === 64 && /^[0-9a-fA-F]{64}$/.test(salt)]. *)
Definition isValidHexSalt (salt : jsstring) : bool :=
  (length salt =? 64)%nat && forallb isHexChar salt.

Definition CURVE_ORDER : Z :=
  0xFFFFFFFFFFFFFFFFFFFFFFFFFFFFFFFEBAAEDCE6AF48A03BBFD25E8CD0364141%Z.

(** Step 5 of [deriveWalletKey]: the scalar made non-zero and smaller than
    the curve order. *)
Definition clampScalar (scalar : Z) : Z :=
  if ((scalar =? 0) || (scalar >=? CURVE_ORDER))%Z then
    let scalar' := (scalar mod CURVE_ORDER)%Z in
    if (scalar' =? 0)%Z then 1%Z else scalar'
  else scalar.

(** [scalar.toString(16).padStart(64, '0')]. *)
Definition scalarToHex (scalar : Z) : jsstring :=
  padStart 64 48%N (toString16 scalar).

Section KeyDerivation.
Context {P : Platform}.

(** The record a commitment is sorted and serialised as. *)
Definition normalizeProvider (c : TypedCommitment) : TypedCommitment :=
  mkTyped (trim (toLowerCase (provider c))) (commitment c).

(** The comparator handed to [sort]. *)
Definition compareCommitments (a b : TypedCommitment) : comparison :=
  match localeCompare (provider a) (provider b) with
  | Eq => localeCompare (commitment a) (commitment b)
  | providerCompare => providerCompare
  end.

Definition serializeCommitment (c : TypedCommitment) : jsstring :=
  provider c ++ js ":" ++ commitment c.

Definition canonicalizeCommitments (cs : list TypedCommitment) : jsstring :=
  let normalized := map normalizeProvider cs in
  let sorted := sortWith compareCommitments normalized in
  join (js "|") (map serializeCommitment sorted).

(** Step 3: the string that is hashed into the seed. *)
Definition seedInput (canonicalCommitments salt : jsstring) : jsstring :=
  js "key-weaver:v1|" ++ canonicalCommitments ++ js "|" ++ salt.

(** Step 4: HKDF over the seed, the salt bytes and the info string. *)
Definition keyMaterial (seed saltBytes : list byte) : list byte :=
  hkdf seed saltBytes (utf8ToBytes (js "key-weaver-hkdf")) 32.

(** Step 6: the address of a private key. *)
Definition addressOfPrivateKey (privateKey : jsstring) : result jsstring :=
  (publicKeyPoint <- getPublicKey privateKey false ;;
   let publicKeyBytes := sliceFrom1 publicKeyPoint in
   let addressHash := keccak_256 publicKeyBytes in
   Ok (js "0x" ++ bytesToHex (sliceLast 20 addressHash)))%result.

Definition deriveWalletKey (params : KeyDerivationParams)
  : result DerivedKeyResult :=
  let commitments := commitments params in
  let threshold := threshold params in
  let salt := salt params in
  if (Z.of_nat (length commitments) <? threshold)%Z then
    Err (PlainError (js "Insufficient commitments: need at least "
                       ++ numberToString threshold ++ js ", have "
                       ++ numberToString (Z.of_nat (length commitments))))
  else
    let canonicalCommitments := canonicalizeCommitments commitments in
    if negb (isValidHexSalt salt) then
      Err (PlainError (js "Invalid salt format: expected 64-char hex string, got "
                         ++ numberToString (Z.of_nat (length salt))
                         ++ js " chars"))
    else
      (saltBytes <- hexToBytes salt ;;
       let seed := sha256 (utf8ToBytes (seedInput canonicalCommitments salt)) in
       let keyMaterial := keyMaterial seed saltBytes in
       scalar <- BigIntHex (bytesToHex keyMaterial) ;;
       let privateKey := scalarToHex (clampScalar scalar) in
       address <- addressOfPrivateKey privateKey ;;
       Ok (mkDerived privateKey address))%result.

Definition validateThreshold (commitments : list TypedCommitment)
           (threshold : Z) : bool :=
  (Z.of_nat (length commitments) >=? threshold)%Z.

Definition normalizeSalt (input : jsstring) : jsstring :=
  if isValidHexSalt input then toLowerCase input
  else bytesToHex (sha256 (utf8ToBytes input)).

Definition isValidSalt (salt : jsstring) : bool := isValidHexSalt salt.

End KeyDerivation.

(* ================================================================== *)
(** ** [src/api/state.ts] *)

Record KeyWeaverConfig : Type := mkConfig {
  version : option jsstring
}.

Record KeyWeaverState : Type := mkState {
  initialized : bool;
  config : option KeyWeaverConfig
}.

(** The module-level [state] when the process starts. *)
Definition initialState : KeyWeaverState := mkState false None.

Definition initializeKeyWeaver (cfg : KeyWeaverConfig) (st : KeyWeaverState)
  : KeyWeaverState :=
  mkState true (Some cfg).

Definition getKeyWeaverConfig (st : KeyWeaverState) : result KeyWeaverConfig :=
  match initialized st, config st with
  | true, Some cfg => Ok cfg
  | _, _ => Err KeyWeaverNotInitializedError
  end.

Definition isInitialized (st : KeyWeaverState) : bool := initialized st.

(* ================================================================== *)
(** ** Calls with a record of the work done *)

(** The calls of the API into the layers below it, in the order made. *)
Inductive Event : Type :=
| EvExtract          (* extractIdentityClaim *)
| EvRandomSalt       (* createRandomSalt *)
| EvGenerate         (* generateCommitments *)
| EvValidate         (* validateCommitment *)
| EvDerive           (* deriveWalletKey *)
| EvCreateWallet.    (* createWalletFromPrivateKey *)

(** A computation of the API: the calls it made and how it ended. *)
Definition M (A : Type) : Type := (list Event * result A)%type.

Definition mret {A} (a : A) : M A := ([], Ok a).

Definition throw {A} (e : JsError) : M A := ([], Err e).

Definition mbind {A B} (m : M A) (k : A -> M B) : M B :=
  match m with
  | (t, Ok a) => let (t', r) := k a in (t ++ t', r)
  | (t, Err e) => (t, Err e)
  end.

(** A call into a lower layer, recorded. *)
Definition call {A} (ev : Event) (r : result A) : M A := ([ev], r).

(** [try { m } catch (error) { handler error }]. *)
Definition tryCatch {A} (m : M A) (handler : JsError -> M A) : M A :=
  match m with
  | (t, Ok a) => (t, Ok a)
  | (t, Err e) => let (t', r) := handler e in (t ++ t', r)
  end.

Definition trace {A} (m : M A) : list Event := fst m.
Definition outcome {A} (m : M A) : result A := snd m.

Declare Scope M_scope.
Delimit Scope M_scope with M.
Notation "x <- m ;; k" := (mbind m (fun x => k))
  (at level 61, m at next level, right associativity) : M_scope.

(** [xs.map(f)] when [f] may throw: left to right, up to the first throw. *)
Fixpoint mapM {A B} (f : A -> M B) (xs : list A) : M (list B) :=
  match xs with
  | [] => mret []
  | x :: rest =>
      (y <- f x ;;
       ys <- mapM f rest ;;
       mret (y :: ys))%M
  end.

(* ================================================================== *)
(** ** The wallet API *)

Record IdentityClaim : Type := mkClaim {
  claimProvider : jsstring;   (* [claim.provider] *)
  stableId : jsstring
}.

(** A stored commitment, with the two fields the API reads:
    [c.claim] and [c.commitment]. *)
Record Commitment : Type := mkCommitment {
  claim : IdentityClaim;
  commitmentHex : jsstring    (* [c.commitment] *)
}.

(** A wallet, reduced to its address. *)
Record Wallet : Type := mkWallet {
  walletAddress : jsstring    (* [wallet.address] *)
}.

(** The modules [identity], [commitments] and [crypto/index] of the
    repository, which the API imports.  [SupportedIdentity] is the union of
    the provider-specific proofs.  The extractor and the wallet constructor
    may throw; computing and validating a commitment are hashing and a
    comparison, and return. *)
Class Collaborators : Type := {
  SupportedIdentity : Type;
  extractIdentityClaim : SupportedIdentity -> result IdentityClaim;
  generateCommitments : list IdentityClaim -> jsstring -> list Commitment;
  validateCommitment : IdentityClaim -> jsstring -> jsstring -> bool;
  createWalletFromPrivateKey : jsstring -> result Wallet
}.

Section Api.
Context {P : Platform} {C : Collaborators}.

Record RegisterWalletParams : Type := mkRegisterParams {
  regIdentities : list SupportedIdentity;
  regThreshold : Z;
  regSalt : option jsstring;
  regExposePrivateKey : option bool
}.

Record RegisterWalletResult : Type := mkRegisterResult {
  resCommitments : list Commitment;
  resSalt : jsstring;
  resAddress : jsstring;
  resPrivateKey : option jsstring
}.

Record RecoverWalletParams : Type := mkRecoverParams {
  recIdentities : list SupportedIdentity;
  recCommitments : list Commitment;
  recSalt : jsstring;
  recThreshold : Z;
  recExposePrivateKey : option bool
}.

(** [wallet] is [None] for the empty object [{} as Wallet]. *)
Record RecoverWalletResult : Type := mkRecoverResult {
  wallet : option Wallet;
  matchedCount : nat;
  success : bool;
  recoveredPrivateKey : option jsstring
}.

Definition initKeyWeaver (cfg : KeyWeaverConfig) (st : KeyWeaverState)
  : KeyWeaverState :=
  initializeKeyWeaver cfg st.

(** [identities.map(extractIdentityClaim)]. *)
Definition extractClaims (identities : list SupportedIdentity)
  : M (list IdentityClaim) :=
  mapM (fun identity => call EvExtract (extractIdentityClaim identity))
       identities.

(** [c => ({ provider: c.claim.provider.toLowerCase().trim(),
            commitment: c.commitment })]. *)
Definition toTypedCommitment (c : Commitment) : TypedCommitment :=
  mkTyped (trim (toLowerCase (claimProvider (claim c)))) (commitmentHex c).

(** [catch (error) { throw new KeyDerivationError(error.message) }]:
    whatever is thrown in the model is an [Error]. *)
Definition rethrowAsKeyDerivationError {A} (error : JsError) : M A :=
  throw (KeyDerivationError (message error)).

(** [randomSalt] is what [createRandomSalt()] yields if it is called. *)
Definition registerWallet (st : KeyWeaverState) (randomSalt : jsstring)
           (params : RegisterWalletParams) : M RegisterWalletResult :=
  (_ <- (([], getKeyWeaverConfig st) : M KeyWeaverConfig) ;;
   let identities := regIdentities params in
   let threshold := regThreshold params in
   let exposePrivateKey :=
     match regExposePrivateKey params with Some b => b | None => false end in
   if (Z.of_nat (length identities) <? threshold)%Z then
     throw (InsufficientIdentitiesError (Z.of_nat (length identities)) threshold)
   else
     tryCatch
       (claims <- extractClaims identities ;;
        rawSalt <- match regSalt params with
                   | Some (c :: s) => mret (c :: s)
                   | _ => call EvRandomSalt (Ok randomSalt)
                   end ;;
        let salt := normalizeSalt rawSalt in
        commitments <- call EvGenerate (Ok (generateCommitments claims salt)) ;;
        let typedCommitments := map toTypedCommitment commitments in
        derived <- call EvDerive
                     (deriveWalletKey (mkParams typedCommitments threshold salt)) ;;
        mret (mkRegisterResult commitments salt (address derived)
                (if exposePrivateKey then Some (privateKey derived) else None)))
       rethrowAsKeyDerivationError)%M.

(** [commitments.find(stored => validateCommitment(claim, salt,
    stored.commitment))]. *)
Fixpoint findMatching (claim : IdentityClaim) (salt : jsstring)
         (stored : list Commitment) : M (option Commitment) :=
  match stored with
  | [] => mret None
  | s :: rest =>
      (valid <- call EvValidate (Ok (validateCommitment claim salt (commitmentHex s))) ;;
       if valid then mret (Some s) else findMatching claim salt rest)%M
  end.

(** The [for (const claim of claims)] loop, from the given values of
    [matchedCommitments] and [matchedCount]. *)
Fixpoint matchClaims (claims : list IdentityClaim) (stored : list Commitment)
         (salt : jsstring) (matchedCommitments : list Commitment)
         (matchedCount : nat) : M (list Commitment * nat) :=
  match claims with
  | [] => mret (matchedCommitments, matchedCount)
  | claim :: rest =>
      (matchingCommitment <- findMatching claim salt stored ;;
       match matchingCommitment with
       | Some m =>
           matchClaims rest stored salt (matchedCommitments ++ [m])
                       (S matchedCount)
       | None => matchClaims rest stored salt matchedCommitments matchedCount
       end)%M
  end.

Definition recoverWallet (st : KeyWeaverState) (params : RecoverWalletParams)
  : M RecoverWalletResult :=
  (_ <- (([], getKeyWeaverConfig st) : M KeyWeaverConfig) ;;
   let identities := recIdentities params in
   let commitments := recCommitments params in
   let threshold := recThreshold params in
   let exposePrivateKey :=
     match recExposePrivateKey params with Some b => b | None => false end in
   let salt := normalizeSalt (recSalt params) in
   tryCatch
     (claims <- extractClaims identities ;;
      matched <- matchClaims claims commitments salt [] 0 ;;
      let matchedCount := snd matched in
      let success := (Z.of_nat matchedCount >=? threshold)%Z in
      if negb success then
        mret (mkRecoverResult None matchedCount false None)
      else
        let allTypedCommitments := map toTypedCommitment commitments in
        derived <- call EvDerive
                     (deriveWalletKey (mkParams allTypedCommitments threshold salt)) ;;
        wallet <- call EvCreateWallet
                    (createWalletFromPrivateKey (privateKey derived)) ;;
        if negb (streq (toLowerCase (walletAddress wallet))
                       (toLowerCase (address derived))) then
          throw (KeyDerivationError (js "Address mismatch during recovery"))
        else
          mret (mkRecoverResult (Some wallet) matchedCount true
                  (if exposePrivateKey then Some (privateKey derived) else None)))
     rethrowAsKeyDerivationError)%M.

(** What [createSignerFromPrivateKey] returns:
    [{ wallet: Wallet; privateKey?: string }]. *)
Record SignerResult : Type := mkSigner {
  signerWallet : Wallet;
  signerPrivateKey : option jsstring
}.

(** Synchronous, and the one function of the API that does not look at the
    module state. *)
Definition createSignerFromPrivateKey (privateKey : jsstring)
           (exposePrivateKey : option bool) : M SignerResult :=
  let expose :=
    match exposePrivateKey with Some b => b | None => false end in
  tryCatch
    (wallet <- call EvCreateWallet (createWalletFromPrivateKey privateKey) ;;
     mret (mkSigner wallet (if expose then Some privateKey else None)))%M
    rethrowAsKeyDerivationError.

End Api.

(* ================================================================== *)
(** ** The key derivation inspector ([KeyDerivationInspector]) *)

(** The three status helpers of the component, which are computed from its
    props before anything is rendered.  Of the registered wallet and of the
    latest recovery attempt the helpers read the fields below; a field that
    may be [undefined] is an [option]. *)
Record WalletData : Type := mkWalletData {
  wdAddress : jsstring;               (* [registeredWallet.address] *)
  wdPrivateKey : option jsstring      (* [registeredWallet.privateKey] *)
}.

Record RecoveryAttempt : Type := mkAttempt {
  attemptSuccess : bool;              (* [latestRecoveryAttempt.success] *)
  recoveredAddress : option jsstring;
  attemptPrivateKey : option jsstring
}.

Record StatusLine : Type := mkStatus {
  icon : jsstring;
  text : jsstring;
  className : jsstring
}.

(** The icons: U+23F3, U+274C and U+2705. *)
Definition iconPending : jsstring := [0x23F3%N].
Definition iconError : jsstring := [0x274C%N].
Definition iconSuccess : jsstring := [0x2705%N].

(** Truthiness of a string that may be [undefined]. *)
Definition truthy (s : option jsstring) : bool :=
  match s with
  | Some (_ :: _) => true
  | _ => false
  end.

(** [x === s] for [x] a string or [undefined] and [s] a string. *)
Definition strictEq (x : option jsstring) (s : jsstring) : bool :=
  match x with
  | Some x' => streq x' s
  | None => false
  end.

Definition getVerificationStatus (registeredWallet : WalletData)
           (latestRecoveryAttempt : option RecoveryAttempt) : StatusLine :=
  match latestRecoveryAttempt with
  | None => mkStatus iconPending (js "No recovery attempt yet") (js "pending")
  | Some attempt =>
      if negb (attemptSuccess attempt) then
        mkStatus iconError (js "Recovery failed") (js "error")
      else
        let matches :=
          strictEq (recoveredAddress attempt) (wdAddress registeredWallet) in
        mkStatus (if matches then iconSuccess else iconError)
                 (if matches then js "Derived address matches wallet"
                  else js "Address mismatch")
                 (if matches then js "success" else js "error")
  end.

(** [null] is [None]. *)
Definition getPrivateKeyStatus (mode : jsstring) (registeredWallet : WalletData)
           (latestRecoveryAttempt : option RecoveryAttempt) : option StatusLine :=
  let attemptKey :=
    match latestRecoveryAttempt with
    | Some attempt => attemptPrivateKey attempt
    | None => None
    end in
  if negb (streq mode (js "demo")) || negb (truthy (wdPrivateKey registeredWallet))
     || negb (truthy attemptKey) then None
  else
    let matches :=
      match attemptKey, wdPrivateKey registeredWallet with
      | Some a, Some b => streq a b
      | _, _ => false
      end in
    Some (mkStatus (if matches then iconSuccess else iconError)
                   (if matches then js "Private keys match"
                    else js "Private key mismatch")
                   (if matches then js "success" else js "error")).

Definition getRecoveryStatus (latestRecoveryAttempt : option RecoveryAttempt)
  : option StatusLine :=
  match latestRecoveryAttempt with
  | None => None
  | Some attempt =>
      let success := attemptSuccess attempt in
      Some (mkStatus (if success then iconSuccess else iconError)
                     (if success then js "Recovery successful"
                      else js "Recovery failed")
                     (if success then js "success" else js "error"))
  end.

(* ================================================================== *)
(** ** What the properties assume of the platform *)

(** SHA-256 yields 32 bytes. *)
Definition Sha256Length (P : Platform) : Prop :=
  forall m : list byte, length (sha256 m) = 32%nat.

(** [toLowerCase] on a string of ASCII code units lower-cases [A-Z] and
    changes nothing else. *)
Definition ToLowerCaseAscii (P : Platform) : Prop :=
  forall s : jsstring, forallb isAscii s = true -> toLowerCase s = map asciiLower s.

(** [localeCompare] is a consistent comparator, as ECMA-262 requires of it:
    a total preorder.  It is not required to tell any two different strings
    apart, and it must not do so for canonically equivalent ones. *)
Definition ConsistentComparator (P : Platform) : Prop :=
  (forall a, localeCompare a a = Eq)
  /\ (forall a b, localeCompare b a = CompOpp (localeCompare a b))
  /\ (forall a b c, localeCompare a b <> Gt -> localeCompare b c <> Gt ->
                    localeCompare a c <> Gt).

(** The collation tells the (normalised) records of a list apart. *)
Definition Separated {P : Platform} (cs : list TypedCommitment) : Prop :=
  forall a b, In a (map normalizeProvider cs) -> In b (map normalizeProvider cs) ->
              compareCommitments a b = Eq -> a = b.

(** [createWalletFromPrivateKey] recomputes the address of the key, the way
    [deriveWalletKey] computes it. *)
Definition WalletRecomputesAddress (P : Platform) (C : Collaborators) : Prop :=
  forall pk addr, addressOfPrivateKey pk = Ok addr ->
                  createWalletFromPrivateKey pk = Ok (mkWallet addr).

(** HKDF yields the 32 bytes it is asked for. *)
Definition Hkdf32 (P : Platform) : Prop :=
  forall ikm saltBytes info : list byte,
    length (hkdf ikm saltBytes info 32) = 32%nat.

(** Keccak-256 yields 32 bytes. *)
Definition Keccak256Length (P : Platform) : Prop :=
  forall m : list byte, length (keccak_256 m) = 32%nat.

(** Normalising a provider name twice is normalising it once. *)
Definition NormalisationIdempotent (P : Platform) : Prop :=
  forall s : jsstring,
    trim (toLowerCase (trim (toLowerCase s))) = trim (toLowerCase s).

(* ================================================================== *)
(** ** A platform to run the model on *)

(** SHA-256 (FIPS 180-4) on 32-bit words held in [N]. *)
Module SHA256.
Local Open Scope N_scope.

Definition mask32 : N := 0xFFFFFFFF.
Definition add32 (x y : N) : N := N.land (x + y) mask32.
Definition rotr (n x : N) : N :=
  N.lor (N.shiftr x n) (N.land (N.shiftl x (32 - n)) mask32).
Definition not32 (x : N) : N := N.lxor x mask32.

Definition Ch (x y z : N) : N := N.lxor (N.land x y) (N.land (not32 x) z).
Definition Maj (x y z : N) : N :=
  N.lxor (N.lxor (N.land x y) (N.land x z)) (N.land y z).
Definition bigSigma0 (x : N) : N :=
  N.lxor (N.lxor (rotr 2 x) (rotr 13 x)) (rotr 22 x).
Definition bigSigma1 (x : N) : N :=
  N.lxor (N.lxor (rotr 6 x) (rotr 11 x)) (rotr 25 x).
Definition smallSigma0 (x : N) : N :=
  N.lxor (N.lxor (rotr 7 x) (rotr 18 x)) (N.shiftr x 3).
Definition smallSigma1 (x : N) : N :=
  N.lxor (N.lxor (rotr 17 x) (rotr 19 x)) (N.shiftr x 10).

(** The first 64 primes. *)
Definition isPrime (n : N) : bool :=
  forallb (fun d => negb (n mod d =? 0)) (map N.of_nat (seq 2 (N.to_nat n - 2))).

Definition primes : list N := filter isPrime (map N.of_nat (seq 2 310)).

(** The integer part of a cube root, bit by bit from the top. *)
Definition cubeRoot (x : N) : N :=
  fold_left (fun r i => let r' := r + 2 ^ i in
                        if r' * r' * r' <=? x then r' else r)
            (map N.of_nat (rev (seq 0 36))) 0.

(** The round constants: the first 32 bits of the fractional parts of the
    cube roots of the primes. *)
Definition K : list N :=
  Eval vm_compute in map (fun p => N.land (cubeRoot (p * 2 ^ 96)) mask32) primes.

Record hash : Type := mkHash {
  ha : N; hb : N; hc : N; hd : N; he : N; hf : N; hg : N; hh : N
}.

(** The initial hash: the same of the square roots of the first 8 primes. *)
Definition H0 : hash :=
  Eval vm_compute in
    match map (fun p => N.land (N.sqrt (p * 2 ^ 64)) mask32) (firstn 8 primes) with
    | [a; b; c; d; e; f; g; h] => mkHash a b c d e f g h
    | _ => mkHash 0 0 0 0 0 0 0 0
    end.

(** The message, a 1 bit, zeros, and the length in bits on 64 bits. *)
Definition pad (m : list N) : list N :=
  let len := length m in
  let zeros := ((55 + 64 - len mod 64) mod 64)%nat in
  let bits := N.of_nat len * 8 in
  m ++ [0x80] ++ repeat 0 zeros
    ++ map (fun i => N.land (N.shiftr bits (8 * i)) 0xFF) [7; 6; 5; 4; 3; 2; 1; 0].

Fixpoint words (count : nat) (bs : list N) : list N :=
  match count, bs with
  | S count', b0 :: b1 :: b2 :: b3 :: rest =>
      (((b0 * 256 + b1) * 256 + b2) * 256 + b3) :: words count' rest
  | _, _ => []
  end.

(** The message schedule; [recent] holds W(t-1), W(t-2), ..., W(t-16). *)
Fixpoint schedule (n : nat) (recent : list N) : list N :=
  match n with
  | O => []
  | S n' =>
      let w := add32 (add32 (smallSigma1 (nth 1 recent 0)) (nth 6 recent 0))
                     (add32 (smallSigma0 (nth 14 recent 0)) (nth 15 recent 0)) in
      w :: schedule n' (w :: firstn 15 recent)
  end.

Definition round (s : hash) (kw : N * N) : hash :=
  let (k, w) := kw in
  let t1 := add32 (add32 (add32 (hh s) (bigSigma1 (he s)))
                         (Ch (he s) (hf s) (hg s)))
                  (add32 k w) in
  let t2 := add32 (bigSigma0 (ha s)) (Maj (ha s) (hb s) (hc s)) in
  mkHash (add32 t1 t2) (ha s) (hb s) (hc s) (add32 (hd s) t1) (he s) (hf s) (hg s).

Definition compress (h : hash) (block : list N) : hash :=
  let w16 := words 16 block in
  let w := w16 ++ schedule 48 (rev w16) in
  let s := fold_left round (combine K w) h in
  mkHash (add32 (ha h) (ha s)) (add32 (hb h) (hb s)) (add32 (hc h) (hc s))
         (add32 (hd h) (hd s)) (add32 (he h) (he s)) (add32 (hf h) (hf s))
         (add32 (hg h) (hg s)) (add32 (hh h) (hh s)).

Fixpoint blocks (count : nat) (h : hash) (bs : list N) : hash :=
  match count, bs with
  | S count', _ :: _ => blocks count' (compress h (firstn 64 bs)) (skipn 64 bs)
  | _, _ => h
  end.

Definition wordBytes (w : N) : list byte :=
  [byteOfN (N.shiftr w 24); byteOfN (N.shiftr w 16); byteOfN (N.shiftr w 8);
   byteOfN w].

Definition digest (m : list byte) : list byte :=
  let p := pad (map Byte.to_N m) in
  let s := blocks (length p) H0 p in
  wordBytes (ha s) ++ wordBytes (hb s) ++ wordBytes (hc s) ++ wordBytes (hd s)
    ++ wordBytes (he s) ++ wordBytes (hf s) ++ wordBytes (hg s)
    ++ wordBytes (hh s).
End SHA256.

(** HMAC-SHA256 (RFC 2104) and HKDF-SHA256 (RFC 5869). *)
Module HKDF.
Definition xorPad (c : N) (key : list byte) : list byte :=
  map (fun b => byteOfN (N.lxor (Byte.to_N b) c))
      (key ++ repeat x00 (64 - length key)).

Definition hmac (key msg : list byte) : list byte :=
  let key' := if (64 <? length key)%nat then SHA256.digest key else key in
  SHA256.digest (xorPad 0x5c key' ++ SHA256.digest (xorPad 0x36 key' ++ msg)).

Definition extract (ikm salt : list byte) : list byte := hmac salt ikm.

Fixpoint expandBlocks (n : nat) (prk info prev : list byte) (counter : N)
  : list byte :=
  match n with
  | O => []
  | S n' =>
      let t := hmac prk (prev ++ info ++ [byteOfN counter]) in
      t ++ expandBlocks n' prk info t (counter + 1)
  end.

Definition expand (prk info : list byte) (len : nat) : list byte :=
  firstn len (expandBlocks ((len + 31) / 32) prk info [] 1).

Definition hkdf (ikm salt info : list byte) (len : nat) : list byte :=
  expand (extract ikm salt) info len.
End HKDF.

(** A concrete platform and concrete collaborators.  SHA-256, HKDF, the
    UTF-8 encoder and [trim] are the real functions.  The rest stands in for
    the real thing where no statement depends on its values: [toLowerCase]
    lower-cases ASCII letters only; the collation is code-unit order, on
    strings in which e followed by U+0301 is first composed to U+00E9, so
    that it returns 0 on that canonically equivalent pair as every
    [localeCompare] must; the curve and Keccak are replaced by hashes. *)
Module Sample.

(** [TextEncoder.encode]: UTF-16 to UTF-8, U+FFFD for a lone surrogate. *)
Fixpoint utf8Encode (s : jsstring) : list byte :=
  let replacement := [xef; xbf; xbd] in
  match s with
  | [] => []
  | c :: rest =>
      if (c <? 0x80)%N then byteOfN c :: utf8Encode rest
      else if (c <? 0x800)%N then
        byteOfN (0xC0 + c / 64) :: byteOfN (0x80 + c mod 64) :: utf8Encode rest
      else if ((0xD800 <=? c) && (c <? 0xDC00))%N then
        match rest with
        | d :: rest' =>
            if ((0xDC00 <=? d) && (d <? 0xE000))%N then
              let cp := (0x10000 + (c - 0xD800) * 1024 + (d - 0xDC00))%N in
              byteOfN (0xF0 + cp / 262144)
                :: byteOfN (0x80 + (cp / 4096) mod 64)
                :: byteOfN (0x80 + (cp / 64) mod 64)
                :: byteOfN (0x80 + cp mod 64) :: utf8Encode rest'
            else replacement ++ utf8Encode rest
        | [] => replacement
        end
      else if ((0xDC00 <=? c) && (c <? 0xE000))%N then
        replacement ++ utf8Encode rest
      else
        byteOfN (0xE0 + c / 4096) :: byteOfN (0x80 + (c / 64) mod 64)
          :: byteOfN (0x80 + c mod 64) :: utf8Encode rest
  end.

(** White space and line terminators of ECMAScript. *)
Definition isWhiteSpace (c : N) : bool :=
  ((9 <=? c) && (c <=? 13) || (c =? 32) || (c =? 0xA0) || (c =? 0x1680)
   || (0x2000 <=? c) && (c <=? 0x200A) || (c =? 0x2028) || (c =? 0x2029)
   || (c =? 0x202F) || (c =? 0x205F) || (c =? 0x3000) || (c =? 0xFEFF))%N.

Fixpoint trimStart (s : jsstring) : jsstring :=
  match s with
  | c :: rest => if isWhiteSpace c then trimStart rest else s
  | [] => []
  end.

Definition trimBoth (s : jsstring) : jsstring :=
  rev (trimStart (rev (trimStart s))).

Fixpoint codeUnitCompare (a b : jsstring) : comparison :=
  match a, b with
  | [], [] => Eq
  | [], _ :: _ => Lt
  | _ :: _, [] => Gt
  | x :: a', y :: b' =>
      match N.compare x y with
      | Eq => codeUnitCompare a' b'
      | c => c
      end
  end.

Fixpoint composeCanonical (s : jsstring) : jsstring :=
  match s with
  | [] => []
  | c :: rest =>
      match rest with
      | d :: rest' =>
          if ((c =? 0x65) && (d =? 0x301))%N then 0xE9%N :: composeCanonical rest'
          else c :: composeCanonical rest
      | [] => [c]
      end
  end.

Definition collate (a b : jsstring) : comparison :=
  codeUnitCompare (composeCanonical a) (composeCanonical b).

(** A private key is accepted when it is 64 digits of a scalar in
    [1, CURVE_ORDER - 1]. *)
Definition validPrivateKey (privateKey : jsstring) : bool :=
  match parseHexDigits privateKey with
  | Some k => ((length privateKey =? 64)%nat && (1 <=? k) && (k <? CURVE_ORDER))%Z
  | None => false
  end.

(** Stand-in for the uncompressed public key: 0x04 and 64 bytes. *)
Definition publicKeyStandIn (privateKey : jsstring) (isCompressed : bool)
  : result (list byte) :=
  if validPrivateKey privateKey then
    let x := SHA256.digest (utf8Encode privateKey) in
    Ok (x04 :: x ++ SHA256.digest x)
  else Err (PlainError (js "invalid private key")).

Definition platform : Platform := {|
  toLowerCase := map asciiLower;
  trim := trimBoth;
  localeCompare := collate;
  utf8ToBytes := utf8Encode;
  sha256 := SHA256.digest;
  hkdf := HKDF.hkdf;
  keccak_256 := fun m => SHA256.digest (x01 :: m);
  getPublicKey := publicKeyStandIn
|}.

(** Identity proofs, as the tests build them. *)
Inductive Identity : Type :=
| Google (idToken : jsstring)
| GitHub (accessToken : jsstring)
| Passkey (credentialId : jsstring).

(** [s.split('.')]. *)
Fixpoint splitDots (s : jsstring) (current : jsstring) : list jsstring :=
  match s with
  | [] => [current]
  | c :: rest =>
      if (c =? 46)%N then current :: splitDots rest []
      else splitDots rest (current ++ [c])
  end.

(** Stand-in for the claim extractor: a token of three parts, whose middle
    part is taken as the subject; the hash of an access token; the
    credential identifier. *)
Definition extract (identity : Identity) : result IdentityClaim :=
  match identity with
  | Google idToken =>
      match splitDots idToken [] with
      | [_; payload; _] =>
          match payload with
          | [] => Err (InvalidIdentityTokenError (js "google") (js "Missing sub claim"))
          | _ => Ok (mkClaim (js "google") payload)
          end
      | _ => Err (InvalidIdentityTokenError (js "google") (js "Invalid JWT format"))
      end
  | GitHub accessToken =>
      Ok (mkClaim (js "github") (bytesToHex (SHA256.digest (utf8Encode accessToken))))
  | Passkey credentialId =>
      match credentialId with
      | [] => Err (InvalidIdentityTokenError (js "passkey") (js "Missing credential id"))
      | _ => Ok (mkClaim (js "passkey") credentialId)
      end
  end.

(** Stand-in for the commitment: the hash of provider, identifier and
    salt, separated by colons. *)
Definition computeCommitment (claim : IdentityClaim) (salt : jsstring) : jsstring :=
  bytesToHex (SHA256.digest (utf8Encode
    (trimBoth (map asciiLower (claimProvider claim)) ++ js ":" ++ stableId claim
       ++ js ":" ++ salt))).

Definition collaborators : Collaborators := {|
  SupportedIdentity := Identity;
  extractIdentityClaim := extract;
  generateCommitments := fun claims salt =>
    map (fun claim => mkCommitment claim (computeCommitment claim salt)) claims;
  validateCommitment := fun claim salt stored =>
    streq (computeCommitment claim salt) stored;
  createWalletFromPrivateKey := fun privateKey =>
    match addressOfPrivateKey (P := platform) privateKey with
    | Ok addr => Ok (mkWallet addr)
    | Err e => Err e
    end
|}.

(** The three identities of the integration test. *)
Definition google : Identity := Google (js "eyJhbGciOiJSUzI1NiJ9.google_user_123.signature").
Definition github : Identity := GitHub (js "gho_test_token_456").
Definition passkey : Identity := Passkey (js "passkey_cred_789").
Definition malformed : Identity := Google (js "not-a-jwt").

Definition ready : KeyWeaverState := initKeyWeaver (mkConfig (Some (js "v1"))) initialState.

(** The API on this platform and these collaborators. *)
Definition registerParams (identities : list Identity) (K : Z)
           (saltGiven : option jsstring) (expose : option bool)
  : RegisterWalletParams (C := collaborators) :=
  mkRegisterParams (C := collaborators) identities K saltGiven expose.

Definition recoverParams (identities : list Identity) (stored : list Commitment)
           (saltHex : jsstring) (K : Z) (expose : option bool)
  : RecoverWalletParams (C := collaborators) :=
  mkRecoverParams (C := collaborators) identities stored saltHex K expose.

Definition register : KeyWeaverState -> jsstring -> RegisterWalletParams
                      -> M RegisterWalletResult :=
  registerWallet (P := platform) (C := collaborators).

Definition recover : KeyWeaverState -> RecoverWalletParams -> M RecoverWalletResult :=
  recoverWallet (P := platform) (C := collaborators).

Definition extractClaim : Identity -> result IdentityClaim :=
  extractIdentityClaim (Collaborators := collaborators).

(** The registration of the integration test: three identities, two of
    them required; what it returns is what a caller would store. *)
Definition registration : M RegisterWalletResult :=
  register ready (js "unused")
           (registerParams [google; github; passkey] 2
                           (Some (js "test-salt-123")) (Some true)).

Definition stored : list Commitment :=
  match outcome registration return list Commitment with
  | Ok reg => resCommitments reg
  | Err _ => []
  end.

Definition storedSalt : jsstring :=
  match outcome registration return jsstring with
  | Ok reg => resSalt reg
  | Err _ => []
  end.

End Sample.

(* ================================================================== *)
(** ** Vocabulary of the statements *)

(** [/^[0-9a-f]{64}$/.test(s)]. *)
Definition isCanonicalSalt (s : jsstring) : bool :=
  (length s =? 64)%nat && forallb isLowerHexChar s.

(** What [deriveWalletKey] does once its two checks have passed: steps 3
    to 6, in which the threshold does not occur. *)
Definition deriveFromSeed {P : Platform} (canonicalCommitments salt : jsstring)
  : result DerivedKeyResult :=
  (saltBytes <- hexToBytes salt ;;
   let seed := sha256 (utf8ToBytes (seedInput canonicalCommitments salt)) in
   scalar <- BigIntHex (bytesToHex (keyMaterial seed saltBytes)) ;;
   let privateKey := scalarToHex (clampScalar scalar) in
   address <- addressOfPrivateKey privateKey ;;
   Ok (mkDerived privateKey address))%result.

(** The order the comparator of [canonicalizeCommitments] sorts by. *)
Definition commitmentLe {P : Platform} (a b : TypedCommitment) : Prop :=
  compareCommitments a b <> Gt.

(** A presented claim that some stored commitment validates, and how many
    of the presented claims are such. *)
Definition claimMatches {C : Collaborators} (stored : list Commitment)
           (salt : jsstring) (claim : IdentityClaim) : bool :=
  existsb (fun s => validateCommitment claim salt (commitmentHex s)) stored.

Definition countMatchingClaims {C : Collaborators} (stored : list Commitment)
           (salt : jsstring) (claims : list IdentityClaim) : nat :=
  length (filter (claimMatches stored salt) claims).

(** A stored commitment that some presented claim validates against, and
    how many of the stored commitments are such. *)
Definition storedIsMatched {C : Collaborators} (claims : list IdentityClaim)
           (salt : jsstring) (stored : Commitment) : bool :=
  existsb (fun claim => validateCommitment claim salt (commitmentHex stored)) claims.

Definition countMatchedStored {C : Collaborators} (claims : list IdentityClaim)
           (salt : jsstring) (stored : list Commitment) : nat :=
  length (filter (storedIsMatched claims salt) stored).

(** The claims of the proofs that parse, in the order presented. *)
Definition extractedClaims {C : Collaborators} (identities : list SupportedIdentity)
  : list IdentityClaim :=
  flat_map (fun identity =>
              match extractIdentityClaim identity with
              | Ok claim => [claim]
              | Err _ => []
              end) identities.

(** A proof that the extractor accepts. *)
Definition parses {C : Collaborators} (identity : SupportedIdentity) : Prop :=
  exists claim, extractIdentityClaim identity = Ok claim.

(** The extractor threw [cause] on the first of the proofs that it does not
    accept. *)
Definition firstFailure {C : Collaborators} (identities : list SupportedIdentity)
           (cause : JsError) : Prop :=
  exists (good : list SupportedIdentity) (bad : SupportedIdentity)
         (rest : list SupportedIdentity),
    identities = good ++ bad :: rest
    /\ Forall parses good
    /\ extractIdentityClaim bad = Err cause.

(** What [recoverWallet] reads of a stored commitment. *)
Definition storedView (c : Commitment) : jsstring * jsstring :=
  (claimProvider (claim c), commitmentHex c).

(** A stored commitment as a caller of [deriveWalletKey] would pass it,
    with the provider name as it is stored. *)
Definition storedAsTyped (c : Commitment) : TypedCommitment :=
  mkTyped (claimProvider (claim c)) (commitmentHex c).

(** The module state after a run of calls of [initKeyWeaver], oldest
    first. *)
Definition initialisations (cfgs : list KeyWeaverConfig) (st : KeyWeaverState)
  : KeyWeaverState :=
  fold_left (fun st' cfg => initKeyWeaver cfg st') cfgs st.

(** How many times a call occurs in a record of calls. *)
Definition sameEvent (a b : Event) : bool :=
  match a, b with
  | EvExtract, EvExtract | EvRandomSalt, EvRandomSalt
  | EvGenerate, EvGenerate | EvValidate, EvValidate
  | EvDerive, EvDerive | EvCreateWallet, EvCreateWallet => true
  | _, _ => false
  end.

Definition calls (ev : Event) (tr : list Event) : nat :=
  length (filter (sameEvent ev) tr).

(** A record whose fields hold none of the separators where they would be
    taken for one: no ':' and no '|' in the provider, no '|' in the
    commitment text. *)
Definition separatorFree (c : TypedCommitment) : bool :=
  forallb (fun u => negb (u =? 58)%N && negb (u =? 124)%N) (provider c)
  && forallb (fun u => negb (u =? 124)%N) (commitment c).

(** Collaborators as in [Sample], except that the wallet made from a key
    carries an address of its own. *)
Definition strayWallet : Collaborators := {|
  SupportedIdentity := Sample.Identity;
  extractIdentityClaim := Sample.extract;
  generateCommitments := generateCommitments (Collaborators := Sample.collaborators);
  validateCommitment := validateCommitment (Collaborators := Sample.collaborators);
  createWalletFromPrivateKey := fun _ =>
    Ok (mkWallet (js "0x000000000000000000000000000000000000dead"))
|}.

(** Boolean tests on code units, as propositions. *)
Ltac unbool :=
  repeat match goal with
         | H : (_ && _) = true |- _ => apply andb_true_iff in H; destruct H
         | H : (_ || _) = true |- _ => apply orb_true_iff in H; destruct H
         | H : (_ <=? _)%N = true |- _ => apply N.leb_le in H
         | H : (_ <? _)%N = true |- _ => apply N.ltb_lt in H
         | H : (_ =? _)%N = true |- _ => apply N.eqb_eq in H
         | H : (_ <=? _)%N = false |- _ => apply N.leb_gt in H
         | H : (_ <? _)%N = false |- _ => apply N.ltb_ge in H
         | H : (_ =? _)%N = false |- _ => apply N.eqb_neq in H
         end.

(* ================================================================== *)
(** * Properties *)

(** ** Numbers as text *)

(** An integer that fits 53 bits is a double. *)
Lemma nearestDouble_safe (v : Z) :
  (v < 2 ^ 53)%Z -> nearestDouble v = v.
Proof.
  intros Hv. unfold nearestDouble.
  replace (Z.log2 v - 52 <=? 0)%Z with true; [ reflexivity | ].
  symmetry. apply Z.leb_le.
  destruct (Z.le_gt_cases v 0) as [H0 | H0].
  - rewrite (Z.log2_nonpos v H0). lia.
  - assert (Z.log2 v < 53)%Z by (apply Z.log2_lt_pow2; lia). lia.
Qed.

(** Rounding does not take an integer of 54 bits or more below [2 ^ 53]. *)
Lemma nearestDouble_large (v : Z) :
  (2 ^ 53 <= v)%Z -> (2 ^ 53 <= nearestDouble v)%Z.
Proof.
  intros Hv. unfold nearestDouble.
  assert (Hlog : (53 <= Z.log2 v)%Z) by (apply Z.log2_le_pow2; lia).
  set (e := (Z.log2 v - 52)%Z).
  replace (e <=? 0)%Z with false by (symmetry; apply Z.leb_gt; lia).
  cbv zeta.
  assert (Hq : (2 ^ 52 <= Z.shiftr v e)%Z).
  { rewrite Z.shiftr_div_pow2 by lia.
    apply Z.div_le_lower_bound; [ apply Z.pow_pos_nonneg; lia | ].
    rewrite <- Z.pow_add_r by lia.
    replace (e + 52)%Z with (Z.log2 v) by lia.
    apply Z.log2_spec. lia. }
  assert (He : (2 <= 2 ^ e)%Z).
  { change 2%Z with (2 ^ 1)%Z at 1. apply Z.pow_le_mono_r; lia. }
  destruct (_ || _); rewrite Z.shiftl_mul_pow2 by lia; nia.
Qed.

Lemma roundTrip_safe (z n : Z) (k : nat) :
  (0 < z < 2 ^ 53)%Z -> (Z.of_nat k <= n)%Z ->
  roundTrip z n k = None \/ roundTrip z n k = Some z.
Proof.
  intros Hz Hk. unfold roundTrip.
  set (p := (10 ^ (n - Z.of_nat k))%Z).
  assert (Hp : (0 < p)%Z) by (apply Z.pow_pos_nonneg; lia).
  set (s := (z / p)%Z).
  assert (Hs : (s * p <= z < (s + 1) * p)%Z).
  { pose proof (Z.div_mod z p ltac:(lia)) as Hdm.
    pose proof (Z.mod_pos_bound z p Hp) as Hm. fold s in Hdm. nia. }
  rewrite (nearestDouble_safe (s * p)) by lia.
  replace (nearestDouble ((s + 1) * p) =? z)%Z with false.
  - destruct (s * p =? z)%Z eqn:E; [ | now left ].
    apply Z.eqb_eq in E. right. now rewrite E.
  - symmetry. apply Z.eqb_neq.
    destruct (Z.lt_ge_cases ((s + 1) * p) (2 ^ 53)) as [H | H].
    + rewrite nearestDouble_safe by exact H. lia.
    + pose proof (nearestDouble_large _ H). lia.
Qed.

Lemma shortestDecimal_safe (z : Z) :
  (0 < z < 2 ^ 53)%Z -> shortestDecimal z = z.
Proof.
  intros Hz. unfold shortestDecimal.
  set (n := Z.of_nat (length (decimalDigits z))).
  set (first := fun (found : option Z) (k : nat) => _).
  assert (H : forall ks found,
             found = None \/ found = Some z ->
             fold_left first ks found = None \/ fold_left first ks found = Some z).
  { induction ks as [ | k ks IH]; intros found Hf; [ exact Hf | ].
    cbn [fold_left]. apply IH. unfold first.
    destruct Hf as [-> | ->]; [ | now right ].
    destruct (Z.of_nat k <=? n)%Z eqn:E; [ | now left ].
    apply roundTrip_safe; [ exact Hz | now apply Z.leb_le ]. }
  destruct (H (seq 1 17) None (or_introl eq_refl)) as [-> | ->]; reflexivity.
Qed.

(** JavaScript prints a safe integer, one below [2 ^ 53] in size, with all
    its decimal digits. *)
Lemma numberToString_safe_integer (z : Z) :
  (0 <= z < 2 ^ 53)%Z -> numberToString z = decimalDigits z.
Proof.
  intros Hz. unfold numberToString.
  destruct (z =? 0)%Z eqn:E0; [ apply Z.eqb_eq in E0; subst z; reflexivity | ].
  apply Z.eqb_neq in E0.
  replace (z <? 0)%Z with false by (symmetry; apply Z.ltb_ge; lia).
  unfold positiveToString.
  rewrite nearestDouble_safe by lia.
  replace (2 ^ 1024 <=? z)%Z with false
    by (symmetry; apply Z.leb_gt;
        apply Z.lt_trans with (2 ^ 53)%Z; [ lia | reflexivity ]).
  cbv zeta. rewrite shortestDecimal_safe by lia.
  replace (z <? 10 ^ 21)%Z with true; [ reflexivity | ].
  symmetry. apply Z.ltb_lt.
  apply Z.lt_trans with (2 ^ 53)%Z; [ lia | reflexivity ].
Qed.

(** From [1e21] on it turns to exponent notation, and above [2 ^ 53] it
    prints the shortest digits that read back as the same number. *)
Lemma numberToString_vectors :
  numberToString 0 = js "0"
  /\ numberToString 42 = js "42"
  /\ numberToString (-7) = js "-7"
  /\ numberToString (2 ^ 53) = js "9007199254740992"
  /\ numberToString (2 ^ 60) = js "1152921504606847000"
  /\ numberToString (10 ^ 21 - 2 ^ 17) = js "999999999999999900000"
  /\ numberToString (10 ^ 21) = js "1e+21"
  /\ numberToString (2 ^ 70) = js "1.1805916207174113e+21"
  /\ numberToString (- 10 ^ 23) = js "-1e+23".
Proof. vm_compute. repeat split; reflexivity. Qed.

(** ** Hexadecimal strings *)

Lemma isLowerHexChar_intro (c : N) :
  (48 <= c <= 57 \/ 97 <= c <= 102)%N -> isLowerHexChar c = true.
Proof.
  unfold isLowerHexChar. intros [[H1 H2] | [H1 H2]].
  - apply N.leb_le in H1, H2. now rewrite H1, H2.
  - apply N.leb_le in H1, H2. rewrite H1, H2. apply orb_true_r.
Qed.

Lemma isLowerHexChar_elim (c : N) :
  isLowerHexChar c = true -> (48 <= c <= 57 \/ 97 <= c <= 102)%N.
Proof. unfold isLowerHexChar. intros H. unbool; lia. Qed.

Lemma isHexChar_elim (c : N) :
  isHexChar c = true -> (48 <= c <= 57 \/ 97 <= c <= 102 \/ 65 <= c <= 70)%N.
Proof.
  unfold isHexChar. intros H. apply orb_true_iff in H. destruct H as [H | H].
  - apply isLowerHexChar_elim in H. lia.
  - unbool. lia.
Qed.

Lemma isLowerHexChar_isHexChar (c : N) :
  isLowerHexChar c = true -> isHexChar c = true.
Proof. unfold isHexChar. now intros ->. Qed.

Lemma isHexChar_isAscii (c : N) : isHexChar c = true -> isAscii c = true.
Proof.
  intros H. apply isHexChar_elim in H. unfold isAscii. apply N.ltb_lt. lia.
Qed.

Lemma asciiLower_hex (c : N) :
  isHexChar c = true -> isLowerHexChar (asciiLower c) = true.
Proof.
  intros H. apply isHexChar_elim in H. unfold asciiLower.
  destruct ((65 <=? c) && (c <=? 90))%N eqn:E; apply isLowerHexChar_intro.
  - unbool. lia.
  - destruct H as [H | [H | H]]; try lia.
    assert ((65 <=? c)%N = true) by (apply N.leb_le; lia).
    assert ((c <=? 90)%N = true) by (apply N.leb_le; lia).
    rewrite H0, H1 in E. discriminate.
Qed.

Lemma asciiLower_lower (c : N) : isLowerHexChar c = true -> asciiLower c = c.
Proof.
  intros H. apply isLowerHexChar_elim in H. unfold asciiLower.
  destruct ((65 <=? c) && (c <=? 90))%N eqn:E; [ | reflexivity ].
  unbool. lia.
Qed.

Lemma forallb_impl {A} (f g : A -> bool) (l : list A) :
  (forall x, f x = true -> g x = true) -> forallb f l = true -> forallb g l = true.
Proof.
  intros Hfg. induction l as [ | x l IH]; simpl; [ reflexivity | ].
  intros H. apply andb_true_iff in H. destruct H as [Hx Hl].
  now rewrite (Hfg _ Hx), (IH Hl).
Qed.

Lemma map_asciiLower_hex (s : jsstring) :
  forallb isHexChar s = true -> forallb isLowerHexChar (map asciiLower s) = true.
Proof.
  induction s as [ | c s IH]; simpl; [ reflexivity | ].
  intros H. apply andb_true_iff in H. destruct H as [Hc Hs].
  now rewrite (asciiLower_hex _ Hc), (IH Hs).
Qed.

Lemma map_asciiLower_lower (s : jsstring) :
  forallb isLowerHexChar s = true -> map asciiLower s = s.
Proof.
  induction s as [ | c s IH]; simpl; [ reflexivity | ].
  intros H. apply andb_true_iff in H. destruct H as [Hc Hs].
  now rewrite (asciiLower_lower _ Hc), (IH Hs).
Qed.

Lemma byte_hex_digits (b : byte) :
  isLowerHexChar (hexDigit (Byte.to_N b / 16)) = true
  /\ isLowerHexChar (hexDigit (Byte.to_N b mod 16)) = true.
Proof. destruct b; split; reflexivity. Qed.

Lemma bytesToHex_length (bs : list byte) :
  length (bytesToHex bs) = (2 * length bs)%nat.
Proof.
  unfold bytesToHex. induction bs as [ | b bs IH]; simpl; [ reflexivity | ].
  rewrite IH. lia.
Qed.

Lemma bytesToHex_lower (bs : list byte) :
  forallb isLowerHexChar (bytesToHex bs) = true.
Proof.
  unfold bytesToHex. induction bs as [ | b bs IH]; simpl; [ reflexivity | ].
  destruct (byte_hex_digits b) as [H1 H2]. now rewrite H1, H2, IH.
Qed.

Lemma isCanonicalSalt_valid (s : jsstring) :
  isCanonicalSalt s = true -> isValidHexSalt s = true.
Proof.
  unfold isCanonicalSalt, isValidHexSalt. intros H.
  apply andb_true_iff in H. destruct H as [Hl Hc]. rewrite Hl. simpl.
  eapply forallb_impl; [ apply isLowerHexChar_isHexChar | exact Hc ].
Qed.

(** ** [normalizeSalt] *)

Section SaltNormalizer.
Context {P : Platform}.
Hypothesis sha256_length : Sha256Length P.
Hypothesis toLowerCase_ascii : ToLowerCaseAscii P.

Lemma toLowerCase_hex (s : jsstring) :
  forallb isHexChar s = true -> toLowerCase s = map asciiLower s.
Proof.
  intros H. apply toLowerCase_ascii.
  eapply forallb_impl; [ apply isHexChar_isAscii | exact H ].
Qed.

Lemma normalizeSalt_of_valid (s : jsstring) :
  isValidHexSalt s = true -> normalizeSalt s = map asciiLower s.
Proof.
  intros H. unfold normalizeSalt. rewrite H.
  apply andb_true_iff in H. destruct H as [_ H]. now apply toLowerCase_hex.
Qed.

Lemma normalizeSalt_canonical (y : jsstring) :
  isCanonicalSalt (normalizeSalt y) = true.
Proof.
  unfold isCanonicalSalt.
  destruct (isValidHexSalt y) eqn:E.
  - rewrite (normalizeSalt_of_valid _ E).
    apply andb_true_iff in E. destruct E as [El Ec].
    rewrite length_map, El. simpl. now apply map_asciiLower_hex.
  - unfold normalizeSalt. rewrite E.
    rewrite bytesToHex_length, sha256_length. simpl. apply bytesToHex_lower.
Qed.

Lemma normalizeSalt_fixes_canonical (s : jsstring) :
  isCanonicalSalt s = true -> normalizeSalt s = s.
Proof.
  intros H. rewrite (normalizeSalt_of_valid _ (isCanonicalSalt_valid _ H)).
  apply andb_true_iff in H. destruct H as [_ H]. now apply map_asciiLower_lower.
Qed.

Lemma normalizeSalt_idempotent (y : jsstring) :
  normalizeSalt (normalizeSalt y) = normalizeSalt y.
Proof. apply normalizeSalt_fixes_canonical, normalizeSalt_canonical. Qed.

End SaltNormalizer.

(** C9.  [normalizeSalt] is a function from strings to strings, with no
    error result.  Given that SHA-256 yields 32 bytes and that [toLowerCase]
    acts on ASCII strings as ASCII lower-casing: it is idempotent; its
    result always matches [^[0-9a-f]{64}$], so [isValidSalt] accepts it; and
    an input of 64 hexadecimal digits of any case is returned with its
    letters lower-cased and nothing else changed. *)
Theorem normalizeSalt_total_idempotent_canonical
        (P : Platform) (Hsha : Sha256Length P) (Hlower : ToLowerCaseAscii P)
        (y : jsstring) :
  normalizeSalt (normalizeSalt y) = normalizeSalt y
  /\ isCanonicalSalt (normalizeSalt y) = true
  /\ isValidSalt (normalizeSalt y) = true
  /\ (isValidHexSalt y = true ->
      normalizeSalt y = map asciiLower y
      /\ length (normalizeSalt y) = length y).
Proof.
  split; [ now apply normalizeSalt_idempotent | ].
  split; [ now apply normalizeSalt_canonical | ].
  split.
  - apply isCanonicalSalt_valid. now apply normalizeSalt_canonical.
  - intros Hy. rewrite (normalizeSalt_of_valid Hlower _ Hy).
    split; [ reflexivity | apply length_map ].
Qed.

(** ** Hexadecimal numbers *)

Lemma parseHexDigits_fold (s : jsstring) :
  parseHexDigits s = fold_left parseStep s (Some 0%Z).
Proof. reflexivity. Qed.


Lemma hexDigit_lower (d : N) : (d < 16)%N -> isLowerHexChar (hexDigit d) = true.
Proof.
  intros H. unfold hexDigit. apply isLowerHexChar_intro.
  destruct (d <? 10)%N eqn:E; unbool; lia.
Qed.

Lemma hexDigitsOf_acc (fuel : nat) :
  forall n acc, hexDigitsOf fuel n acc = hexDigitsOf fuel n [] ++ acc.
Proof.
  induction fuel as [ | fuel IH]; intros n acc; simpl; [ reflexivity | ].
  destruct (n =? 0)%N; [ reflexivity | ].
  rewrite (IH _ (_ :: acc)), (IH _ [_]), <- app_assoc. reflexivity.
Qed.


Lemma hexDigitsOf_length (fuel : nat) :
  forall n k, (n < 16 ^ N.of_nat k)%N -> (length (hexDigitsOf fuel n []) <= k)%nat.
Proof.
  induction fuel as [ | fuel IH]; intros n k Hn; simpl; [ lia | ].
  destruct (n =? 0)%N eqn:E; unbool; simpl; [ lia | ].
  destruct k as [ | k]; [ simpl in Hn; lia | ].
  rewrite hexDigitsOf_acc, length_app. simpl.
  assert (length (hexDigitsOf fuel (n / 16) []) <= k)%nat; [ | lia ].
  apply IH. rewrite Nat2N.inj_succ, N.pow_succ_r' in Hn.
  apply N.Div0.div_lt_upper_bound; lia.
Qed.

Lemma hexDigitsOf_lower (fuel : nat) :
  forall n, forallb isLowerHexChar (hexDigitsOf fuel n []) = true.
Proof.
  induction fuel as [ | fuel IH]; intros n; simpl; [ reflexivity | ].
  destruct (n =? 0)%N; [ reflexivity | ].
  rewrite hexDigitsOf_acc, forallb_app, IH. simpl.
  rewrite hexDigit_lower; [ reflexivity | apply N.mod_lt; lia ].
Qed.


Lemma toString16_length (z : Z) (k : nat) :
  (0 <= z < 16 ^ Z.of_nat (S k))%Z -> (length (toString16 z) <= S k)%nat.
Proof.
  intros Hz. unfold toString16. destruct (Z.to_N z) as [ | p] eqn:E.
  - simpl. lia.
  - apply hexDigitsOf_length. rewrite <- E.
    apply N2Z.inj_lt. rewrite N2Z.inj_pow, Z2N.id by lia.
    rewrite nat_N_Z. simpl (Z.of_N 16). lia.
Qed.

Lemma toString16_lower (z : Z) : forallb isLowerHexChar (toString16 z) = true.
Proof.
  unfold toString16. destruct (Z.to_N z); [ reflexivity | apply hexDigitsOf_lower ].
Qed.



Lemma scalarToHex_length (z : Z) :
  (0 <= z < 2 ^ 256)%Z -> length (scalarToHex z) = 64%nat.
Proof.
  intros Hz. unfold scalarToHex, padStart.
  rewrite length_app, repeat_length.
  assert (length (toString16 z) <= 64)%nat; [ | lia ].
  apply toString16_length. change (16 ^ Z.of_nat 64)%Z with (2 ^ 256)%Z. exact Hz.
Qed.

Lemma forallb_repeat {A} (f : A -> bool) (x : A) (k : nat) :
  f x = true -> forallb f (repeat x k) = true.
Proof. intros H. induction k; simpl; [ reflexivity | now rewrite H ]. Qed.

Lemma scalarToHex_lower (z : Z) : forallb isLowerHexChar (scalarToHex z) = true.
Proof.
  unfold scalarToHex, padStart.
  rewrite forallb_app, forallb_repeat by reflexivity. apply toString16_lower.
Qed.

(** ** The scalar *)

Lemma CURVE_ORDER_bounds : (1 < CURVE_ORDER < 2 ^ 256)%Z.
Proof. split; reflexivity. Qed.

Lemma clampScalar_range (s : Z) :
  (0 <= s)%Z -> (1 <= clampScalar s <= CURVE_ORDER - 1)%Z.
Proof.
  intros Hs. pose proof CURVE_ORDER_bounds as Hn. unfold clampScalar.
  destruct ((s =? 0) || (s >=? CURVE_ORDER))%Z eqn:E.
  - pose proof (Z.mod_pos_bound s CURVE_ORDER ltac:(lia)) as Hm.
    destruct (s mod CURVE_ORDER =? 0)%Z eqn:E0; [ lia | ].
    apply Z.eqb_neq in E0. lia.
  - apply orb_false_iff in E. destruct E as [E1 E2].
    apply Z.eqb_neq in E1. rewrite Z.geb_leb in E2. apply Z.leb_gt in E2. lia.
Qed.

Lemma byte_digits (b : byte) :
  hexValue (hexDigit (Byte.to_N b / 16)) = Some (Byte.to_N b / 16)%N
  /\ hexValue (hexDigit (Byte.to_N b mod 16)) = Some (Byte.to_N b mod 16)%N
  /\ (16 * (Byte.to_N b / 16) + Byte.to_N b mod 16 = Byte.to_N b)%N
  /\ (Byte.to_N b <= 255)%N.
Proof. destruct b; repeat split; vm_compute; congruence. Qed.

Lemma parse_bytesToHex (bs : list byte) :
  forall a : Z,
    fold_left parseStep (bytesToHex bs) (Some a)
    = Some (fold_left (fun acc b => acc * 256 + Z.of_N (Byte.to_N b))%Z bs a).
Proof.
  induction bs as [ | b bs IH]; intros a; [ reflexivity | ].
  destruct (byte_digits b) as (H1 & H2 & H3 & _).
  unfold bytesToHex. cbn [flat_map app fold_left].
  unfold parseStep at 2 3. rewrite H1, H2.
  fold (bytesToHex bs). rewrite IH. do 2 f_equal. lia.
Qed.

Lemma BigIntHex_bytesToHex (bs : list byte) :
  bs <> [] -> BigIntHex (bytesToHex bs) = Ok (bigEndian bs).
Proof.
  intros Hbs.
  assert (E : parseHexDigits (bytesToHex bs) = Some (bigEndian bs))
    by (rewrite parseHexDigits_fold; apply parse_bytesToHex).
  unfold BigIntHex. destruct (bytesToHex bs) as [ | d ds] eqn:Eh.
  - apply (f_equal (@length _)) in Eh. rewrite bytesToHex_length in Eh.
    destruct bs; [ congruence | discriminate ].
  - now rewrite E.
Qed.

Lemma bigEndian_fold_bounds (bs : list byte) :
  forall a : Z,
    (0 <= a)%Z ->
    (0 <= fold_left (fun acc b => acc * 256 + Z.of_N (Byte.to_N b)) bs a
     < (a + 1) * 256 ^ Z.of_nat (length bs))%Z.
Proof.
  induction bs as [ | b bs IH]; intros a Ha.
  - simpl. lia.
  - cbn [fold_left length]. destruct (byte_digits b) as (_ & _ & _ & Hb).
    specialize (IH (a * 256 + Z.of_N (Byte.to_N b))%Z ltac:(lia)).
    rewrite Nat2Z.inj_succ, Z.pow_succ_r by lia.
    assert (0 < 256 ^ Z.of_nat (length bs))%Z by (apply Z.pow_pos_nonneg; lia).
    nia.
Qed.

Lemma bigEndian_bounds (bs : list byte) :
  (0 <= bigEndian bs < 256 ^ Z.of_nat (length bs))%Z.
Proof.
  pose proof (bigEndian_fold_bounds bs 0%Z ltac:(lia)) as H.
  unfold bigEndian. lia.
Qed.

Lemma parseStep_nonneg (s : jsstring) :
  forall a z, (0 <= a)%Z -> fold_left parseStep s (Some a) = Some z -> (0 <= z)%Z.
Proof.
  induction s as [ | c s IH]; intros a z Ha H.
  - simpl in H. injection H as <-. exact Ha.
  - cbn [fold_left] in H. unfold parseStep at 2 in H.
    destruct (hexValue c) as [v | ].
    + apply IH in H; [ exact H | lia ].
    + clear IH. exfalso. induction s as [ | c' s IH]; [ discriminate | exact (IH H) ].
Qed.

Lemma BigIntHex_nonneg (digits : jsstring) (z : Z) :
  BigIntHex digits = Ok z -> (0 <= z)%Z.
Proof.
  unfold BigIntHex. intros H.
  destruct digits as [ | d ds]; [ discriminate | ].
  destruct (parseHexDigits (d :: ds)) as [z' | ] eqn:E; [ | discriminate ].
  injection H as <-.
  rewrite parseHexDigits_fold in E. eapply parseStep_nonneg; [ | exact E ]. lia.
Qed.

Lemma hexValue_isHexChar (c : N) :
  isHexChar c = true -> exists v, hexValue c = Some v.
Proof.
  intros H. apply isHexChar_elim in H. unfold hexValue.
  destruct ((48 <=? c) && (c <=? 57))%N eqn:E1; [ eauto | ].
  destruct ((97 <=? c) && (c <=? 102))%N eqn:E2; [ eauto | ].
  destruct ((65 <=? c) && (c <=? 70))%N eqn:E3; [ eauto | ].
  exfalso. apply andb_false_iff in E1, E2, E3.
  destruct E1, E2, E3; unbool; lia.
Qed.

Lemma hexToBytes_hex (n : nat) :
  forall s, length s = (2 * n)%nat -> forallb isHexChar s = true ->
            exists bs, hexToBytes s = Ok bs /\ length bs = n.
Proof.
  induction n as [ | n IH]; intros s Hl Hs.
  - destruct s; [ | discriminate ]. exists []. split; reflexivity.
  - destruct s as [ | hi [ | lo rest]]; simpl in Hl; try lia.
    cbn [forallb] in Hs. apply andb_true_iff in Hs. destruct Hs as [Hhi Hs].
    apply andb_true_iff in Hs. destruct Hs as [Hlo Hs].
    destruct (hexValue_isHexChar _ Hhi) as [h Eh].
    destruct (hexValue_isHexChar _ Hlo) as [l El].
    destruct (IH rest) as (bs & Ebs & Hbs); [ lia | exact Hs | ].
    exists (byteOfN (16 * h + l) :: bs). cbn [hexToBytes].
    rewrite Eh, El, Ebs. split; [ reflexivity | simpl; now rewrite Hbs ].
Qed.

Lemma hexToBytes_salt (salt : jsstring) :
  isValidHexSalt salt = true ->
  exists saltBytes, hexToBytes salt = Ok saltBytes /\ length saltBytes = 32%nat.
Proof.
  unfold isValidHexSalt. intros H. apply andb_true_iff in H. destruct H as [Hl Hc].
  apply Nat.eqb_eq in Hl. now apply hexToBytes_hex.
Qed.



(** ** The sample platform meets the assumptions *)

Lemma sample_sha256_length : Sha256Length Sample.platform.
Proof. intros m. reflexivity. Qed.

Lemma sample_toLowerCase_ascii : ToLowerCaseAscii Sample.platform.
Proof. intros s _. reflexivity. Qed.

(** The digests of the empty message and of "abc" (FIPS 180-4). *)
Lemma sample_sha256_vectors :
  bytesToHex (SHA256.digest [])
  = js "e3b0c44298fc1c149afbf4c8996fb92427ae41e4649b934ca495991b7852b855"
  /\ bytesToHex (SHA256.digest (Sample.utf8Encode (js "abc")))
     = js "ba7816bf8f01cfea414140de5dae2223b00361a396177a9cb410ff61f20015ad".
Proof. split; vm_compute; reflexivity. Qed.

Lemma normalizeSalt_total_idempotent_canonical_witness :
  Sha256Length Sample.platform
  /\ ToLowerCaseAscii Sample.platform
  /\ normalizeSalt (P := Sample.platform) (js "abc")
     = js "ba7816bf8f01cfea414140de5dae2223b00361a396177a9cb410ff61f20015ad"
  /\ normalizeSalt (P := Sample.platform)
       (normalizeSalt (P := Sample.platform) (js "abc"))
     = normalizeSalt (P := Sample.platform) (js "abc")
  /\ isValidSalt (normalizeSalt (P := Sample.platform) (js "abc")) = true.
Proof.
  split; [ exact sample_sha256_length | ].
  split; [ exact sample_toLowerCase_ascii | ].
  split; [ vm_compute; reflexivity | ].
  destruct (normalizeSalt_total_idempotent_canonical
              Sample.platform sample_sha256_length sample_toLowerCase_ascii
              (js "abc")) as (H1 & _ & H3 & _).
  split; [ exact H1 | exact H3 ].
Defined.

(** ** [deriveWalletKey] *)

Section Derivation.
Context {P : Platform}.

Lemma deriveWalletKey_insufficient (cs : list TypedCommitment) (K : Z)
      (salt0 : jsstring) :
  (Z.of_nat (length cs) < K)%Z ->
  exists msg, deriveWalletKey (mkParams cs K salt0) = Err (PlainError msg).
Proof.
  intros H. unfold deriveWalletKey. cbn [commitments threshold].
  apply Z.ltb_lt in H. rewrite H. eauto.
Qed.

Lemma deriveWalletKey_sufficient (cs : list TypedCommitment) (K : Z)
      (salt0 : jsstring) :
  (K <= Z.of_nat (length cs))%Z -> isValidHexSalt salt0 = true ->
  deriveWalletKey (mkParams cs K salt0)
  = deriveFromSeed (canonicalizeCommitments cs) salt0.
Proof.
  intros HK Hs. unfold deriveWalletKey. cbn [commitments threshold salt].
  replace (Z.of_nat (length cs) <? K)%Z with false
    by (symmetry; apply Z.ltb_ge; exact HK).
  rewrite Hs. reflexivity.
Qed.

Lemma deriveWalletKey_ok (params : KeyDerivationParams) (r : DerivedKeyResult) :
  deriveWalletKey params = Ok r ->
  (threshold params <= Z.of_nat (length (commitments params)))%Z
  /\ isValidHexSalt (salt params) = true
  /\ addressOfPrivateKey (privateKey r) = Ok (address r).
Proof.
  unfold deriveWalletKey. intros H.
  destruct (Z.of_nat (length (commitments params)) <? threshold params)%Z eqn:EK;
    [ discriminate | ].
  destruct (isValidHexSalt (salt params)) eqn:Es; [ | discriminate ].
  apply Z.ltb_ge in EK. split; [ exact EK | ]. split; [ reflexivity | ].
  cbn [negb] in H. unfold rbind in H.
  destruct (hexToBytes (salt params)); [ | discriminate ].
  match type of H with
  | match BigIntHex ?d with _ => _ end = _ => destruct (BigIntHex d)
  end; [ | discriminate ].
  match type of H with
  | match addressOfPrivateKey ?k with _ => _ end = _ =>
      destruct (addressOfPrivateKey k) eqn:Ea
  end; [ | discriminate ].
  injection H as <-. exact Ea.
Qed.

(** The threshold only gates the call. *)
Lemma deriveWalletKey_threshold_independent (cs : list TypedCommitment)
      (K1 K2 : Z) (salt0 : jsstring) :
  (K1 <= Z.of_nat (length cs))%Z -> (K2 <= Z.of_nat (length cs))%Z ->
  deriveWalletKey (mkParams cs K1 salt0) = deriveWalletKey (mkParams cs K2 salt0).
Proof.
  intros H1 H2. unfold deriveWalletKey. cbn [commitments threshold salt].
  replace (Z.of_nat (length cs) <? K1)%Z with false
    by (symmetry; apply Z.ltb_ge; exact H1).
  replace (Z.of_nat (length cs) <? K2)%Z with false
    by (symmetry; apply Z.ltb_ge; exact H2).
  reflexivity.
Qed.

End Derivation.

(** C8.  For a commitment list that passes the threshold check and a valid
    salt, the seed is SHA-256 of the UTF-8 bytes of the string made of the
    prefix "key-weaver:v1", the canonical commitment string and the salt
    hex, these three separated by '|'; the canonical string joins with '|'
    the records provider ':' commitment; and the seed goes through HKDF with
    the salt bytes and the info string "key-weaver-hkdf" for 32 bytes. *)
Theorem seed_domain_separation
        (P : Platform) (cs : list TypedCommitment) (K : Z) (saltHex : jsstring)
        (HK : (K <= Z.of_nat (length cs))%Z)
        (Hsalt : isValidHexSalt saltHex = true) :
  let canonical :=
    join (js "|")
         (map (fun c => provider c ++ js ":" ++ commitment c)
              (sortWith compareCommitments (map normalizeProvider cs))) in
  let seed :=
    sha256 (utf8ToBytes (js "key-weaver:v1" ++ js "|" ++ canonical
                            ++ js "|" ++ saltHex)) in
  canonicalizeCommitments cs = canonical
  /\ exists saltBytes : list byte,
      hexToBytes saltHex = Ok saltBytes
      /\ length saltBytes = 32%nat
      /\ deriveWalletKey (mkParams cs K saltHex)
         = (scalar <- BigIntHex
                        (bytesToHex
                           (hkdf seed saltBytes
                                 (utf8ToBytes (js "key-weaver-hkdf")) 32)) ;;
            let privateKey := scalarToHex (clampScalar scalar) in
            address <- addressOfPrivateKey privateKey ;;
            Ok (mkDerived privateKey address))%result.
Proof.
  intros canonical seed. split; [ reflexivity | ].
  destruct (hexToBytes_salt _ Hsalt) as (saltBytes & Eb & Hl).
  exists saltBytes. split; [ exact Eb | ]. split; [ exact Hl | ].
  rewrite (deriveWalletKey_sufficient _ _ _ HK Hsalt).
  unfold deriveFromSeed. rewrite Eb. reflexivity.
Qed.

Lemma seed_domain_separation_witness :
  let cs := [mkTyped (js "google") (js "abc123");
             mkTyped (js "github") (js "def456");
             mkTyped (js "passkey") (js "ghi789")] in
  let saltHex :=
    js "0123456789abcdef0123456789abcdef0123456789abcdef0123456789abcdef" in
  (2 <= Z.of_nat (length cs))%Z
  /\ isValidHexSalt saltHex = true
  /\ canonicalizeCommitments (P := Sample.platform) cs
     = js "github:def456|google:abc123|passkey:ghi789"
  /\ exists r, deriveWalletKey (P := Sample.platform) (mkParams cs 2 saltHex) = Ok r.
Proof.
  intros cs saltHex.
  assert (HK : (2 <= Z.of_nat (length cs))%Z) by (vm_compute; discriminate).
  assert (Hs : isValidHexSalt saltHex = true) by reflexivity.
  split; [ exact HK | ]. split; [ exact Hs | ].
  destruct (seed_domain_separation Sample.platform cs 2 saltHex HK Hs)
    as (Hc & saltBytes & Hb & _ & Hd).
  split.
  - rewrite Hc. vm_compute. reflexivity.
  - rewrite Hd. clear Hd.
    assert (saltBytes = match hexToBytes saltHex with Ok b => b | Err _ => [] end)
      as -> by (now rewrite Hb).
    vm_compute. eexists. reflexivity.
Defined.

(** ** Sorting and the canonical form *)

Lemma insertSorted_perm {A} (cmp : A -> A -> comparison) (x : A) (l : list A) :
  Permutation (insertSorted cmp x l) (x :: l).
Proof.
  induction l as [ | y l IH]; simpl; [ reflexivity | ].
  destruct (cmp x y); try reflexivity.
  rewrite IH. apply perm_swap.
Qed.

Lemma sortWith_perm {A} (cmp : A -> A -> comparison) (l : list A) :
  Permutation (sortWith cmp l) l.
Proof.
  induction l as [ | x l IH]; simpl; [ reflexivity | ].
  rewrite insertSorted_perm. now apply perm_skip.
Qed.

(** A list already in order is left as it is: records that compare equal
    keep the order they came in. *)
Lemma sortWith_sorted_input {A} (cmp : A -> A -> comparison) (l : list A) :
  StronglySorted (fun x y => cmp x y <> Gt) l -> sortWith cmp l = l.
Proof.
  induction 1 as [ | x l Hl IH Hx]; [ reflexivity | ].
  simpl. rewrite IH. destruct l as [ | y l']; [ reflexivity | ].
  simpl. inversion Hx as [ | ? ? Hxy _]; subst.
  destruct (cmp x y); congruence.
Qed.

Section Canonicalizer.
Context {P : Platform}.
Hypothesis consistent : ConsistentComparator P.

Lemma localeCompare_eq_trans (a b c : jsstring) :
  localeCompare a b = Eq -> localeCompare b c = Eq -> localeCompare a c = Eq.
Proof.
  destruct consistent as (_ & Hanti & Htrans). intros Hab Hbc.
  assert (H1 : localeCompare a c <> Gt)
    by (apply (Htrans a b c); congruence).
  assert (H2 : localeCompare c a <> Gt).
  { apply (Htrans c b a); rewrite Hanti; [ rewrite Hbc | rewrite Hab ]; discriminate. }
  rewrite Hanti in H2. destruct (localeCompare a c); simpl in *; congruence.
Qed.

Lemma localeCompare_lt_eq (a b c : jsstring) :
  localeCompare a b = Lt -> localeCompare b c <> Gt -> localeCompare a c <> Eq ->
  localeCompare a c = Lt.
Proof.
  destruct consistent as (_ & _ & Htrans). intros Hab Hbc Hne.
  assert (H1 : localeCompare a c <> Gt) by (apply (Htrans a b c); congruence).
  destruct (localeCompare a c); congruence.
Qed.

Lemma compareCommitments_refl (a : TypedCommitment) : compareCommitments a a = Eq.
Proof.
  destruct consistent as (Hrefl & _). unfold compareCommitments. now rewrite !Hrefl.
Qed.

Lemma compareCommitments_antisym (a b : TypedCommitment) :
  compareCommitments b a = CompOpp (compareCommitments a b).
Proof.
  destruct consistent as (_ & Hanti & _). unfold compareCommitments.
  rewrite (Hanti (provider a) (provider b)).
  destruct (localeCompare (provider a) (provider b)); simpl; auto.
Qed.

Lemma commitmentLe_total (a b : TypedCommitment) :
  compareCommitments a b = Gt -> commitmentLe b a.
Proof.
  intros H. unfold commitmentLe. rewrite compareCommitments_antisym, H. discriminate.
Qed.

Lemma commitmentLe_trans (a b c : TypedCommitment) :
  commitmentLe a b -> commitmentLe b c -> commitmentLe a c.
Proof.
  pose proof consistent as (_ & Hanti & Htrans).
  unfold commitmentLe, compareCommitments. intros Hab Hbc.
  destruct (localeCompare (provider a) (provider b)) eqn:Eab; [ | | congruence ];
    destruct (localeCompare (provider b) (provider c)) eqn:Ebc; try congruence.
  - rewrite (localeCompare_eq_trans _ _ _ Eab Ebc). now apply (Htrans _ (commitment b)).
  - assert (H : localeCompare (provider a) (provider c) = Lt); [ | now rewrite H ].
    assert (Hca : localeCompare (provider c) (provider a) = Gt); [ | rewrite Hanti, Hca; reflexivity ].
    assert (Hcb : localeCompare (provider c) (provider b) = Gt)
      by (rewrite Hanti, Ebc; reflexivity).
    destruct (localeCompare (provider c) (provider a)) eqn:Eca; [ | | reflexivity ]; exfalso.
    + rewrite (localeCompare_eq_trans _ _ _ Eca Eab) in Hcb. discriminate.
    + assert (Hx : localeCompare (provider c) (provider b) <> Gt)
        by (apply (Htrans _ (provider a)); congruence).
      congruence.
  - assert (H : localeCompare (provider a) (provider c) = Lt); [ | now rewrite H ].
    apply (localeCompare_lt_eq _ (provider b)); [ exact Eab | congruence | ].
    intros Eac.
    assert (Hba : localeCompare (provider b) (provider a) = Eq).
    { apply (localeCompare_eq_trans _ (provider c)); [ exact Ebc | ].
      rewrite Hanti, Eac. reflexivity. }
    rewrite Hanti, Eab in Hba. discriminate.
  - assert (H : localeCompare (provider a) (provider c) = Lt); [ | now rewrite H ].
    apply (localeCompare_lt_eq _ (provider b)); [ exact Eab | congruence | ].
    intros Eac.
    assert (Hx : localeCompare (provider b) (provider a) <> Gt).
    { apply (Htrans _ (provider c)); [ congruence | ].
      rewrite Hanti, Eac. discriminate. }
    rewrite Hanti, Eab in Hx. simpl in Hx. congruence.
Qed.

Lemma insertSorted_sorted (x : TypedCommitment) (l : list TypedCommitment) :
  StronglySorted commitmentLe l ->
  StronglySorted commitmentLe (insertSorted compareCommitments x l).
Proof.
  induction 1 as [ | y l Hl IH Hy]; simpl.
  - constructor; constructor.
  - destruct (compareCommitments x y) eqn:E.
    + constructor; [ now constructor | ].
      assert (Hxy : commitmentLe x y) by (unfold commitmentLe; congruence).
      constructor; [ exact Hxy | ].
      eapply Forall_impl; [ | exact Hy ]. intros z Hz.
      now apply (commitmentLe_trans _ y).
    + constructor; [ now constructor | ].
      assert (Hxy : commitmentLe x y) by (unfold commitmentLe; congruence).
      constructor; [ exact Hxy | ].
      eapply Forall_impl; [ | exact Hy ]. intros z Hz.
      now apply (commitmentLe_trans _ y).
    + constructor; [ exact IH | ].
      eapply Permutation_Forall; [ symmetry; apply insertSorted_perm | ].
      constructor; [ now apply commitmentLe_total | exact Hy ].
Qed.

Lemma sortWith_sorted (l : list TypedCommitment) :
  StronglySorted commitmentLe (sortWith compareCommitments l).
Proof.
  induction l as [ | x l IH]; simpl; [ constructor | now apply insertSorted_sorted ].
Qed.

Lemma sorted_permutation_unique (l1 : list TypedCommitment) :
  forall l2,
    StronglySorted commitmentLe l1 -> StronglySorted commitmentLe l2 ->
    Permutation l1 l2 ->
    (forall a b, In a l1 -> In b l1 -> compareCommitments a b = Eq -> a = b) ->
    l1 = l2.
Proof.
  induction l1 as [ | x l1 IH]; intros l2 H1 H2 Hp Hsep.
  - apply Permutation_nil in Hp. now subst.
  - destruct l2 as [ | y l2];
      [ apply Permutation_sym, Permutation_nil in Hp; discriminate | ].
    inversion H1 as [ | ? ? H1' Hx]; subst.
    inversion H2 as [ | ? ? H2' Hy]; subst.
    assert (Exy : x = y).
    { assert (Hyin : In y (x :: l1))
        by (eapply Permutation_in; [ symmetry; exact Hp | now left ]).
      assert (Hxin : In x (y :: l2))
        by (eapply Permutation_in; [ exact Hp | now left ]).
      assert (Hle1 : commitmentLe x y).
      { destruct Hyin as [-> | Hyin].
        - unfold commitmentLe. rewrite compareCommitments_refl. discriminate.
        - rewrite Forall_forall in Hx. now apply Hx. }
      assert (Hle2 : commitmentLe y x).
      { destruct Hxin as [-> | Hxin].
        - unfold commitmentLe. rewrite compareCommitments_refl. discriminate.
        - rewrite Forall_forall in Hy. now apply Hy. }
      apply Hsep; [ now left | exact Hyin | ].
      unfold commitmentLe in Hle1, Hle2. rewrite compareCommitments_antisym in Hle2.
      destruct (compareCommitments x y); simpl in *; congruence. }
    subst y. f_equal. apply IH; try assumption.
    + now apply Permutation_cons_inv in Hp.
    + intros a b Ha Hb. apply Hsep; now right.
Qed.

(** Where the collation tells the records apart, the canonical form does
    not depend on the order of the list. *)
Lemma canonicalize_permutation_invariant (cs cs' : list TypedCommitment) :
  Permutation cs cs' -> Separated cs ->
  canonicalizeCommitments cs = canonicalizeCommitments cs'.
Proof.
  intros Hp Hsep. unfold canonicalizeCommitments. do 2 f_equal.
  apply sorted_permutation_unique; try apply sortWith_sorted.
  - rewrite !sortWith_perm. now apply Permutation_map.
  - intros a b Ha Hb. apply Hsep; eapply Permutation_in; eauto using sortWith_perm.
Qed.

Lemma deriveWalletKey_permutation_invariant
      (cs cs' : list TypedCommitment) (K : Z) (saltHex : jsstring) :
  Permutation cs cs' -> Separated cs ->
  deriveWalletKey (mkParams cs K saltHex) = deriveWalletKey (mkParams cs' K saltHex).
Proof.
  intros Hp Hsep. unfold deriveWalletKey. cbn [commitments threshold].
  rewrite <- (Permutation_length Hp).
  now rewrite (canonicalize_permutation_invariant cs cs' Hp Hsep).
Qed.

End Canonicalizer.

(** The sample collation is a consistent comparator. *)
Lemma codeUnitCompare_refl (a : jsstring) : Sample.codeUnitCompare a a = Eq.
Proof.
  induction a as [ | x a IH]; [ reflexivity | ].
  simpl. now rewrite N.compare_refl.
Qed.

Lemma codeUnitCompare_antisym (a : jsstring) :
  forall b, Sample.codeUnitCompare b a = CompOpp (Sample.codeUnitCompare a b).
Proof.
  induction a as [ | x a IH]; intros [ | y b]; try reflexivity.
  simpl. rewrite (N.compare_antisym x y).
  destruct (x ?= y)%N; simpl; auto.
Qed.

Lemma codeUnitCompare_trans (a : jsstring) :
  forall b c,
    Sample.codeUnitCompare a b <> Gt -> Sample.codeUnitCompare b c <> Gt ->
    Sample.codeUnitCompare a c <> Gt.
Proof.
  induction a as [ | x a IH]; intros [ | y b] [ | z c]; simpl; try congruence.
  destruct (x ?= y)%N eqn:Exy; try congruence;
    destruct (y ?= z)%N eqn:Eyz; try congruence.
  - apply N.compare_eq in Exy, Eyz. subst. rewrite N.compare_refl. apply IH.
  - apply N.compare_eq in Exy. subst. rewrite Eyz. congruence.
  - apply N.compare_eq in Eyz. subst. rewrite Exy. congruence.
  - rewrite N.compare_lt_iff in Exy, Eyz.
    assert (H : (x ?= z)%N = Lt) by (apply N.compare_lt_iff; lia).
    rewrite H. congruence.
Qed.

Lemma sample_consistent_comparator : ConsistentComparator Sample.platform.
Proof.
  split; [ | split ]; cbn; unfold Sample.collate; intros.
  - apply codeUnitCompare_refl.
  - apply codeUnitCompare_antisym.
  - eapply codeUnitCompare_trans; eauto.
Qed.

(** The test "shuffled commitments produce same address", through the
    lemma: the collation tells these three records apart. *)
Example shuffled_commitments_same_canonical_form :
  let google := mkTyped (js "google") (js "abc123") in
  let github := mkTyped (js "github") (js "def456") in
  let passkey := mkTyped (js "passkey") (js "ghi789") in
  canonicalizeCommitments (P := Sample.platform) [google; github; passkey]
  = canonicalizeCommitments (P := Sample.platform) [passkey; google; github].
Proof.
  intros google github passkey.
  apply (canonicalize_permutation_invariant sample_consistent_comparator).
  - change [passkey; google; github] with ([passkey] ++ [google; github]).
    change [google; github; passkey] with ([google; github] ++ [passkey]).
    apply Permutation_app_comm.
  - intros a b Ha Hb.
    cbn in Ha, Hb.
    destruct Ha as [<- | [<- | [<- | []]]], Hb as [<- | [<- | [<- | []]]];
      vm_compute; congruence.
Qed.

(** C4.  On a platform whose [localeCompare] returns 0 on the canonically
    equivalent strings U+00E9 and U+0065 U+0301 (ECMA-262 requires it to),
    and whose [toLowerCase] and [trim] leave both as they are, two records
    that differ only in which of the two spells the provider compare equal,
    the stable sort keeps them in the order given, and the canonical string
    of the list [a; b] differs from that of its permutation [b; a]. *)
Theorem canonicalize_depends_on_order_of_ties
        (P : Platform)
        (Hcomposed : trim (toLowerCase [0xE9%N]) = [0xE9%N])
        (Hdecomposed : trim (toLowerCase [0x65%N; 0x301%N]) = [0x65%N; 0x301%N])
        (Hequiv : localeCompare [0xE9%N] [0x65%N; 0x301%N] = Eq)
        (Hequiv' : localeCompare [0x65%N; 0x301%N] [0xE9%N] = Eq)
        (Hsame : localeCompare (js "aa") (js "aa") = Eq) :
  let a := mkTyped [0xE9%N] (js "aa") in
  let b := mkTyped [0x65%N; 0x301%N] (js "aa") in
  Permutation [a; b] [b; a]
  /\ compareCommitments (normalizeProvider a) (normalizeProvider b) = Eq
  /\ canonicalizeCommitments [a; b]
     = [0xE9%N] ++ js ":aa|" ++ [0x65%N; 0x301%N] ++ js ":aa"
  /\ canonicalizeCommitments [b; a]
     = [0x65%N; 0x301%N] ++ js ":aa|" ++ [0xE9%N] ++ js ":aa"
  /\ canonicalizeCommitments [a; b] <> canonicalizeCommitments [b; a].
Proof.
  intros a b.
  assert (Hab : compareCommitments (normalizeProvider a) (normalizeProvider b) = Eq).
  { unfold compareCommitments, normalizeProvider. cbn [provider commitment a b].
    now rewrite Hcomposed, Hdecomposed, Hequiv. }
  assert (Hba : compareCommitments (normalizeProvider b) (normalizeProvider a) = Eq).
  { unfold compareCommitments, normalizeProvider. cbn [provider commitment a b].
    now rewrite Hcomposed, Hdecomposed, Hequiv'. }
  assert (E1 : canonicalizeCommitments [a; b]
               = [0xE9%N] ++ js ":aa|" ++ [0x65%N; 0x301%N] ++ js ":aa").
  { unfold canonicalizeCommitments. cbn [map sortWith fold_right insertSorted].
    rewrite Hab. unfold normalizeProvider, serializeCommitment.
    cbn [map provider commitment a b join]. rewrite Hcomposed, Hdecomposed.
    reflexivity. }
  assert (E2 : canonicalizeCommitments [b; a]
               = [0x65%N; 0x301%N] ++ js ":aa|" ++ [0xE9%N] ++ js ":aa").
  { unfold canonicalizeCommitments. cbn [map sortWith fold_right insertSorted].
    rewrite Hba. unfold normalizeProvider, serializeCommitment.
    cbn [map provider commitment a b join]. rewrite Hcomposed, Hdecomposed.
    reflexivity. }
  split; [ apply perm_swap | ]. split; [ exact Hab | ].
  split; [ exact E1 | ]. split; [ exact E2 | ].
  rewrite E1, E2. discriminate.
Qed.

Lemma canonicalize_depends_on_order_of_ties_witness :
  Sample.collate [0xE9%N] [0x65%N; 0x301%N] = Eq
  /\ canonicalizeCommitments (P := Sample.platform)
       [mkTyped [0xE9%N] (js "aa"); mkTyped [0x65%N; 0x301%N] (js "aa")]
     <> canonicalizeCommitments (P := Sample.platform)
          [mkTyped [0x65%N; 0x301%N] (js "aa"); mkTyped [0xE9%N] (js "aa")].
Proof.
  split; [ reflexivity | ].
  apply (canonicalize_depends_on_order_of_ties
           Sample.platform eq_refl eq_refl eq_refl eq_refl eq_refl).
Defined.

(** C3.  The threshold never reaches the result: for thresholds up to the
    number of commitments the calls are equal, on every platform.  The order
    of the list does reach it where the collation ties: with SHA-256 and
    HKDF computed for real and the two spellings U+00E9 and U+0065 U+0301 of
    one provider name, the list [a; b] and its permutation [b; a] yield
    different private keys. *)
Theorem deriveWalletKey_threshold_free_but_order_of_ties_counts :
  (forall (P : Platform) (cs : list TypedCommitment) (K1 K2 : Z) (saltHex : jsstring),
      (K1 <= Z.of_nat (length cs))%Z -> (K2 <= Z.of_nat (length cs))%Z ->
      deriveWalletKey (mkParams cs K1 saltHex) = deriveWalletKey (mkParams cs K2 saltHex))
  /\ let a := mkTyped [0xE9%N] (js "aa") in
     let b := mkTyped [0x65%N; 0x301%N] (js "aa") in
     let saltHex :=
       js "0123456789abcdef0123456789abcdef0123456789abcdef0123456789abcdef" in
     Permutation [a; b] [b; a]
     /\ exists r1 r2 : DerivedKeyResult,
         deriveWalletKey (P := Sample.platform) (mkParams [a; b] 1 saltHex) = Ok r1
         /\ deriveWalletKey (P := Sample.platform) (mkParams [b; a] 1 saltHex) = Ok r2
         /\ privateKey r1
            = js "7ede4f3d1dac5139a1097f9788fa5943d17e6cd3804196d8e0da7b6c16e85b18"
         /\ privateKey r2
            = js "636a8652db6fcb1a00a8dde2c56cda19de07e3a1d9a72e2ade2ad55c5cafb4fa"
         /\ privateKey r1 <> privateKey r2.
Proof.
  split; [ intros; now apply deriveWalletKey_threshold_independent | ].
  intros a b saltHex. split; [ apply perm_swap | ].
  eassert (E1 : deriveWalletKey (P := Sample.platform) (mkParams [a; b] 1 saltHex)
                = Ok _) by (vm_compute; reflexivity).
  eassert (E2 : deriveWalletKey (P := Sample.platform) (mkParams [b; a] 1 saltHex)
                = Ok _) by (vm_compute; reflexivity).
  eexists _, _. split; [ exact E1 | ]. split; [ exact E2 | ].
  split; [ reflexivity | ]. split; [ reflexivity | ]. discriminate.
Qed.

(** ** The wallet API *)

Section ApiFacts.
Context {P : Platform} {C : Collaborators}.

Lemma extractClaims_nil : extractClaims [] = ([], Ok []).
Proof. reflexivity. Qed.

Lemma extractClaims_cons (identity : SupportedIdentity)
      (rest : list SupportedIdentity) :
  extractClaims (identity :: rest)
  = match extractIdentityClaim identity with
    | Ok claim =>
        match extractClaims rest with
        | (t, Ok claims) => (EvExtract :: t, Ok (claim :: claims))
        | (t, Err e) => (EvExtract :: t, Err e)
        end
    | Err e => ([EvExtract], Err e)
    end.
Proof.
  unfold extractClaims. cbn [mapM]. unfold mbind, call, mret.
  destruct (extractIdentityClaim identity) as [claim | e]; [ | reflexivity ].
  destruct (mapM _ rest) as [t [claims | e]]; [ | reflexivity ].
  cbn. now rewrite app_nil_r.
Qed.

(** Extraction records one call per proof looked at, and nothing else. *)
Lemma extractClaims_trace (identities : list SupportedIdentity) :
  Forall (eq EvExtract) (trace (extractClaims identities))
  /\ (length (trace (extractClaims identities)) <= length identities)%nat.
Proof.
  induction identities as [ | i rest [IH1 IH2]]; [ split; [ constructor | simpl; lia ] | ].
  rewrite extractClaims_cons.
  destruct (extractIdentityClaim i).
  - destruct (extractClaims rest) as [t [claims | e]]; cbn in *;
      (split; [ now constructor | lia ]).
  - cbn. split; [ repeat constructor | lia ].
Qed.

Lemma extractClaims_length (identities : list SupportedIdentity)
      (claims : list IdentityClaim) :
  outcome (extractClaims identities) = Ok claims ->
  length claims = length identities.
Proof.
  revert claims. induction identities as [ | i rest IH]; intros claims H.
  - cbn in H. injection H as <-. reflexivity.
  - rewrite extractClaims_cons in H.
    destruct (extractIdentityClaim i); [ | discriminate ].
    destruct (extractClaims rest) as [t [claims' | e]]; [ | discriminate ].
    cbn in H. injection H as <-. simpl. f_equal. now apply IH.
Qed.

(** The first proof that does not parse decides how extraction ends. *)
Lemma extractClaims_first_failure
      (good : list SupportedIdentity) (bad : SupportedIdentity)
      (rest : list SupportedIdentity) (e : JsError) :
  Forall (fun i => exists claim, extractIdentityClaim i = Ok claim) good ->
  extractIdentityClaim bad = Err e ->
  extractClaims (good ++ bad :: rest) = (repeat EvExtract (S (length good)), Err e).
Proof.
  intros Hgood Hbad. induction Hgood as [ | i good [claim Hi] _ IH].
  - cbn [app]. rewrite extractClaims_cons, Hbad. reflexivity.
  - cbn [app]. rewrite extractClaims_cons, Hi, IH. reflexivity.
Qed.

Lemma extractClaims_all_ok (identities : list SupportedIdentity) :
  Forall (fun i => exists claim, extractIdentityClaim i = Ok claim) identities ->
  extractClaims identities
  = (repeat EvExtract (length identities), Ok (extractedClaims identities)).
Proof.
  induction 1 as [ | i rest [claim Hi] _ IH]; [ reflexivity | ].
  rewrite extractClaims_cons, Hi, IH. cbn [extractedClaims flat_map].
  rewrite Hi. reflexivity.
Qed.

Lemma extractClaims_ok_all (identities : list SupportedIdentity)
      (claims : list IdentityClaim) :
  outcome (extractClaims identities) = Ok claims ->
  Forall (fun i => exists claim, extractIdentityClaim i = Ok claim) identities.
Proof.
  revert claims. induction identities as [ | i rest IH]; intros claims H;
    [ constructor | ].
  rewrite extractClaims_cons in H.
  destruct (extractIdentityClaim i) as [claim | e] eqn:Hi; [ | discriminate ].
  destruct (extractClaims rest) as [t [claims' | e]] eqn:Hrest; [ | discriminate ].
  constructor; [ eauto | ]. apply (IH claims'). reflexivity.
Qed.

End ApiFacts.

Section Matching.
Context {P : Platform} {C : Collaborators}.

Lemma findMatching_find (claim : IdentityClaim) (saltHex : jsstring)
      (stored : list Commitment) :
  outcome (findMatching claim saltHex stored)
  = Ok (find (fun s => validateCommitment claim saltHex (commitmentHex s)) stored)
  /\ Forall (eq EvValidate) (trace (findMatching claim saltHex stored)).
Proof.
  induction stored as [ | s rest [IH1 IH2]]; [ split; [ reflexivity | constructor ] | ].
  cbn [findMatching find]. unfold mbind, call.
  destruct (validateCommitment claim saltHex (commitmentHex s)).
  - cbn. split; [ reflexivity | repeat constructor ].
  - destruct (findMatching claim saltHex rest) as [t r]. cbn in *.
    split; [ exact IH1 | now constructor ].
Qed.

Lemma find_existsb {A} (f : A -> bool) (l : list A) :
  existsb f l = match find f l with Some _ => true | None => false end.
Proof.
  induction l as [ | x l IH]; [ reflexivity | ]. simpl.
  destruct (f x); [ reflexivity | exact IH ].
Qed.

(** The loop never throws; it adds to the count the number of claims that
    some stored commitment validates. *)
Lemma matchClaims_count (claims : list IdentityClaim) (stored : list Commitment)
      (saltHex : jsstring) :
  forall (matched : list Commitment) (count : nat),
  exists (t : list Event) (matched' : list Commitment),
    matchClaims claims stored saltHex matched count
    = (t, Ok (matched', (count + countMatchingClaims stored saltHex claims)%nat))
    /\ Forall (eq EvValidate) t.
Proof.
  induction claims as [ | claim rest IH]; intros matched count.
  - exists [], matched. cbn. rewrite Nat.add_0_r. split; [ reflexivity | constructor ].
  - cbn [matchClaims]. unfold mbind.
    destruct (findMatching_find claim saltHex stored) as [Hf Ht].
    destruct (findMatching claim saltHex stored) as [t0 r0]. cbn in Hf, Ht. subst r0.
    unfold countMatchingClaims. cbn [filter]. unfold claimMatches at 1.
    rewrite find_existsb.
    destruct (find _ stored) as [m | ].
    + destruct (IH (matched ++ [m]) (S count)) as (t & matched' & E & Ht').
      rewrite E. exists (t0 ++ t), matched'. split.
      * cbn [length]. f_equal. f_equal. f_equal. unfold countMatchingClaims. lia.
      * apply Forall_app. now split.
    + destruct (IH matched count) as (t & matched' & E & Ht').
      rewrite E. exists (t0 ++ t), matched'. split; [ reflexivity | ].
      apply Forall_app. now split.
Qed.

Lemma countMatchingClaims_le (stored : list Commitment) (saltHex : jsstring)
      (claims : list IdentityClaim) :
  (countMatchingClaims stored saltHex claims <= length claims)%nat.
Proof. apply filter_length_le. Qed.

End Matching.

Section Recovery.
Context {P : Platform} {C : Collaborators}.

Lemma getKeyWeaverConfig_cases (st : KeyWeaverState) :
  getKeyWeaverConfig st = Err KeyWeaverNotInitializedError
  \/ exists cfg, getKeyWeaverConfig st = Ok cfg.
Proof.
  unfold getKeyWeaverConfig. destruct (initialized st), (config st); eauto.
Qed.

Lemma recoverWallet_not_initialized (st : KeyWeaverState)
      (params : RecoverWalletParams) (e : JsError) :
  getKeyWeaverConfig st = Err e -> recoverWallet st params = ([], Err e).
Proof. intros H. unfold recoverWallet. rewrite H. reflexivity. Qed.

Lemma recoverWallet_extraction_failed (st : KeyWeaverState)
      (params : RecoverWalletParams) (cfg : KeyWeaverConfig)
      (t : list Event) (e : JsError) :
  getKeyWeaverConfig st = Ok cfg ->
  extractClaims (recIdentities params) = (t, Err e) ->
  recoverWallet st params = (t, Err (KeyDerivationError (message e))).
Proof.
  intros Hcfg Hex. unfold recoverWallet. rewrite Hcfg. cbn [mbind app].
  rewrite Hex. cbn. now rewrite app_nil_r.
Qed.

(** Every run of [recoverWallet] once the claims are extracted. *)
Lemma recoverWallet_extracted (st : KeyWeaverState)
      (params : RecoverWalletParams) (cfg : KeyWeaverConfig)
      (t1 : list Event) (claims : list IdentityClaim) :
  getKeyWeaverConfig st = Ok cfg ->
  extractClaims (recIdentities params) = (t1, Ok claims) ->
  let saltHex := normalizeSalt (recSalt params) in
  let m := countMatchingClaims (recCommitments params) saltHex claims in
  let expose :=
    match recExposePrivateKey params with Some b => b | None => false end in
  exists t2 : list Event,
    Forall (eq EvValidate) t2
    /\ recoverWallet st params
       = if (Z.of_nat m >=? recThreshold params)%Z then
           match deriveWalletKey
                   (mkParams (map toTypedCommitment (recCommitments params))
                             (recThreshold params) saltHex) with
           | Err e =>
               (t1 ++ t2 ++ [EvDerive], Err (KeyDerivationError (message e)))
           | Ok derived =>
               match createWalletFromPrivateKey (privateKey derived) with
               | Err e =>
                   (t1 ++ t2 ++ [EvDerive; EvCreateWallet],
                    Err (KeyDerivationError (message e)))
               | Ok w =>
                   if streq (toLowerCase (walletAddress w))
                            (toLowerCase (address derived))
                   then
                     (t1 ++ t2 ++ [EvDerive; EvCreateWallet],
                      Ok (mkRecoverResult
                            (Some w) m true
                            (if expose then Some (privateKey derived) else None)))
                   else
                     (t1 ++ t2 ++ [EvDerive; EvCreateWallet],
                      Err (KeyDerivationError
                             (message (KeyDerivationError
                                         (js "Address mismatch during recovery")))))
               end
           end
         else (t1 ++ t2, Ok (mkRecoverResult None m false None)).
Proof.
  intros Hcfg Hex saltHex m expose.
  destruct (matchClaims_count claims (recCommitments params) saltHex [] 0)
    as (t2 & matched & Em & Ht2).
  exists t2. split; [ exact Ht2 | ].
  unfold recoverWallet. rewrite Hcfg. cbn [mbind app].
  rewrite Hex. fold saltHex. cbn [mbind]. rewrite Em. cbn [mbind snd Nat.add]. fold m.
  fold expose.
  destruct (Z.of_nat m >=? recThreshold params)%Z; cbn [negb].
  - unfold call, mbind, tryCatch, rethrowAsKeyDerivationError, throw, mret.
    destruct (deriveWalletKey _) as [derived | e].
    + destruct (createWalletFromPrivateKey (privateKey derived)) as [w | e].
      * destruct (streq (toLowerCase (walletAddress w))
                        (toLowerCase (address derived)));
          cbn [negb app]; rewrite ?app_nil_r; reflexivity.
      * cbn [app]. rewrite ?app_nil_r. reflexivity.
    + cbn [app]. rewrite ?app_nil_r. reflexivity.
  - unfold tryCatch, mret. rewrite ?app_nil_r. reflexivity.
Qed.

End Recovery.

(** C5.  Every value [recoverWallet] returns has [success] true exactly
    when [matchedCount >= threshold].  When the system is initialised, the
    presented proofs parse, and fewer of their claims match than the
    threshold asks, it returns (it does not throw) the value with that
    count, [success] false, the empty wallet and no private key, having
    called nothing but the claim extractor and the commitment validator: no
    key derivation, no wallet creation. *)
Theorem recoverWallet_threshold_policy
        (P : Platform) (C : Collaborators)
        (st : KeyWeaverState) (params : RecoverWalletParams) :
  (forall (tr : list Event) (r : RecoverWalletResult),
      recoverWallet st params = (tr, Ok r) ->
      success r = (Z.of_nat (matchedCount r) >=? recThreshold params)%Z)
  /\ (forall (cfg : KeyWeaverConfig) (t1 : list Event) (claims : list IdentityClaim),
         getKeyWeaverConfig st = Ok cfg ->
         extractClaims (recIdentities params) = (t1, Ok claims) ->
         let m := countMatchingClaims (recCommitments params)
                                      (normalizeSalt (recSalt params)) claims in
         (Z.of_nat m < recThreshold params)%Z ->
         exists tr : list Event,
           recoverWallet st params = (tr, Ok (mkRecoverResult None m false None))
           /\ Forall (fun ev => ev = EvExtract \/ ev = EvValidate) tr).
Proof.
  split.
  - intros tr r H.
    destruct (getKeyWeaverConfig_cases st) as [Hcfg | [cfg Hcfg]];
      [ rewrite (recoverWallet_not_initialized _ _ _ Hcfg) in H; discriminate | ].
    destruct (extractClaims (recIdentities params)) as [t1 [claims | e]] eqn:Hex;
      [ | rewrite (recoverWallet_extraction_failed _ _ _ _ _ Hcfg Hex) in H;
          discriminate ].
    destruct (recoverWallet_extracted _ _ _ _ _ Hcfg Hex) as (t2 & _ & E).
    rewrite E in H. clear E.
    destruct (Z.of_nat _ >=? recThreshold params)%Z eqn:Em.
    + destruct (deriveWalletKey _) as [derived | e]; [ | discriminate ].
      destruct (createWalletFromPrivateKey _) as [w | e]; [ | discriminate ].
      destruct (streq _ _); [ | discriminate ].
      injection H as _ <-. cbn [success matchedCount]. now rewrite Em.
    + injection H as _ <-. cbn [success matchedCount]. now rewrite Em.
  - intros cfg t1 claims Hcfg Hex m Hm.
    destruct (recoverWallet_extracted _ _ _ _ _ Hcfg Hex) as (t2 & Ht2 & E).
    fold m in E.
    replace (Z.of_nat m >=? recThreshold params)%Z with false in E
      by (symmetry; rewrite Z.geb_leb; apply Z.leb_gt; exact Hm).
    exists (t1 ++ t2). split; [ exact E | ].
    apply Forall_app. split.
    + pose proof (extractClaims_trace (recIdentities params)) as [Ht _].
      rewrite Hex in Ht. cbn in Ht.
      eapply Forall_impl; [ | exact Ht ]. intros ev <-. now left.
    + eapply Forall_impl; [ | exact Ht2 ]. intros ev <-. now right.
Qed.

(** What the loop counts.  It never throws, and the count it ends with is
    the number of presented claims that some stored commitment validates.
    That is the [matchedCount] of every value [recoverWallet] returns, so it
    is at most the number of proofs presented. *)
Lemma matchedCount_counts_presented_claims
        (P : Platform) (C : Collaborators) :
  (forall (claims : list IdentityClaim) (stored : list Commitment)
          (saltHex : jsstring),
      exists (t : list Event) (matched : list Commitment),
        matchClaims claims stored saltHex [] 0
        = (t, Ok (matched, countMatchingClaims stored saltHex claims))
        /\ (countMatchingClaims stored saltHex claims <= length claims)%nat)
  /\ (forall (st : KeyWeaverState) (params : RecoverWalletParams)
             (tr : list Event) (r : RecoverWalletResult),
         recoverWallet st params = (tr, Ok r) ->
         exists claims : list IdentityClaim,
           outcome (extractClaims (recIdentities params)) = Ok claims
           /\ matchedCount r
              = countMatchingClaims (recCommitments params)
                                    (normalizeSalt (recSalt params)) claims
           /\ (matchedCount r <= length (recIdentities params))%nat).
Proof.
  split.
  - intros claims stored saltHex.
    destruct (matchClaims_count claims stored saltHex [] 0) as (t & matched & E & _).
    exists t, matched. split; [ exact E | apply countMatchingClaims_le ].
  - intros st params tr r Hrun.
    destruct (getKeyWeaverConfig_cases st) as [Hcfg | [cfg Hcfg]];
      [ rewrite (recoverWallet_not_initialized _ _ _ Hcfg) in Hrun; discriminate | ].
    destruct (extractClaims (recIdentities params)) as [t1 [claims | e]] eqn:Hex;
      [ | rewrite (recoverWallet_extraction_failed _ _ _ _ _ Hcfg Hex) in Hrun;
          discriminate ].
    destruct (recoverWallet_extracted _ _ _ _ _ Hcfg Hex) as (t2 & _ & E).
    rewrite E in Hrun. clear E.
    assert (Hlen : length claims = length (recIdentities params))
      by (apply extractClaims_length; now rewrite Hex).
    pose proof (countMatchingClaims_le (recCommitments params)
                  (normalizeSalt (recSalt params)) claims) as Hle.
    exists claims. split; [ reflexivity | ].
    destruct (Z.of_nat _ >=? recThreshold params)%Z.
    + destruct (deriveWalletKey _) as [derived | e]; [ | discriminate ].
      destruct (createWalletFromPrivateKey _) as [w | e]; [ | discriminate ].
      destruct (streq _ _); [ | discriminate ].
      injection Hrun as _ <-. cbn [matchedCount]. split; [ reflexivity | lia ].
    + injection Hrun as _ <-. cbn [matchedCount]. split; [ reflexivity | lia ].
Qed.

Section Registration.
Context {P : Platform} {C : Collaborators}.

Lemma registerWallet_not_initialized (st : KeyWeaverState) (rnd : jsstring)
      (params : RegisterWalletParams) (e : JsError) :
  getKeyWeaverConfig st = Err e -> registerWallet st rnd params = ([], Err e).
Proof. intros H. unfold registerWallet. rewrite H. reflexivity. Qed.

(** Every run of [registerWallet] in an initialised system. *)
Lemma registerWallet_initialized (st : KeyWeaverState) (rnd : jsstring)
      (params : RegisterWalletParams) (cfg : KeyWeaverConfig) :
  getKeyWeaverConfig st = Ok cfg ->
  let identities := regIdentities params in
  let K := regThreshold params in
  let expose :=
    match regExposePrivateKey params with Some b => b | None => false end in
  let tsalt :=
    match regSalt params with Some (_ :: _) => [] | _ => [EvRandomSalt] end in
  let rawSalt :=
    match regSalt params with Some (c :: s) => c :: s | _ => rnd end in
  registerWallet st rnd params
  = if (Z.of_nat (length identities) <? K)%Z then
      ([], Err (InsufficientIdentitiesError (Z.of_nat (length identities)) K))
    else
      match extractClaims identities with
      | (t1, Err e) => (t1, Err (KeyDerivationError (message e)))
      | (t1, Ok claims) =>
          let saltHex := normalizeSalt rawSalt in
          let stored := generateCommitments claims saltHex in
          match deriveWalletKey
                  (mkParams (map toTypedCommitment stored) K saltHex) with
          | Err e =>
              (t1 ++ tsalt ++ [EvGenerate; EvDerive],
               Err (KeyDerivationError (message e)))
          | Ok derived =>
              (t1 ++ tsalt ++ [EvGenerate; EvDerive],
               Ok (mkRegisterResult
                     stored saltHex (address derived)
                     (if expose then Some (privateKey derived) else None)))
          end
      end.
Proof.
  intros Hcfg identities K expose tsalt rawSalt.
  unfold registerWallet. rewrite Hcfg. cbn [mbind app].
  fold identities K expose.
  destruct (Z.of_nat (length identities) <? K)%Z; [ reflexivity | ].
  destruct (extractClaims identities) as [t1 [claims | e]];
    [ | cbn; now rewrite app_nil_r ].
  cbn [mbind].
  assert (Esalt : match regSalt params with
                  | Some (c :: s) => mret (c :: s)
                  | _ => call EvRandomSalt (Ok rnd)
                  end = (tsalt, Ok rawSalt)).
  { unfold tsalt, rawSalt. destruct (regSalt params) as [[ | c s] | ]; reflexivity. }
  rewrite Esalt. cbn [mbind].
  unfold call, mbind, tryCatch, rethrowAsKeyDerivationError, throw, mret.
  destruct (deriveWalletKey _) as [derived | e];
    cbn [app]; rewrite ?app_nil_r; reflexivity.
Qed.

(** What a successful registration has done. *)
Lemma registerWallet_ok (st : KeyWeaverState) (rnd : jsstring)
      (params : RegisterWalletParams) (tr : list Event)
      (reg : RegisterWalletResult) :
  registerWallet st rnd params = (tr, Ok reg) ->
  exists (rawSalt : jsstring) (derived : DerivedKeyResult),
    Forall (fun i => exists claim, extractIdentityClaim i = Ok claim)
           (regIdentities params)
    /\ resSalt reg = normalizeSalt rawSalt
    /\ deriveWalletKey
         (mkParams (map toTypedCommitment (resCommitments reg))
                   (regThreshold params) (resSalt reg)) = Ok derived
    /\ resAddress reg = address derived
    /\ resPrivateKey reg
       = (if match regExposePrivateKey params with Some b => b | None => false end
          then Some (privateKey derived) else None).
Proof.
  intros H.
  destruct (getKeyWeaverConfig_cases st) as [Hcfg | [cfg Hcfg]];
    [ rewrite (registerWallet_not_initialized _ _ _ _ Hcfg) in H; discriminate | ].
  rewrite (registerWallet_initialized _ _ _ _ Hcfg) in H.
  destruct (Z.of_nat _ <? regThreshold params)%Z; [ discriminate | ].
  destruct (extractClaims _) as [t1 [claims | e]] eqn:Hex; [ | discriminate ].
  cbv zeta in H.
  destruct (deriveWalletKey _) as [derived | e] eqn:Ed; [ | discriminate ].
  injection H as _ <-. cbn [resSalt resCommitments resAddress resPrivateKey].
  eexists _, derived.
  split; [ apply (extractClaims_ok_all _ claims); now rewrite Hex | ].
  repeat split; try reflexivity. exact Ed.
Qed.

End Registration.

Lemma sample_wallet_recomputes_address :
  WalletRecomputesAddress Sample.platform Sample.collaborators.
Proof. intros pk addr H. cbn. now rewrite H. Qed.

(** C7, as the code has it.  In an initialised system, when the first
    presented proof that does not parse makes the extractor throw
    [InvalidIdentityTokenError] with a provider and a reason,
    [recoverWallet] -- and [registerWallet], when enough identities are
    given for the threshold -- throws [KeyDerivationError]: the [catch]
    around the work replaces the error by one of that kind, which keeps the
    original message (it names the provider and the reason) behind the
    prefix "Key derivation failed: ".  With fewer identities than the
    threshold, [registerWallet] throws [InsufficientIdentitiesError] before
    it looks at any proof. *)
Theorem malformed_proof_surfaces_as_KeyDerivationError
        (P : Platform) (C : Collaborators)
        (st : KeyWeaverState) (cfg : KeyWeaverConfig)
        (good : list SupportedIdentity) (bad : SupportedIdentity)
        (rest : list SupportedIdentity) (provider reason : jsstring)
        (Hinit : getKeyWeaverConfig st = Ok cfg)
        (Hgood : Forall (fun i => exists claim, extractIdentityClaim i = Ok claim) good)
        (Hbad : extractIdentityClaim bad
                = Err (InvalidIdentityTokenError provider reason)) :
  let identities := good ++ bad :: rest in
  let original :=
    js "Invalid " ++ provider ++ js " token: "
       ++ orElse reason (js "token validation failed") in
  (forall (rnd : jsstring) (K : Z) (saltGiven : option jsstring)
          (expose : option bool),
      (K <= Z.of_nat (length identities))%Z ->
      outcome (registerWallet st rnd (mkRegisterParams identities K saltGiven expose))
      = Err (KeyDerivationError original))
  /\ (forall (stored : list Commitment) (saltHex : jsstring) (K : Z)
             (expose : option bool),
         outcome (recoverWallet st (mkRecoverParams identities stored saltHex K expose))
         = Err (KeyDerivationError original))
  /\ message (KeyDerivationError original) = js "Key derivation failed: " ++ original
  /\ (forall (rnd : jsstring) (K : Z) (saltGiven : option jsstring)
             (expose : option bool),
         (Z.of_nat (length identities) < K)%Z ->
         registerWallet st rnd (mkRegisterParams identities K saltGiven expose)
         = ([], Err (InsufficientIdentitiesError (Z.of_nat (length identities)) K))).
Proof.
  intros identities original.
  pose proof (extractClaims_first_failure good bad rest _ Hgood Hbad) as Hex.
  fold identities in Hex.
  split; [ | split; [ | split ] ];
    [ | | | intros rnd K saltGiven expose HK;
            rewrite (registerWallet_initialized _ _ _ _ Hinit);
            cbn [regIdentities regThreshold];
            apply Z.ltb_lt in HK; now rewrite HK ].
  - intros rnd K saltGiven expose HK.
    rewrite (registerWallet_initialized _ _ _ _ Hinit).
    cbn [regIdentities regThreshold].
    replace (Z.of_nat (length identities) <? K)%Z with false
      by (symmetry; apply Z.ltb_ge; exact HK).
    rewrite Hex. reflexivity.
  - intros stored saltHex K expose.
    rewrite (recoverWallet_extraction_failed
               st (mkRecoverParams identities stored saltHex K expose) cfg _ _
               Hinit Hex).
    reflexivity.
  - reflexivity.
Qed.

Lemma malformed_proof_surfaces_as_KeyDerivationError_witness :
  getKeyWeaverConfig Sample.ready = Ok (mkConfig (Some (js "v1")))
  /\ Sample.extractClaim Sample.malformed
     = Err (InvalidIdentityTokenError (js "google") (js "Invalid JWT format"))
  /\ outcome (Sample.recover
                Sample.ready
                (Sample.recoverParams
                   [Sample.github; Sample.malformed; Sample.passkey]
                   [] (js "salt") 1 None))
     = Err (KeyDerivationError (js "Invalid google token: Invalid JWT format")).
Proof.
  split; [ reflexivity | ]. split; [ reflexivity | ].
  assert (Hgood : Forall (fun i => exists claim, Sample.extractClaim i = Ok claim)
                         [Sample.github])
    by (constructor; [ eexists; reflexivity | constructor ]).
  destruct (malformed_proof_surfaces_as_KeyDerivationError
              Sample.platform Sample.collaborators Sample.ready
              (mkConfig (Some (js "v1")))
              [Sample.github] Sample.malformed [Sample.passkey]
              (js "google") (js "Invalid JWT format")
              eq_refl Hgood eq_refl) as (_ & H & _ & _).
  exact (H [] (js "salt") 1%Z None).
Defined.

(** C7 as the specification words it fails: a token that is not made of
    three parts makes the extractor throw [InvalidIdentityTokenError], and
    both operations throw [KeyDerivationError] instead. *)
Lemma malformed_proof_not_surfaced_directly :
  Sample.extractClaim Sample.malformed
  = Err (InvalidIdentityTokenError (js "google") (js "Invalid JWT format"))
  /\ outcome (Sample.register
                Sample.ready (js "unused")
                (Sample.registerParams [Sample.malformed; Sample.github] 2 None None))
     = Err (KeyDerivationError (js "Invalid google token: Invalid JWT format"))
  /\ outcome (Sample.recover
                Sample.ready
                (Sample.recoverParams [Sample.malformed] [] (js "salt") 1 None))
     = Err (KeyDerivationError (js "Invalid google token: Invalid JWT format"))
  /\ KeyDerivationError (js "Invalid google token: Invalid JWT format")
     <> InvalidIdentityTokenError (js "google") (js "Invalid JWT format").
Proof.
  split; [ reflexivity | ]. split; [ vm_compute; reflexivity | ].
  split; [ vm_compute; reflexivity | discriminate ].
Qed.

(** C10.  Before [initKeyWeaver] was ever called the state is the initial
    one; there, as in any state not marked initialised, [registerWallet] and
    [recoverWallet] throw [KeyWeaverNotInitializedError] on every input,
    having called nothing.  The state after a call of [initKeyWeaver],
    whatever it was before, makes neither of them throw that error, on any
    input. *)
Theorem not_initialized_error_exactly_before_init
        (P : Platform) (C : Collaborators)
        (rnd : jsstring) (regParams : RegisterWalletParams)
        (recParams : RecoverWalletParams)
        (cfg : KeyWeaverConfig) (st : KeyWeaverState) :
  registerWallet initialState rnd regParams = ([], Err KeyWeaverNotInitializedError)
  /\ recoverWallet initialState recParams = ([], Err KeyWeaverNotInitializedError)
  /\ (isInitialized st = false ->
      registerWallet st rnd regParams = ([], Err KeyWeaverNotInitializedError)
      /\ recoverWallet st recParams = ([], Err KeyWeaverNotInitializedError))
  /\ isInitialized (initKeyWeaver cfg st) = true
  /\ outcome (registerWallet (initKeyWeaver cfg st) rnd regParams)
     <> Err KeyWeaverNotInitializedError
  /\ outcome (recoverWallet (initKeyWeaver cfg st) recParams)
     <> Err KeyWeaverNotInitializedError.
Proof.
  assert (Hcfg : getKeyWeaverConfig (initKeyWeaver cfg st) = Ok cfg) by reflexivity.
  split; [ reflexivity | ]. split; [ reflexivity | ].
  split.
  { intros Hst.
    assert (Hno : getKeyWeaverConfig st = Err KeyWeaverNotInitializedError)
      by (unfold getKeyWeaverConfig; unfold isInitialized in Hst; now rewrite Hst).
    split;
      [ now apply registerWallet_not_initialized
      | now apply recoverWallet_not_initialized ]. }
  split; [ reflexivity | ].
  split.
  - rewrite (registerWallet_initialized _ _ _ _ Hcfg).
    destruct (Z.of_nat _ <? regThreshold regParams)%Z; [ discriminate | ].
    destruct (extractClaims _) as [t1 [claims | e]]; [ | discriminate ].
    cbv zeta. destruct (deriveWalletKey _); discriminate.
  - destruct (extractClaims (recIdentities recParams)) as [t1 [claims | e]] eqn:Hex.
    + destruct (recoverWallet_extracted _ _ _ _ _ Hcfg Hex) as (t2 & _ & E).
      rewrite E. clear E.
      destruct (Z.of_nat _ >=? recThreshold recParams)%Z; [ | discriminate ].
      destruct (deriveWalletKey _); [ | discriminate ].
      destruct (createWalletFromPrivateKey _); [ | discriminate ].
      destruct (streq _ _); discriminate.
    + rewrite (recoverWallet_extraction_failed _ _ _ _ _ Hcfg Hex). discriminate.
Qed.

Lemma streq_true (a b : jsstring) : streq a b = true -> a = b.
Proof. unfold streq. destruct (jsstring_dec a b); [ trivial | discriminate ]. Qed.

Lemma streq_refl (a : jsstring) : streq a a = true.
Proof. unfold streq. destruct (jsstring_dec a a); congruence. Qed.

(** C1.  Take a registration that returned, an initialised system, and a
    recovery against the commitments and the salt that registration
    returned, presenting any of the proofs registered, no more of them than
    there are stored commitments, of which at least the threshold match.
    Given that SHA-256 yields 32 bytes and that [toLowerCase] lower-cases
    ASCII: recovery calls [deriveWalletKey] on the whole stored list and the
    salt, which yields the private key and the address registration derived;
    every value it returns reports success and carries that private key
    (when asked to expose it) and a wallet made from it, whose address is
    the registered one up to the case of its letters; and where the wallet
    made from a key carries the address recomputed from it, recovery does
    return, with the registered address itself. *)
Theorem recovery_returns_registered_key
        (P : Platform) (C : Collaborators)
        (Hsha : Sha256Length P) (Hlower : ToLowerCaseAscii P)
        (st : KeyWeaverState) (rnd : jsstring) (regParams : RegisterWalletParams)
        (tr : list Event) (reg : RegisterWalletResult)
        (Hreg : registerWallet st rnd regParams = (tr, Ok reg))
        (st' : KeyWeaverState) (cfg : KeyWeaverConfig)
        (Hinit : getKeyWeaverConfig st' = Ok cfg)
        (presented : list SupportedIdentity) (K : Z) (expose : option bool)
        (Hsubset : incl presented (regIdentities regParams))
        (Hsize : (length presented <= length (resCommitments reg))%nat)
        (Hreached : (K <= Z.of_nat (countMatchingClaims
                                      (resCommitments reg) (resSalt reg)
                                      (extractedClaims presented)))%Z) :
  let m := countMatchingClaims (resCommitments reg) (resSalt reg)
                               (extractedClaims presented) in
  let exposed := match expose with Some b => b | None => false end in
  let recovery :=
    recoverWallet st' (mkRecoverParams presented (resCommitments reg)
                                       (resSalt reg) K expose) in
  exists pk addr : jsstring,
    deriveWalletKey (mkParams (map toTypedCommitment (resCommitments reg))
                              (regThreshold regParams) (resSalt reg))
    = Ok (mkDerived pk addr)
    /\ resAddress reg = addr
    /\ resPrivateKey reg
       = (if match regExposePrivateKey regParams with Some b => b | None => false end
          then Some pk else None)
    /\ deriveWalletKey (mkParams (map toTypedCommitment (resCommitments reg))
                                 K (normalizeSalt (resSalt reg)))
       = Ok (mkDerived pk addr)
    /\ In EvDerive (trace recovery)
    /\ (forall r : RecoverWalletResult,
           outcome recovery = Ok r ->
           success r = true
           /\ matchedCount r = m
           /\ recoveredPrivateKey r = (if exposed then Some pk else None)
           /\ exists w : Wallet,
               wallet r = Some w
               /\ createWalletFromPrivateKey pk = Ok w
               /\ toLowerCase (walletAddress w) = toLowerCase addr)
    /\ (WalletRecomputesAddress P C ->
        outcome recovery
        = Ok (mkRecoverResult (Some (mkWallet addr)) m true
                              (if exposed then Some pk else None))).
Proof.
  intros m exposed recovery.
  destruct (registerWallet_ok _ _ _ _ _ Hreg)
    as (rawSalt & [pk addr] & Hids & Hs & Hd & Ha & Hp).
  cbn [privateKey address] in Ha, Hp.
  assert (Hnorm : normalizeSalt (resSalt reg) = resSalt reg)
    by (rewrite Hs; now apply normalizeSalt_idempotent).
  pose proof (deriveWalletKey_ok _ _ Hd) as (HK0 & _ & Haddr).
  cbn [commitments threshold privateKey address] in HK0, Haddr.
  assert (Hparse : extractClaims presented
                   = (repeat EvExtract (length presented), Ok (extractedClaims presented))).
  { apply extractClaims_all_ok. rewrite Forall_forall in *. auto. }
  pose proof (countMatchingClaims_le (resCommitments reg) (resSalt reg)
                                     (extractedClaims presented)) as Hle.
  fold m in Hle, Hreached.
  assert (Hlen : length (extractedClaims presented) = length presented)
    by (apply extractClaims_length; now rewrite Hparse).
  assert (HK : (K <= Z.of_nat (length (map toTypedCommitment (resCommitments reg))))%Z)
    by (rewrite length_map; lia).
  assert (Hd' : deriveWalletKey (mkParams (map toTypedCommitment (resCommitments reg))
                                          K (normalizeSalt (resSalt reg)))
                = Ok (mkDerived pk addr)).
  { rewrite Hnorm, <- Hd. now apply deriveWalletKey_threshold_independent. }
  destruct (recoverWallet_extracted
              st' (mkRecoverParams presented (resCommitments reg) (resSalt reg) K expose)
              cfg _ _ Hinit Hparse) as (t2 & _ & E).
  cbn [recCommitments recSalt recThreshold recExposePrivateKey] in E.
  rewrite Hd' in E. rewrite Hnorm in E. cbn [privateKey address] in E.
  fold m exposed recovery in E.
  replace (Z.of_nat m >=? K)%Z with true in E
    by (symmetry; rewrite Z.geb_leb; apply Z.leb_le; exact Hreached).
  exists pk, addr.
  split; [ exact Hd | ]. split; [ exact Ha | ]. split; [ exact Hp | ].
  split; [ exact Hd' | ].
  split; [ | split ].
  - rewrite E.
    destruct (createWalletFromPrivateKey pk) as [w | e];
      [ destruct (streq _ _) | ];
      cbn [trace fst]; rewrite !in_app_iff; right; right; now left.
  - intros r Hr. rewrite E in Hr.
    destruct (createWalletFromPrivateKey pk) as [w | e]; [ | discriminate ].
    destruct (streq _ _) eqn:Eaddr; [ | discriminate ].
    cbn [outcome snd] in Hr. injection Hr as <-.
    cbn [success matchedCount recoveredPrivateKey wallet].
    repeat (split; [ reflexivity | ]).
    exists w. split; [ reflexivity | ]. split; [ reflexivity | ].
    now apply streq_true.
  - intros Hwallet. rewrite E, (Hwallet pk addr Haddr).
    cbn [walletAddress]. now rewrite streq_refl.
Qed.

Lemma recovery_returns_registered_key_witness :
  exists (reg : RegisterWalletResult) (pk addr : jsstring),
    outcome Sample.registration = Ok reg
    /\ resAddress reg = addr
    /\ resPrivateKey reg = Some pk
    /\ pk = js "7afd3e12607c4de81c44db1b3e2dd3df275c07335e9e626310c39cec54c1debe"
    /\ outcome (Sample.recover
                  Sample.ready
                  (Sample.recoverParams [Sample.google; Sample.github]
                                        (resCommitments reg) (resSalt reg)
                                        2 (Some true)))
       = Ok (mkRecoverResult (Some (mkWallet addr)) 2 true (Some pk)).
Proof.
  eassert (Hreg : registerWallet
                    (P := Sample.platform) (C := Sample.collaborators)
                    Sample.ready (js "unused")
                    (mkRegisterParams
                       (C := Sample.collaborators)
                       [Sample.google; Sample.github; Sample.passkey] 2
                       (Some (js "test-salt-123")) (Some true))
                  = (_, Ok _)) by (vm_compute; reflexivity).
  assert (Hsubset : incl [Sample.google; Sample.github]
                         [Sample.google; Sample.github; Sample.passkey])
    by (intros i [<- | [<- | []]]; simpl; auto).
  match type of Hreg with
  | _ = (?tr, Ok ?reg) =>
      destruct (recovery_returns_registered_key
                  Sample.platform Sample.collaborators
                  sample_sha256_length sample_toLowerCase_ascii
                  Sample.ready (js "unused") _ tr reg Hreg
                  Sample.ready (mkConfig (Some (js "v1"))) eq_refl
                  [Sample.google; Sample.github] 2%Z (Some true) Hsubset
                  ltac:(cbn; lia) ltac:(vm_compute; discriminate))
        as (pk & addr & _ & Ha & Hp & _ & _ & _ & Hrec);
      exists reg, pk, addr
  end.
  split; [ vm_compute; reflexivity | ]. split; [ exact Ha | ]. split; [ exact Hp | ].
  split.
  - cbn in Hp. now injection Hp as <-.
  - unfold Sample.recover, Sample.recoverParams.
    rewrite (Hrec sample_wallet_recomputes_address).
    vm_compute. reflexivity.
Defined.

Section Replay.
Context {P : Platform} {C : Collaborators}.

Lemma extractClaims_repeat (identity : SupportedIdentity) (claim : IdentityClaim)
      (n : nat) :
  extractIdentityClaim identity = Ok claim ->
  extractClaims (repeat identity n) = (repeat EvExtract n, Ok (repeat claim n)).
Proof.
  intros H. induction n as [ | n IH]; [ reflexivity | ].
  cbn [repeat]. rewrite extractClaims_cons, H, IH. reflexivity.
Qed.

Lemma countMatchingClaims_repeat (stored : list Commitment) (saltHex : jsstring)
      (claim : IdentityClaim) (n : nat) :
  claimMatches stored saltHex claim = true ->
  countMatchingClaims stored saltHex (repeat claim n) = n.
Proof.
  intros H. unfold countMatchingClaims.
  induction n as [ | n IH]; [ reflexivity | ].
  cbn [repeat filter]. rewrite H. cbn [length]. now rewrite IH.
Qed.

(** Presenting a claim again does not add to the stored commitments that
    validate against the presented claims. *)
Lemma countMatchedStored_repeat (stored : list Commitment) (saltHex : jsstring)
      (claim : IdentityClaim) (n : nat) :
  (1 <= n)%nat ->
  countMatchedStored (repeat claim n) saltHex stored
  = countMatchedStored [claim] saltHex stored.
Proof.
  intros Hn. unfold countMatchedStored. f_equal. apply filter_ext. intros s.
  unfold storedIsMatched. destruct n as [ | n]; [ lia | ]. clear Hn.
  induction n as [ | n IH]; [ reflexivity | ].
  cbn [repeat existsb] in *. rewrite IH.
  destruct (validateCommitment claim saltHex (commitmentHex s)); reflexivity.
Qed.

(** The loop over one claim presented [n] times: [find] returns the same
    stored commitment at every turn, and it is pushed and counted every
    time. *)
Lemma matchClaims_repeat (claim : IdentityClaim) (stored : list Commitment)
      (saltHex : jsstring) (m : Commitment) (n : nat) :
  find (fun s => validateCommitment claim saltHex (commitmentHex s)) stored = Some m ->
  forall (matched : list Commitment) (count : nat),
  exists t : list Event,
    matchClaims (repeat claim n) stored saltHex matched count
    = (t, Ok (matched ++ repeat m n, (count + n)%nat)).
Proof.
  intros Hfind. induction n as [ | n IH]; intros matched count.
  - exists []. cbn. now rewrite app_nil_r, Nat.add_0_r.
  - cbn [repeat matchClaims]. unfold mbind.
    destruct (findMatching_find claim saltHex stored) as [Hf _].
    destruct (findMatching claim saltHex stored) as [t0 r0]. cbn in Hf. subst r0.
    rewrite Hfind.
    destruct (IH (matched ++ [m]) (S count)) as (t & E). rewrite E.
    exists (t0 ++ t). rewrite <- app_assoc. cbn [app].
    now rewrite Nat.add_succ_r.
Qed.

End Replay.

(** C2.  The code does not keep the rule that a stored commitment counts at
    most once: it counts presented claims, not stored commitments.  For
    every claim the loop searches the whole stored list again, nothing marks
    a commitment as used, and [matchedCommitments] is written and never
    read.  So when one proof that parses, and that some stored commitment
    validates, is presented [n] times, the loop finds the same stored
    commitment [n] times and ends with [matchedCount = n], while the stored
    commitments that validate against the presented claims are those that
    validate against the one claim.  With [n] at least the threshold,
    [recoverWallet] goes on to derive the key from all stored commitments;
    every value it returns reports [success] with [matchedCount = n], and
    where the wallet made from the derived key carries the derived address
    it returns that wallet: a recovery from a single identity, whatever the
    threshold, where the header of [keyDerivation.ts] has "Recovery requires
    K-of-N identities". *)
Theorem replayed_proof_counts_every_time
        (P : Platform) (C : Collaborators)
        (st : KeyWeaverState) (cfg : KeyWeaverConfig)
        (identity : SupportedIdentity) (claim : IdentityClaim)
        (stored : list Commitment) (saltText : jsstring) (K : Z)
        (expose : option bool) (n : nat)
        (Hinit : getKeyWeaverConfig st = Ok cfg)
        (Hparse : extractIdentityClaim identity = Ok claim)
        (Hvalid : claimMatches stored (normalizeSalt saltText) claim = true)
        (Hn : (1 <= n)%nat)
        (HK : (K <= Z.of_nat n)%Z) :
  let saltHex := normalizeSalt saltText in
  let params := mkRecoverParams (repeat identity n) stored saltText K expose in
  (exists (m : Commitment) (t : list Event),
      In m stored
      /\ matchClaims (repeat claim n) stored saltHex [] 0 = (t, Ok (repeat m n, n)))
  /\ countMatchedStored (repeat claim n) saltHex stored
     = countMatchedStored [claim] saltHex stored
  /\ In EvDerive (trace (recoverWallet st params))
  /\ (forall (tr : list Event) (r : RecoverWalletResult),
         recoverWallet st params = (tr, Ok r) ->
         matchedCount r = n /\ success r = true)
  /\ (forall (derived : DerivedKeyResult) (w : Wallet),
         deriveWalletKey (mkParams (map toTypedCommitment stored) K saltHex)
         = Ok derived ->
         createWalletFromPrivateKey (privateKey derived) = Ok w ->
         toLowerCase (walletAddress w) = toLowerCase (address derived) ->
         outcome (recoverWallet st params)
         = Ok (mkRecoverResult
                 (Some w) n true
                 (if match expose with Some b => b | None => false end
                  then Some (privateKey derived) else None))).
Proof.
  intros saltHex params.
  assert (Hex : extractClaims (recIdentities params)
                = (repeat EvExtract n, Ok (repeat claim n)))
    by (apply extractClaims_repeat; exact Hparse).
  destruct (recoverWallet_extracted _ _ _ _ _ Hinit Hex) as (t2 & _ & E).
  unfold params in E.
  cbn [recCommitments recSalt recThreshold recExposePrivateKey] in E.
  rewrite (countMatchingClaims_repeat _ _ _ n Hvalid) in E.
  fold saltHex params in E.
  replace (Z.of_nat n >=? K)%Z with true in E
    by (symmetry; rewrite Z.geb_leb; apply Z.leb_le; exact HK).
  split; [ | split; [ | split; [ | split ] ] ].
  - unfold claimMatches in Hvalid. rewrite find_existsb in Hvalid.
    destruct (find _ stored) as [m | ] eqn:Hfind; [ | discriminate ].
    destruct (matchClaims_repeat claim stored saltHex m n Hfind [] 0) as (t & Et).
    exists m, t. split; [ apply (find_some _ _ Hfind) | exact Et ].
  - apply countMatchedStored_repeat. exact Hn.
  - rewrite E.
    destruct (deriveWalletKey _) as [derived | e].
    + destruct (createWalletFromPrivateKey _) as [w | e];
        [ destruct (streq _ _) | ];
        cbn [trace fst]; rewrite !in_app_iff; right; right; now left.
    + cbn [trace fst]. rewrite !in_app_iff. right. right. now left.
  - intros tr r Hrun. rewrite E in Hrun.
    destruct (deriveWalletKey _) as [derived | e]; [ | discriminate ].
    destruct (createWalletFromPrivateKey _) as [w | e]; [ | discriminate ].
    destruct (streq _ _); [ | discriminate ].
    injection Hrun as _ <-. split; reflexivity.
  - intros derived w Hd Hw Ha. rewrite E, Hd, Hw, Ha, streq_refl. reflexivity.
Qed.

Lemma replayed_proof_counts_every_time_witness :
  exists (claim : IdentityClaim) (r : RecoverWalletResult)
         (w : Wallet) (reg : RegisterWalletResult),
    Sample.extractClaim Sample.google = Ok claim
    /\ outcome Sample.registration = Ok reg
    /\ length Sample.stored = 3%nat
    /\ countMatchedStored (C := Sample.collaborators)
                          [claim; claim] Sample.storedSalt Sample.stored = 1%nat
    /\ outcome (Sample.recover
                  Sample.ready
                  (Sample.recoverParams [Sample.google; Sample.google]
                                        Sample.stored Sample.storedSalt 2 None))
       = Ok r
    /\ matchedCount r = 2%nat
    /\ success r = true
    /\ wallet r = Some w
    /\ walletAddress w = resAddress reg.
Proof.
  eassert (Hparse : extractIdentityClaim (Collaborators := Sample.collaborators)
                                         Sample.google = Ok _)
    by (vm_compute; reflexivity).
  eassert (Hrun : recoverWallet
                    (P := Sample.platform) (C := Sample.collaborators)
                    Sample.ready
                    (mkRecoverParams
                       (C := Sample.collaborators)
                       (repeat Sample.google 2)
                       Sample.stored Sample.storedSalt 2 None)
                  = (_, Ok _)) by (vm_compute; reflexivity).
  match type of Hparse with
  | _ = Ok ?claim =>
      destruct (replayed_proof_counts_every_time
                  Sample.platform Sample.collaborators
                  Sample.ready (mkConfig (Some (js "v1")))
                  Sample.google claim Sample.stored Sample.storedSalt 2 None 2
                  eq_refl Hparse ltac:(vm_compute; reflexivity)
                  ltac:(lia) ltac:(lia))
        as (_ & _ & _ & Hret & _);
      exists claim
  end.
  match type of Hrun with
  | _ = (?tr, Ok ?r) => destruct (Hret tr r Hrun) as [Hcount Hsuccess]; exists r
  end.
  eexists. eexists.
  split; [ exact Hparse | ].
  split; [ vm_compute; reflexivity | ].
  split; [ vm_compute; reflexivity | ].
  split; [ vm_compute; reflexivity | ].
  split; [ vm_compute; reflexivity | ].
  split; [ exact Hcount | ]. split; [ exact Hsuccess | ].
  split; vm_compute; reflexivity.
Defined.

Lemma recoverWallet_threshold_policy_witness :
  exists tr : list Event,
    Sample.recover Sample.ready
                   (Sample.recoverParams [Sample.google]
                                         Sample.stored Sample.storedSalt 2 None)
    = (tr, Ok (mkRecoverResult None 1 false None))
    /\ Forall (fun ev => ev = EvExtract \/ ev = EvValidate) tr.
Proof.
  eassert (Hparse : extractClaims (C := Sample.collaborators) [Sample.google]
                    = (_, Ok _)) by (vm_compute; reflexivity).
  destruct (recoverWallet_threshold_policy
              Sample.platform Sample.collaborators Sample.ready
              (Sample.recoverParams [Sample.google]
                                    Sample.stored Sample.storedSalt 2 None))
    as [_ Hbelow].
  destruct (Hbelow (mkConfig (Some (js "v1"))) _ _ eq_refl Hparse
                   ltac:(vm_compute; reflexivity)) as (tr & Hrun & Htr).
  exists tr. split; [ | exact Htr ].
  unfold Sample.recover, Sample.recoverParams in *. rewrite Hrun.
  vm_compute. reflexivity.
Defined.

(* ================================================================== *)
(** * Further properties of the code *)

(** ** [deriveWalletKey] and [validateThreshold] *)

Lemma sample_hkdf32 : Hkdf32 Sample.platform.
Proof. intros ikm saltBytes info. reflexivity. Qed.

Lemma sample_keccak256_length : Keccak256Length Sample.platform.
Proof. intros m. reflexivity. Qed.

(** X1.  [deriveWalletKey] fails in three ways only, checked in this order.
    With fewer commitments than the threshold [K], an integer, it throws the
    error "Insufficient commitments: need at least K, have N", whatever the
    salt, the two numbers printed as a template literal prints them (a
    threshold of [10 ^ 21] reads "1e+21"); for an integer threshold this is
    the case in which [validateThreshold] is false.  Otherwise, where
    [isValidSalt] rejects the salt, it throws "Invalid salt format: expected
    64-char hex string, got L chars".  Otherwise, given that HKDF yields the
    32 bytes asked for, parsing the salt and reading the scalar cannot fail:
    there is a private key of 64 lowercase hexadecimal digits such that the
    call fails exactly when the curve library rejects that key, with the
    library's error, and else returns that key and the address made of the
    last 20 bytes of the Keccak-256 hash of the public key without its first
    byte. *)
Theorem deriveWalletKey_failure_modes
        (P : Platform) (Hhkdf : Hkdf32 P)
        (cs : list TypedCommitment) (K : Z) (saltText : jsstring) :
  let N := Z.of_nat (length cs) in
  ((N < K)%Z <-> validateThreshold cs K = false)
  /\ ((N < K)%Z ->
      deriveWalletKey (mkParams cs K saltText)
      = Err (PlainError
               (js "Insufficient commitments: need at least " ++ numberToString K
                   ++ js ", have " ++ numberToString N)))
  /\ ((K <= N)%Z -> isValidSalt saltText = false ->
      deriveWalletKey (mkParams cs K saltText)
      = Err (PlainError
               (js "Invalid salt format: expected 64-char hex string, got "
                   ++ numberToString (Z.of_nat (length saltText))
                   ++ js " chars")))
  /\ ((K <= N)%Z -> isValidSalt saltText = true ->
      exists pk : jsstring,
        length pk = 64%nat
        /\ forallb isLowerHexChar pk = true
        /\ deriveWalletKey (mkParams cs K saltText)
           = match getPublicKey pk false with
             | Ok publicKeyPoint =>
                 Ok (mkDerived
                       pk (js "0x" ++ bytesToHex
                                        (sliceLast 20 (keccak_256
                                                         (sliceFrom1 publicKeyPoint)))))
             | Err e => Err e
             end).
Proof.
  intros N. unfold validateThreshold, isValidSalt.
  split; [ | split; [ | split ] ].
  - fold N. rewrite Z.geb_leb, Z.leb_gt. reflexivity.
  - intros H.
    unfold deriveWalletKey. cbn [commitments threshold salt].
    apply Z.ltb_lt in H. fold N. rewrite H. reflexivity.
  - intros H Hs.
    unfold deriveWalletKey. cbn [commitments threshold salt].
    replace (Z.of_nat (length cs) <? K)%Z with false
      by (symmetry; apply Z.ltb_ge; exact H).
    rewrite Hs. reflexivity.
  - intros H Hs.
    rewrite (deriveWalletKey_sufficient _ _ _ H Hs). unfold deriveFromSeed.
    destruct (hexToBytes_salt _ Hs) as (saltBytes & Eb & _). rewrite Eb.
    cbn [rbind].
    set (km := keyMaterial _ saltBytes).
    assert (Hkm : length km = 32%nat) by apply Hhkdf.
    rewrite BigIntHex_bytesToHex by (intros E; rewrite E in Hkm; discriminate).
    cbn [rbind].
    pose proof (bigEndian_bounds km) as Hb.
    pose proof (clampScalar_range (bigEndian km) ltac:(lia)) as Hc.
    pose proof CURVE_ORDER_bounds as Hn.
    exists (scalarToHex (clampScalar (bigEndian km))).
    split; [ apply scalarToHex_length; lia | ].
    split; [ apply scalarToHex_lower | ].
    unfold addressOfPrivateKey, rbind.
    destruct (getPublicKey _ false); reflexivity.
Qed.

Lemma deriveWalletKey_failure_modes_witness :
  Hkdf32 Sample.platform
  /\ deriveWalletKey (P := Sample.platform)
       (mkParams [mkTyped (js "google") (js "abc123")] 2 (js "not hex"))
     = Err (PlainError (js "Insufficient commitments: need at least 2, have 1"))
  /\ deriveWalletKey (P := Sample.platform)
       (mkParams [mkTyped (js "google") (js "abc123")] (10 ^ 21) (js "not hex"))
     = Err (PlainError (js "Insufficient commitments: need at least 1e+21, have 1"))
  /\ deriveWalletKey (P := Sample.platform)
       (mkParams [mkTyped (js "google") (js "abc123")] 1 (js "not hex"))
     = Err (PlainError
              (js "Invalid salt format: expected 64-char hex string, got 7 chars")).
Proof.
  split; [ exact sample_hkdf32 | ].
  destruct (deriveWalletKey_failure_modes
              Sample.platform sample_hkdf32
              [mkTyped (js "google") (js "abc123")] 2 (js "not hex"))
    as (_ & H2 & _).
  destruct (deriveWalletKey_failure_modes
              Sample.platform sample_hkdf32
              [mkTyped (js "google") (js "abc123")] (10 ^ 21) (js "not hex"))
    as (_ & H21 & _).
  destruct (deriveWalletKey_failure_modes
              Sample.platform sample_hkdf32
              [mkTyped (js "google") (js "abc123")] 1 (js "not hex"))
    as (_ & _ & H1 & _).
  split; [ rewrite H2 by reflexivity; vm_compute; reflexivity | ].
  split; [ rewrite H21 by reflexivity; vm_compute; reflexivity | ].
  rewrite H1 by (reflexivity || (vm_compute; discriminate)).
  vm_compute. reflexivity.
Defined.

Lemma asciiLower_0x_hex (digits : jsstring) :
  forallb isLowerHexChar digits = true ->
  map asciiLower (js "0x" ++ digits) = js "0x" ++ digits.
Proof.
  intros H. rewrite map_app, (map_asciiLower_lower _ H). reflexivity.
Qed.

Lemma addressOfPrivateKey_format {P : Platform} (pk addr : jsstring) :
  Keccak256Length P -> addressOfPrivateKey pk = Ok addr ->
  exists digits : jsstring,
    addr = js "0x" ++ digits
    /\ length digits = 40%nat
    /\ forallb isLowerHexChar digits = true.
Proof.
  intros Hk H. unfold addressOfPrivateKey, rbind in H.
  destruct (getPublicKey pk false) as [point | e]; [ | discriminate ].
  injection H as <-. eexists. split; [ reflexivity | ].
  split; [ | apply bytesToHex_lower ].
  rewrite bytesToHex_length. unfold sliceLast.
  rewrite length_skipn, Hk. reflexivity.
Qed.

(** X2.  Given that Keccak-256 yields 32 bytes, every address that
    [deriveWalletKey] returns, and so every address in a result of
    [registerWallet], is "0x" followed by 40 lowercase hexadecimal digits:
    42 characters, which lower-casing leaves as they are. *)
Theorem derived_address_format
        (P : Platform) (Hkeccak : Keccak256Length P) :
  (forall (params : KeyDerivationParams) (r : DerivedKeyResult),
      deriveWalletKey params = Ok r ->
      exists digits : jsstring,
        address r = js "0x" ++ digits
        /\ length digits = 40%nat
        /\ forallb isLowerHexChar digits = true
        /\ length (address r) = 42%nat
        /\ map asciiLower (address r) = address r)
  /\ (forall (C : Collaborators) (st : KeyWeaverState) (rnd : jsstring)
             (params : RegisterWalletParams) (tr : list Event)
             (reg : RegisterWalletResult),
         registerWallet st rnd params = (tr, Ok reg) ->
         length (resAddress reg) = 42%nat
         /\ firstn 2 (resAddress reg) = js "0x"
         /\ forallb isLowerHexChar (skipn 2 (resAddress reg)) = true).
Proof.
  assert (Hformat : forall params r,
             deriveWalletKey params = Ok r ->
             exists digits : jsstring,
               address r = js "0x" ++ digits
               /\ length digits = 40%nat
               /\ forallb isLowerHexChar digits = true).
  { intros params r H. destruct (deriveWalletKey_ok _ _ H) as (_ & _ & Ha).
    now apply (addressOfPrivateKey_format (privateKey r)). }
  split.
  - intros params r H. destruct (Hformat _ _ H) as (digits & E & Hl & Hd).
    exists digits. split; [ exact E | ]. split; [ exact Hl | ].
    split; [ exact Hd | ]. rewrite E. split.
    + rewrite length_app, Hl. reflexivity.
    + now apply asciiLower_0x_hex.
  - intros C st rnd params tr reg H.
    destruct (registerWallet_ok _ _ _ _ _ H) as (_ & derived & _ & _ & Hd & Ha & _).
    destruct (Hformat _ _ Hd) as (digits & E & Hl & Hx).
    rewrite Ha, E. split; [ rewrite length_app, Hl; reflexivity | ].
    split; [ reflexivity | exact Hx ].
Qed.

Lemma derived_address_format_witness :
  Keccak256Length Sample.platform
  /\ exists reg : RegisterWalletResult,
      outcome Sample.registration = Ok reg
      /\ length (resAddress reg) = 42%nat
      /\ firstn 2 (resAddress reg) = js "0x".
Proof.
  split; [ exact sample_keccak256_length | ].
  eassert (Hreg : registerWallet
                    (P := Sample.platform) (C := Sample.collaborators)
                    Sample.ready (js "unused")
                    (mkRegisterParams
                       (C := Sample.collaborators)
                       [Sample.google; Sample.github; Sample.passkey] 2
                       (Some (js "test-salt-123")) (Some true))
                  = (_, Ok _)) by (vm_compute; reflexivity).
  match type of Hreg with
  | _ = (?tr, Ok ?reg) =>
      exists reg;
      destruct (proj2 (derived_address_format Sample.platform sample_keccak256_length)
                      Sample.collaborators _ _ _ tr reg Hreg) as (Hl & Hp & _)
  end.
  split; [ vm_compute; reflexivity | ]. split; [ exact Hl | exact Hp ].
Defined.

(** ** The canonical string *)

(** X3.  The canonical string neither escapes nor length-prefixes its
    fields.  Take two records, the first of which the comparator does not
    put after the second: their list has the same canonical string as the
    one record whose commitment text is the first commitment, '|', the
    normalised second provider, ':' and the second commitment.  With a
    threshold of at most 1 [deriveWalletKey] therefore behaves alike on the
    two lists, whatever the salt. *)
Theorem canonicalize_separators_not_escaped
        (P : Platform) (p q c d : jsstring)
        (Hord : compareCommitments (normalizeProvider (mkTyped p c))
                                   (normalizeProvider (mkTyped q d)) <> Gt) :
  let merged := mkTyped p (c ++ js "|" ++ trim (toLowerCase q) ++ js ":" ++ d) in
  canonicalizeCommitments [mkTyped p c; mkTyped q d]
  = canonicalizeCommitments [merged]
  /\ canonicalizeCommitments [merged]
     = trim (toLowerCase p) ++ js ":" ++ c ++ js "|"
         ++ trim (toLowerCase q) ++ js ":" ++ d
  /\ forall (K : Z) (saltText : jsstring),
      (K <= 1)%Z ->
      deriveWalletKey (mkParams [mkTyped p c; mkTyped q d] K saltText)
      = deriveWalletKey (mkParams [merged] K saltText).
Proof.
  intros merged.
  assert (E2 : canonicalizeCommitments [merged]
               = trim (toLowerCase p) ++ js ":" ++ c ++ js "|"
                   ++ trim (toLowerCase q) ++ js ":" ++ d) by reflexivity.
  assert (E1 : canonicalizeCommitments [mkTyped p c; mkTyped q d]
               = canonicalizeCommitments [merged]).
  { rewrite E2. unfold canonicalizeCommitments.
    cbn [map sortWith fold_right insertSorted].
    destruct (compareCommitments _ _); [ | | congruence ];
      unfold normalizeProvider, serializeCommitment;
      cbn [map join provider commitment]; now rewrite <- !app_assoc. }
  split; [ exact E1 | ]. split; [ exact E2 | ].
  intros K saltText HK. unfold deriveWalletKey. cbn [commitments threshold salt].
  rewrite E1.
  replace (Z.of_nat (length [mkTyped p c; mkTyped q d]) <? K)%Z with false
    by (symmetry; apply Z.ltb_ge; cbn; lia).
  replace (Z.of_nat (length [merged]) <? K)%Z with false
    by (symmetry; apply Z.ltb_ge; cbn; lia).
  reflexivity.
Qed.

Lemma canonicalize_separators_not_escaped_witness :
  compareCommitments (P := Sample.platform)
    (normalizeProvider (P := Sample.platform) (mkTyped (js "github") (js "def456")))
    (normalizeProvider (P := Sample.platform) (mkTyped (js "google") (js "abc123")))
  <> Gt
  /\ canonicalizeCommitments (P := Sample.platform)
       [mkTyped (js "github") (js "def456"); mkTyped (js "google") (js "abc123")]
     = js "github:def456|google:abc123"
  /\ canonicalizeCommitments (P := Sample.platform)
       [mkTyped (js "github") (js "def456|google:abc123")]
     = js "github:def456|google:abc123".
Proof.
  assert (Hord : compareCommitments (P := Sample.platform)
                   (normalizeProvider (P := Sample.platform)
                                      (mkTyped (js "github") (js "def456")))
                   (normalizeProvider (P := Sample.platform)
                                      (mkTyped (js "google") (js "abc123")))
                 <> Gt) by (vm_compute; discriminate).
  split; [ exact Hord | ].
  destruct (canonicalize_separators_not_escaped
              Sample.platform (js "github") (js "google") (js "def456") (js "abc123")
              Hord) as (E1 & E2 & _).
  split; [ rewrite E1 | ]; vm_compute; reflexivity.
Defined.

Lemma normalizeProvider_case {P : Platform} (a b : TypedCommitment) :
  ToLowerCaseAscii P ->
  commitment a = commitment b ->
  forallb isAscii (provider a) = true -> forallb isAscii (provider b) = true ->
  map asciiLower (provider a) = map asciiLower (provider b) ->
  normalizeProvider a = normalizeProvider b.
Proof.
  intros Hlower Hc Ha Hb Hp. unfold normalizeProvider.
  now rewrite (Hlower _ Ha), (Hlower _ Hb), Hp, Hc.
Qed.

(** X4.  Provider names count up to the case of their ASCII letters.  Given
    that [toLowerCase] lower-cases ASCII: two lists that agree position by
    position on the commitment text and, up to letter case, on an ASCII
    provider name have the same canonical string, and [deriveWalletKey]
    behaves alike on them for every threshold and salt. *)
Theorem provider_names_case_insensitive
        (P : Platform) (Hlower : ToLowerCaseAscii P)
        (cs cs' : list TypedCommitment)
        (Hsame : Forall2 (fun a b =>
                            commitment a = commitment b
                            /\ forallb isAscii (provider a) = true
                            /\ forallb isAscii (provider b) = true
                            /\ map asciiLower (provider a)
                               = map asciiLower (provider b)) cs cs') :
  canonicalizeCommitments cs = canonicalizeCommitments cs'
  /\ forall (K : Z) (saltText : jsstring),
      deriveWalletKey (mkParams cs K saltText)
      = deriveWalletKey (mkParams cs' K saltText).
Proof.
  assert (Hmap : map normalizeProvider cs = map normalizeProvider cs').
  { induction Hsame as [ | a b cs cs' (Hc & Ha & Hb & Hp) _ IH]; [ reflexivity | ].
    cbn [map]. now rewrite IH, (normalizeProvider_case a b). }
  assert (Hcanon : canonicalizeCommitments cs = canonicalizeCommitments cs')
    by (unfold canonicalizeCommitments; now rewrite Hmap).
  split; [ exact Hcanon | ].
  intros K saltText. unfold deriveWalletKey. cbn [commitments threshold salt].
  now rewrite Hcanon, (Forall2_length Hsame).
Qed.

Lemma provider_names_case_insensitive_witness :
  ToLowerCaseAscii Sample.platform
  /\ canonicalizeCommitments (P := Sample.platform)
       [mkTyped (js "Google") (js "abc123"); mkTyped (js "github") (js "def456")]
     = canonicalizeCommitments (P := Sample.platform)
         [mkTyped (js "google") (js "abc123"); mkTyped (js "GitHub") (js "def456")].
Proof.
  split; [ exact sample_toLowerCase_ascii | ].
  apply (provider_names_case_insensitive Sample.platform sample_toLowerCase_ascii).
  repeat constructor.
Defined.

(** ** The canonical order and the seed string *)

(** X5.  The canonical string serialises a sorted rearrangement of the
    normalised records.  Given that [localeCompare] is a consistent
    comparator: the records serialised are the normalised input records,
    each as many times as it occurs (nothing is dropped or merged), in an
    order in which no record is followed, at any distance, by one the
    comparator puts before it; and a list whose normalised records are
    already in such an order is serialised in the order given. *)
Theorem canonical_order
        (P : Platform) (Hcmp : ConsistentComparator P)
        (cs : list TypedCommitment) :
  exists sorted : list TypedCommitment,
    canonicalizeCommitments cs = join (js "|") (map serializeCommitment sorted)
    /\ Permutation sorted (map normalizeProvider cs)
    /\ length sorted = length cs
    /\ StronglySorted commitmentLe sorted
    /\ (StronglySorted commitmentLe (map normalizeProvider cs) ->
        sorted = map normalizeProvider cs).
Proof.
  exists (sortWith compareCommitments (map normalizeProvider cs)).
  split; [ reflexivity | ].
  split; [ apply sortWith_perm | ].
  split; [ rewrite (Permutation_length (sortWith_perm _ _)); apply length_map | ].
  split; [ now apply sortWith_sorted | ].
  intros Hsorted. now apply sortWith_sorted_input.
Qed.

Lemma canonical_order_witness :
  ConsistentComparator Sample.platform
  /\ exists sorted : list TypedCommitment,
      canonicalizeCommitments (P := Sample.platform)
        [mkTyped (js "passkey") (js "ghi789"); mkTyped (js " Google") (js "abc123");
         mkTyped (js "google") (js "abc123")]
      = join (js "|") (map serializeCommitment sorted)
      /\ length sorted = 3%nat
      /\ StronglySorted (commitmentLe (P := Sample.platform)) sorted.
Proof.
  split; [ exact sample_consistent_comparator | ].
  destruct (canonical_order
              Sample.platform sample_consistent_comparator
              [mkTyped (js "passkey") (js "ghi789"); mkTyped (js " Google") (js "abc123");
               mkTyped (js "google") (js "abc123")])
    as (sorted & E & _ & Hl & Hs & _).
  exists sorted. split; [ exact E | ]. split; [ exact Hl | exact Hs ].
Defined.

Lemma isValidHexSalt_length (s : jsstring) :
  isValidHexSalt s = true -> length s = 64%nat.
Proof.
  unfold isValidHexSalt. intros H. apply andb_true_iff in H.
  destruct H as [H _]. now apply Nat.eqb_eq.
Qed.

Lemma app_inv_same_length {A} (a a' b b' : list A) :
  length b = length b' -> a ++ b = a' ++ b' -> a = a' /\ b = b'.
Proof.
  intros Hl E.
  assert (Hla : length a = length a').
  { apply (f_equal (@length A)) in E. rewrite !length_app in E. lia. }
  revert a' Hla E. induction a as [ | x a IH]; intros [ | x' a'] Hla E;
    try discriminate.
  - now split.
  - cbn in E. injection E as -> E. cbn in Hla.
    destruct (IH a' ltac:(lia) E) as [-> ->]. now split.
Qed.

(** X6.  The seed string keeps its two variable parts apart.  When
    [isValidSalt] accepts both salts, as [deriveWalletKey] makes sure before
    it builds the string, two seed strings are equal only if the canonical
    commitment strings are equal and the salts are equal: the salt is the
    last 64 characters and the canonical string is what stands between the
    prefix and the last separator. *)
Theorem seedInput_injective
        (canonical canonical' saltHex saltHex' : jsstring)
        (Hsalt : isValidSalt saltHex = true)
        (Hsalt' : isValidSalt saltHex' = true)
        (Hseed : seedInput canonical saltHex = seedInput canonical' saltHex') :
  canonical = canonical' /\ saltHex = saltHex'
  /\ sliceLast 64 (seedInput canonical saltHex) = saltHex
  /\ seedInput canonical saltHex
     = js "key-weaver:v1|" ++ canonical ++ js "|" ++ saltHex.
Proof.
  unfold isValidSalt in *.
  pose proof (isValidHexSalt_length _ Hsalt) as Hl.
  pose proof (isValidHexSalt_length _ Hsalt') as Hl'.
  unfold seedInput in Hseed. apply app_inv_head in Hseed.
  rewrite !app_assoc in Hseed.
  apply app_inv_same_length in Hseed; [ | congruence ].
  destruct Hseed as [Hc Hs].
  apply app_inv_tail in Hc.
  split; [ exact Hc | ]. split; [ exact Hs | ]. split; [ | reflexivity ].
  unfold sliceLast, seedInput. rewrite !app_assoc.
  rewrite length_app, Hl, Nat.add_sub.
  rewrite skipn_app, skipn_all, Nat.sub_diag. reflexivity.
Qed.

Lemma seedInput_injective_witness :
  let saltHex :=
    js "0123456789abcdef0123456789abcdef0123456789abcdef0123456789abcdef" in
  isValidSalt saltHex = true
  /\ sliceLast 64 (seedInput (js "github:def456|google:abc123") saltHex) = saltHex.
Proof.
  intros saltHex. split; [ reflexivity | ].
  apply (seedInput_injective (js "github:def456|google:abc123")
                             (js "github:def456|google:abc123") saltHex saltHex
                             eq_refl eq_refl eq_refl).
Defined.

(** ** Reading the canonical string back *)

(** A run of characters without the separator, followed by nothing or by
    the separator, ends where it ends. *)
Lemma split_at_separator (sep : N) (a : jsstring) :
  forall b r r' : jsstring,
    forallb (fun u => negb (u =? sep)%N) a = true ->
    forallb (fun u => negb (u =? sep)%N) b = true ->
    (r = [] \/ exists t, r = sep :: t) -> (r' = [] \/ exists t, r' = sep :: t) ->
    a ++ r = b ++ r' -> a = b /\ r = r'.
Proof.
  induction a as [ | x a IH]; intros b r r' Ha Hb Hr Hr' E.
  - destruct b as [ | y b]; [ now split | ].
    cbn [forallb] in Hb. apply andb_true_iff in Hb. destruct Hb as [Hy _].
    cbn in E. destruct Hr as [-> | [t ->]]; [ discriminate | ].
    injection E as <- _. now rewrite N.eqb_refl in Hy.
  - cbn [forallb] in Ha. apply andb_true_iff in Ha. destruct Ha as [Hx Ha].
    destruct b as [ | y b].
    + cbn in E. destruct Hr' as [-> | [t ->]]; [ discriminate | ].
      injection E as -> _. now rewrite N.eqb_refl in Hx.
    + cbn [forallb] in Hb. apply andb_true_iff in Hb. destruct Hb as [_ Hb].
      cbn in E. injection E as -> E.
      destruct (IH b r r' Ha Hb Hr Hr' E) as [-> ->]. now split.
Qed.

Lemma join_tail (sep : jsstring) (x : jsstring) (l : list jsstring) :
  join sep (x :: l) = x ++ match l with [] => [] | _ => sep ++ join sep l end.
Proof. destruct l; cbn [join]; [ now rewrite app_nil_r | reflexivity ]. Qed.

Lemma join_injective (sep : N) (l : list jsstring) :
  forall l' : list jsstring,
    Forall (fun x => x <> [] /\ forallb (fun u => negb (u =? sep)%N) x = true) l ->
    Forall (fun x => x <> [] /\ forallb (fun u => negb (u =? sep)%N) x = true) l' ->
    join [sep] l = join [sep] l' -> l = l'.
Proof.
  induction l as [ | x l IH]; intros l' Hl Hl' E.
  - destruct l' as [ | y l']; [ reflexivity | ].
    inversion Hl' as [ | ? ? [Hy _] _]; subst.
    rewrite join_tail in E. cbn [join] in E.
    destruct y; [ congruence | discriminate ].
  - inversion Hl as [ | ? ? [Hx Hxs] Hl0]; subst.
    destruct l' as [ | y l'].
    + rewrite join_tail in E. cbn [join] in E.
      destruct x; [ congruence | discriminate ].
    + inversion Hl' as [ | ? ? [Hy Hys] Hl0']; subst.
      rewrite !join_tail in E.
      apply (split_at_separator sep) in E; try assumption.
      * destruct E as [-> E]. f_equal.
        destruct l as [ | x' l], l' as [ | y' l']; try discriminate;
          [ reflexivity | ].
        cbn [app] in E. injection E as E. now apply IH.
      * destruct l; [ now left | right; cbn [app]; eauto ].
      * destruct l'; [ now left | right; cbn [app]; eauto ].
Qed.

Lemma forallb_weaken_separator (s : jsstring) :
  forallb (fun u => negb (u =? 58)%N && negb (u =? 124)%N) s = true ->
  forallb (fun u => negb (u =? 58)%N) s = true
  /\ forallb (fun u => negb (u =? 124)%N) s = true.
Proof.
  intros H. split; (eapply forallb_impl; [ | exact H ]);
    intros u Hu; apply andb_true_iff in Hu; tauto.
Qed.

Lemma serializeCommitment_injective (a b : TypedCommitment) :
  separatorFree a = true -> separatorFree b = true ->
  serializeCommitment a = serializeCommitment b -> a = b.
Proof.
  unfold separatorFree, serializeCommitment. intros Ha Hb E.
  apply andb_true_iff in Ha, Hb. destruct Ha as [Ha _], Hb as [Hb _].
  apply forallb_weaken_separator in Ha, Hb. destruct Ha as [Ha _], Hb as [Hb _].
  apply (split_at_separator 58) in E; try assumption;
    try (right; cbn [js map list_ascii_of_string app]; eauto).
  destruct E as [Ep Ec]. cbn in Ec. injection Ec as Ec.
  destruct a, b. cbn in *. congruence.
Qed.

Lemma serializeCommitment_segment (c : TypedCommitment) :
  separatorFree c = true ->
  serializeCommitment c <> []
  /\ forallb (fun u => negb (u =? 124)%N) (serializeCommitment c) = true.
Proof.
  unfold separatorFree, serializeCommitment. intros H.
  apply andb_true_iff in H. destruct H as [Hp Hc].
  apply forallb_weaken_separator in Hp. destruct Hp as [_ Hp].
  split; [ intros E; apply app_eq_nil in E; destruct E as [_ E]; discriminate | ].
  rewrite !forallb_app, Hp, Hc. reflexivity.
Qed.

(** X7.  Where the fields hold no separator, the canonical string can be
    read back.  When, after normalisation, no provider name of either list
    contains ':' or '|' and no commitment text contains '|' (hexadecimal
    text never does), two lists with the same canonical string have the
    same sorted records, and so the same normalised records up to order. *)
Theorem canonical_string_unambiguous
        (P : Platform) (cs cs' : list TypedCommitment)
        (Hfree : forallb separatorFree (map normalizeProvider cs) = true)
        (Hfree' : forallb separatorFree (map normalizeProvider cs') = true)
        (Hsame : canonicalizeCommitments cs = canonicalizeCommitments cs') :
  sortWith compareCommitments (map normalizeProvider cs)
  = sortWith compareCommitments (map normalizeProvider cs')
  /\ Permutation (map normalizeProvider cs) (map normalizeProvider cs')
  /\ length cs = length cs'.
Proof.
  assert (Hsorted : forall l,
             forallb separatorFree l = true ->
             Forall (fun c => separatorFree c = true)
                    (sortWith compareCommitments l)).
  { intros l H. rewrite forallb_forall in H. apply Forall_forall. intros c Hc.
    apply H. eapply Permutation_in; [ apply sortWith_perm | exact Hc ]. }
  assert (Hsegments : forall l,
             Forall (fun c => separatorFree c = true) l ->
             Forall (fun x => x <> []
                              /\ forallb (fun u => negb (u =? 124)%N) x = true)
                    (map serializeCommitment l)).
  { intros l H. induction H as [ | c l Hc _ IH]; cbn [map]; constructor;
      [ now apply serializeCommitment_segment | exact IH ]. }
  assert (Hmap : forall l l',
             Forall (fun c => separatorFree c = true) l ->
             Forall (fun c => separatorFree c = true) l' ->
             map serializeCommitment l = map serializeCommitment l' -> l = l').
  { induction l as [ | a l IH]; intros [ | b l'] Hl Hl' E; try discriminate;
      [ reflexivity | ].
    inversion Hl; inversion Hl'; subst. cbn [map] in E. injection E as Ea E.
    f_equal; [ now apply serializeCommitment_injective | now apply IH ]. }
  assert (E : sortWith compareCommitments (map normalizeProvider cs)
              = sortWith compareCommitments (map normalizeProvider cs')).
  { apply Hmap; try now apply Hsorted.
    apply (join_injective 124); try (apply Hsegments; now apply Hsorted).
    exact Hsame. }
  split; [ exact E | ].
  assert (Hperm : Permutation (map normalizeProvider cs) (map normalizeProvider cs')).
  { rewrite <- (sortWith_perm compareCommitments (map normalizeProvider cs)), E.
    apply sortWith_perm. }
  split; [ exact Hperm | ].
  apply Permutation_length in Hperm. now rewrite !length_map in Hperm.
Qed.

Lemma canonical_string_unambiguous_witness :
  let cs := [mkTyped (js "google") (js "abc123"); mkTyped (js "github") (js "def456")] in
  let cs' := [mkTyped (js "GitHub ") (js "def456"); mkTyped (js "Google") (js "abc123")] in
  canonicalizeCommitments (P := Sample.platform) cs
  = canonicalizeCommitments (P := Sample.platform) cs'
  /\ Permutation (map (normalizeProvider (P := Sample.platform)) cs)
                 (map (normalizeProvider (P := Sample.platform)) cs').
Proof.
  intros cs cs'.
  assert (Hsame : canonicalizeCommitments (P := Sample.platform) cs
                  = canonicalizeCommitments (P := Sample.platform) cs')
    by (vm_compute; reflexivity).
  split; [ exact Hsame | ].
  apply (canonical_string_unambiguous Sample.platform cs cs' eq_refl eq_refl Hsame).
Defined.

(** ** The salt bytes *)

Lemma byteOfN_to_N (b : byte) : byteOfN (Byte.to_N b) = b.
Proof. destruct b; reflexivity. Qed.

Lemma hexToBytes_bytesToHex (bs : list byte) : hexToBytes (bytesToHex bs) = Ok bs.
Proof.
  induction bs as [ | b bs IH]; [ reflexivity | ].
  destruct (byte_digits b) as (H1 & H2 & H3 & _).
  unfold bytesToHex. cbn [flat_map app hexToBytes]. rewrite H1, H2.
  fold (bytesToHex bs). rewrite IH, H3, byteOfN_to_N. reflexivity.
Qed.

Lemma hexValue_asciiLower (c : N) :
  isHexChar c = true -> hexValue (asciiLower c) = hexValue c.
Proof.
  intros H. apply isHexChar_elim in H.
  assert (Hc : (c < 128)%N) by lia.
  revert H. clear - Hc.
  assert (Hcases : exists n : nat, (n < 128)%nat /\ c = N.of_nat n)
    by (exists (N.to_nat c); split; lia).
  destruct Hcases as (n & Hn & ->). intros _.
  do 128 (destruct n as [ | n]; [ reflexivity | ]). lia.
Qed.

Lemma hexToBytes_asciiLower (n : nat) :
  forall s, length s = (2 * n)%nat -> forallb isHexChar s = true ->
            hexToBytes (map asciiLower s) = hexToBytes s.
Proof.
  induction n as [ | n IH]; intros s Hl Hs.
  - destruct s; [ reflexivity | discriminate ].
  - destruct s as [ | hi [ | lo rest]]; simpl in Hl; try lia.
    cbn [forallb] in Hs. apply andb_true_iff in Hs. destruct Hs as [Hhi Hs].
    apply andb_true_iff in Hs. destruct Hs as [Hlo Hs].
    cbn [map hexToBytes].
    rewrite (hexValue_asciiLower _ Hhi), (hexValue_asciiLower _ Hlo).
    rewrite (IH rest) by (lia || exact Hs). reflexivity.
Qed.

Lemma hexValue_digit (c v : N) :
  isHexChar c = true -> hexValue c = Some v ->
  (v < 16)%N /\ hexDigit v = asciiLower c.
Proof.
  intros Hc Hv. apply isHexChar_elim in Hc.
  assert (Hcases : exists k : nat, (k < 128)%nat /\ c = N.of_nat k)
    by (exists (N.to_nat c); split; lia).
  destruct Hcases as (k & Hk & ->). clear Hc. revert Hv.
  do 128 (destruct k as [ | k];
          [ cbn; intros Hv; try discriminate; injection Hv as <-;
            split; reflexivity | ]).
  lia.
Qed.

Lemma to_N_byteOfN (n : N) : (n < 256)%N -> Byte.to_N (byteOfN n) = n.
Proof.
  intros Hn. unfold byteOfN. rewrite N.mod_small by exact Hn.
  destruct (Byte.of_N n) as [b | ] eqn:Eb.
  - now apply Byte.to_of_N.
  - apply Byte.of_N_None_iff in Eb. lia.
Qed.

(** Parsing and rendering again lower-cases the digits. *)
Lemma bytesToHex_hexToBytes (n : nat) :
  forall (s : jsstring) (bs : list byte),
    length s = (2 * n)%nat -> forallb isHexChar s = true ->
    hexToBytes s = Ok bs -> bytesToHex bs = map asciiLower s.
Proof.
  induction n as [ | n IH]; intros s bs Hn Hc Eb.
  - destruct s; [ | discriminate ]. cbn in Eb. injection Eb as <-. reflexivity.
  - destruct s as [ | hi [ | lo rest]]; simpl in Hn; try lia.
    cbn [forallb] in Hc. apply andb_true_iff in Hc. destruct Hc as [Hhi Hc].
    apply andb_true_iff in Hc. destruct Hc as [Hlo Hc].
    cbn [hexToBytes] in Eb.
    destruct (hexValue hi) as [h | ] eqn:Eh; [ | discriminate ].
    destruct (hexValue lo) as [l | ] eqn:El; [ | discriminate ].
    destruct (hexToBytes rest) as [bs' | ] eqn:Er; [ | discriminate ].
    assert (Ebs : bs = byteOfN (16 * h + l) :: bs') by congruence.
    subst bs. clear Eb.
    unfold bytesToHex. cbn [flat_map map app]. fold (bytesToHex bs').
    rewrite (IH rest bs' ltac:(lia) Hc Er).
    destruct (hexValue_digit _ _ Hhi Eh) as [Hh <-].
    destruct (hexValue_digit _ _ Hlo El) as [Hl <-].
    rewrite to_N_byteOfN by lia.
    replace ((16 * h + l) / 16)%N with h
      by (symmetry; rewrite N.mul_comm, N.div_add_l by lia;
          rewrite (N.div_small l) by lia; lia).
    replace ((16 * h + l) mod 16)%N with l
      by (symmetry; rewrite N.add_comm, N.mul_comm, N.Div0.mod_add;
          apply N.mod_small; lia).
    reflexivity.
Qed.

(** X8.  The salt bytes that go into HKDF.  Given that SHA-256 yields 32
    bytes and that [toLowerCase] lower-cases ASCII: the normal form of any
    salt text parses, as [deriveWalletKey] parses it, into 32 bytes whose
    hexadecimal rendering is that normal form again; for a text that
    [isValidSalt] rejects these bytes are the SHA-256 digest of its UTF-8
    encoding, and for one it accepts they are the bytes the text itself
    denotes, whatever the case of its letters. *)
Theorem salt_bytes
        (P : Platform) (Hsha : Sha256Length P) (Hlower : ToLowerCaseAscii P)
        (saltText : jsstring) :
  (exists saltBytes : list byte,
      hexToBytes (normalizeSalt saltText) = Ok saltBytes
      /\ length saltBytes = 32%nat
      /\ bytesToHex saltBytes = normalizeSalt saltText)
  /\ (isValidSalt saltText = false ->
      hexToBytes (normalizeSalt saltText) = Ok (sha256 (utf8ToBytes saltText)))
  /\ (isValidSalt saltText = true ->
      hexToBytes (normalizeSalt saltText) = hexToBytes saltText).
Proof.
  unfold isValidSalt.
  assert (Hhashed : isValidHexSalt saltText = false ->
                    hexToBytes (normalizeSalt saltText)
                    = Ok (sha256 (utf8ToBytes saltText))).
  { intros E. unfold normalizeSalt. rewrite E. apply hexToBytes_bytesToHex. }
  assert (Hgiven : isValidHexSalt saltText = true ->
                   hexToBytes (normalizeSalt saltText) = hexToBytes saltText).
  { intros E. rewrite (normalizeSalt_of_valid Hlower _ E).
    pose proof (isValidHexSalt_length _ E) as Hl.
    unfold isValidHexSalt in E. apply andb_true_iff in E. destruct E as [_ Hc].
    now apply (hexToBytes_asciiLower 32). }
  split; [ | split; assumption ].
  destruct (isValidHexSalt saltText) eqn:E.
  - destruct (hexToBytes_salt _ E) as (saltBytes & Eb & Hl).
    exists saltBytes. rewrite (Hgiven eq_refl). split; [ exact Eb | ].
    split; [ exact Hl | ].
    rewrite (normalizeSalt_of_valid Hlower _ E).
    pose proof (isValidHexSalt_length _ E) as Hlen.
    unfold isValidHexSalt in E. apply andb_true_iff in E. destruct E as [_ Hc].
    now apply (bytesToHex_hexToBytes 32).
  - exists (sha256 (utf8ToBytes saltText)). rewrite (Hhashed eq_refl).
    split; [ reflexivity | ]. split; [ apply Hsha | ].
    unfold normalizeSalt. now rewrite E.
Qed.

Lemma salt_bytes_witness :
  Sha256Length Sample.platform
  /\ ToLowerCaseAscii Sample.platform
  /\ isValidSalt (js "abc") = false
  /\ hexToBytes (normalizeSalt (P := Sample.platform) (js "abc"))
     = Ok (SHA256.digest (Sample.utf8Encode (js "abc"))).
Proof.
  split; [ exact sample_sha256_length | ].
  split; [ exact sample_toLowerCase_ascii | ].
  split; [ reflexivity | ].
  exact (proj1 (proj2 (salt_bytes Sample.platform sample_sha256_length
                                  sample_toLowerCase_ascii (js "abc")))
               eq_refl).
Defined.

(** ** Calling [deriveWalletKey] directly *)

Lemma trimStart_split (s : jsstring) :
  exists blanks : jsstring,
    s = blanks ++ Sample.trimStart s
    /\ forallb Sample.isWhiteSpace blanks = true.
Proof.
  induction s as [ | c s (blanks & E & Hb)]; [ now exists [] | ].
  cbn [Sample.trimStart]. destruct (Sample.isWhiteSpace c) eqn:Ec.
  - exists (c :: blanks). cbn [app forallb]. rewrite Ec, Hb. now rewrite <- E.
  - now exists [].
Qed.

Lemma trimStart_fixed (s : jsstring) :
  match s with [] => True | c :: _ => Sample.isWhiteSpace c = false end ->
  Sample.trimStart s = s.
Proof. destruct s as [ | c s]; [ reflexivity | ]. cbn. now intros ->. Qed.

Lemma trimStart_head (s : jsstring) :
  match Sample.trimStart s with
  | [] => True
  | c :: _ => Sample.isWhiteSpace c = false
  end.
Proof.
  induction s as [ | c s IH]; [ exact I | ].
  cbn [Sample.trimStart]. destruct (Sample.isWhiteSpace c) eqn:Ec; [ exact IH | exact Ec ].
Qed.

Lemma trimBoth_idempotent (s : jsstring) :
  Sample.trimBoth (Sample.trimBoth s) = Sample.trimBoth s.
Proof.
  unfold Sample.trimBoth.
  set (a := Sample.trimStart s).
  pose proof (trimStart_head s) as Ha. fold a in Ha.
  destruct (trimStart_split (rev a)) as (blanks & E & _).
  set (r := Sample.trimStart (rev a)) in *.
  pose proof (trimStart_head (rev a)) as Hr. fold r in Hr.
  assert (Ea : a = rev r ++ rev blanks)
    by (rewrite <- rev_app_distr, <- E; symmetry; apply rev_involutive).
  assert (Hhead : match rev r with
                  | [] => True
                  | c :: _ => Sample.isWhiteSpace c = false
                  end).
  { destruct (rev r) as [ | c t]; [ exact I | ]. rewrite Ea in Ha. exact Ha. }
  rewrite (trimStart_fixed (rev r) Hhead), rev_involutive.
  now rewrite (trimStart_fixed r Hr).
Qed.

Lemma asciiLower_idempotent (c : N) : asciiLower (asciiLower c) = asciiLower c.
Proof.
  unfold asciiLower.
  destruct ((65 <=? c) && (c <=? 90))%N eqn:E; [ | now rewrite E ].
  unbool.
  replace ((65 <=? c + 32) && (c + 32 <=? 90))%N with false; [ reflexivity | ].
  symmetry. apply andb_false_iff. right. apply N.leb_gt. lia.
Qed.

Lemma isWhiteSpace_letter (c : N) :
  (33 <= c <= 159)%N -> Sample.isWhiteSpace c = false.
Proof.
  intros Hc. unfold Sample.isWhiteSpace.
  replace (c <=? 13)%N with false by (symmetry; apply N.leb_gt; lia).
  replace (0x2000 <=? c)%N with false by (symmetry; apply N.leb_gt; lia).
  repeat match goal with
         | |- context [(c =? ?k)%N] =>
             replace (c =? k)%N with false by (symmetry; apply N.eqb_neq; lia)
         end.
  now rewrite andb_false_r.
Qed.

Lemma isWhiteSpace_asciiLower (c : N) :
  Sample.isWhiteSpace (asciiLower c) = Sample.isWhiteSpace c.
Proof.
  unfold asciiLower.
  destruct ((65 <=? c) && (c <=? 90))%N eqn:E; [ | reflexivity ].
  unbool. now rewrite !isWhiteSpace_letter by lia.
Qed.

Lemma trimStart_asciiLower (s : jsstring) :
  Sample.trimStart (map asciiLower s) = map asciiLower (Sample.trimStart s).
Proof.
  induction s as [ | c s IH]; [ reflexivity | ].
  cbn [map Sample.trimStart]. rewrite isWhiteSpace_asciiLower.
  destruct (Sample.isWhiteSpace c); [ exact IH | reflexivity ].
Qed.

Lemma trimBoth_asciiLower (s : jsstring) :
  Sample.trimBoth (map asciiLower s) = map asciiLower (Sample.trimBoth s).
Proof.
  unfold Sample.trimBoth.
  now rewrite trimStart_asciiLower, <- map_rev, trimStart_asciiLower, map_rev.
Qed.

Lemma sample_normalisation_idempotent : NormalisationIdempotent Sample.platform.
Proof.
  intros s. cbn [trim toLowerCase Sample.platform].
  rewrite !trimBoth_asciiLower, trimBoth_idempotent, map_map.
  apply map_ext. intros c. apply asciiLower_idempotent.
Qed.

(** X9.  The API normalises the provider names of the commitments before
    it calls [deriveWalletKey], which normalises them again.  Given that
    normalising twice is normalising once: [deriveWalletKey] called on
    stored commitments with their provider names as stored behaves as it
    does when the API calls it, for every threshold and salt; so, called on
    the commitments, the threshold and the salt of a registration, it
    returns the registered address. *)
Theorem deriveWalletKey_on_stored_commitments
        (P : Platform) (Hnorm : NormalisationIdempotent P)
        (stored : list Commitment) :
  canonicalizeCommitments (map storedAsTyped stored)
  = canonicalizeCommitments (map toTypedCommitment stored)
  /\ (forall (K : Z) (saltText : jsstring),
         deriveWalletKey (mkParams (map storedAsTyped stored) K saltText)
         = deriveWalletKey (mkParams (map toTypedCommitment stored) K saltText))
  /\ (forall (C : Collaborators) (st : KeyWeaverState) (rnd : jsstring)
             (params : RegisterWalletParams) (tr : list Event)
             (reg : RegisterWalletResult),
         registerWallet st rnd params = (tr, Ok reg) ->
         stored = resCommitments reg ->
         exists pk : jsstring,
           deriveWalletKey (mkParams (map storedAsTyped stored)
                                     (regThreshold params) (resSalt reg))
           = Ok (mkDerived pk (resAddress reg))).
Proof.
  assert (Hmap : map normalizeProvider (map storedAsTyped stored)
                 = map normalizeProvider (map toTypedCommitment stored)).
  { rewrite !map_map. apply map_ext. intros c.
    unfold normalizeProvider, storedAsTyped, toTypedCommitment.
    cbn [provider commitment]. now rewrite Hnorm. }
  assert (Hcanon : canonicalizeCommitments (map storedAsTyped stored)
                   = canonicalizeCommitments (map toTypedCommitment stored))
    by (unfold canonicalizeCommitments; now rewrite Hmap).
  assert (Hderive : forall K saltText,
             deriveWalletKey (mkParams (map storedAsTyped stored) K saltText)
             = deriveWalletKey (mkParams (map toTypedCommitment stored) K saltText)).
  { intros K saltText. unfold deriveWalletKey. cbn [commitments threshold salt].
    now rewrite Hcanon, !length_map. }
  split; [ exact Hcanon | ]. split; [ exact Hderive | ].
  intros C st rnd params tr reg Hreg ->.
  destruct (registerWallet_ok _ _ _ _ _ Hreg)
    as (_ & [pk addr] & _ & _ & Hd & Ha & _).
  cbn [address] in Ha. exists pk. now rewrite Hderive, Hd, Ha.
Qed.

Lemma deriveWalletKey_on_stored_commitments_witness :
  NormalisationIdempotent Sample.platform
  /\ canonicalizeCommitments (P := Sample.platform)
       (map storedAsTyped
            [mkCommitment (mkClaim (js " GitHub") (js "user")) (js "00ff");
             mkCommitment (mkClaim (js "google") (js "sub")) (js "a1b2")])
     = js "github:00ff|google:a1b2".
Proof.
  split; [ exact sample_normalisation_idempotent | ].
  rewrite (proj1 (deriveWalletKey_on_stored_commitments
                    Sample.platform sample_normalisation_idempotent
                    [mkCommitment (mkClaim (js " GitHub") (js "user")) (js "00ff");
                     mkCommitment (mkClaim (js "google") (js "sub")) (js "a1b2")])).
  vm_compute. reflexivity.
Defined.

(** ** Salts through the API *)

Lemma normalizeSalt_nonempty {P : Platform} (s : jsstring) :
  Sha256Length P -> ToLowerCaseAscii P ->
  exists c rest, normalizeSalt s = c :: rest.
Proof.
  intros Hsha Hlower.
  pose proof (normalizeSalt_canonical Hsha Hlower s) as H.
  unfold isCanonicalSalt in H. apply andb_true_iff in H. destruct H as [Hl _].
  apply Nat.eqb_eq in Hl. destruct (normalizeSalt s); [ discriminate | eauto ].
Qed.

(** X10.  The API takes a salt in any of its spellings.  Given that SHA-256
    yields 32 bytes and that [toLowerCase] lower-cases ASCII: [recoverWallet]
    behaves alike on a salt text and on its normal form, hence alike on a
    64-digit hexadecimal salt and on its lower-cased spelling, and alike on
    the text passed to a registration and on the salt that registration
    returned; [registerWallet] behaves alike on a non-empty salt text and on
    its normal form. *)
Theorem api_salt_spellings
        (P : Platform) (C : Collaborators)
        (Hsha : Sha256Length P) (Hlower : ToLowerCaseAscii P)
        (st : KeyWeaverState) (saltText : jsstring) :
  (forall (identities : list SupportedIdentity) (stored : list Commitment)
          (K : Z) (expose : option bool),
      recoverWallet st (mkRecoverParams identities stored saltText K expose)
      = recoverWallet st (mkRecoverParams identities stored
                                          (normalizeSalt saltText) K expose))
  /\ (forall (identities : list SupportedIdentity) (stored : list Commitment)
             (K : Z) (expose : option bool),
         isValidSalt saltText = true ->
         recoverWallet st (mkRecoverParams identities stored saltText K expose)
         = recoverWallet st (mkRecoverParams identities stored
                                             (map asciiLower saltText) K expose))
  /\ (forall (rnd : jsstring) (identities : list SupportedIdentity) (K : Z)
             (expose : option bool),
         saltText <> [] ->
         registerWallet st rnd (mkRegisterParams identities K (Some saltText) expose)
         = registerWallet st rnd (mkRegisterParams identities K
                                                   (Some (normalizeSalt saltText))
                                                   expose))
  /\ (forall (st0 : KeyWeaverState) (rnd : jsstring)
             (registered : list SupportedIdentity) (K0 : Z) (expose0 : option bool)
             (tr : list Event) (reg : RegisterWalletResult)
             (identities : list SupportedIdentity) (K : Z) (expose : option bool),
         saltText <> [] ->
         registerWallet st0 rnd (mkRegisterParams registered K0 (Some saltText) expose0)
         = (tr, Ok reg) ->
         recoverWallet st (mkRecoverParams identities (resCommitments reg)
                                           saltText K expose)
         = recoverWallet st (mkRecoverParams identities (resCommitments reg)
                                             (resSalt reg) K expose)).
Proof.
  assert (Hrec : forall identities stored s s' K expose,
             normalizeSalt s = normalizeSalt s' ->
             recoverWallet st (mkRecoverParams identities stored s K expose)
             = recoverWallet st (mkRecoverParams identities stored s' K expose)).
  { intros identities stored s s' K expose E. unfold recoverWallet.
    cbn [recIdentities recCommitments recSalt recThreshold recExposePrivateKey].
    now rewrite E. }
  split; [ | split; [ | split ] ].
  - intros. apply Hrec. symmetry. now apply normalizeSalt_idempotent.
  - intros identities stored K expose Hs. apply Hrec.
    rewrite <- (normalizeSalt_of_valid Hlower _ Hs).
    symmetry. now apply normalizeSalt_idempotent.
  - intros rnd identities K expose Hne.
    destruct (getKeyWeaverConfig_cases st) as [Hcfg | [cfg Hcfg]];
      [ now rewrite !(registerWallet_not_initialized _ _ _ _ Hcfg) | ].
    rewrite !(registerWallet_initialized _ _ _ _ Hcfg).
    destruct saltText as [ | c0 rest0]; [ congruence | ].
    pose proof (normalizeSalt_idempotent Hsha Hlower (c0 :: rest0)) as Hn.
    destruct (normalizeSalt_nonempty (c0 :: rest0) Hsha Hlower) as (c & rest & E).
    cbn [regIdentities regThreshold regSalt regExposePrivateKey].
    rewrite E in Hn |- *. cbn [regSalt]. now rewrite Hn.
  - intros st0 rnd registered K0 expose0 tr reg identities K expose Hne Hreg.
    apply Hrec.
    destruct (getKeyWeaverConfig_cases st0) as [Hcfg | [cfg Hcfg]];
      [ rewrite (registerWallet_not_initialized _ _ _ _ Hcfg) in Hreg; discriminate | ].
    rewrite (registerWallet_initialized _ _ _ _ Hcfg) in Hreg.
    cbn [regIdentities regThreshold regSalt regExposePrivateKey] in Hreg.
    destruct (Z.of_nat _ <? K0)%Z; [ discriminate | ].
    destruct (extractClaims registered) as [t1 [claims | e]]; [ | discriminate ].
    cbv zeta in Hreg.
    destruct (deriveWalletKey _); [ | discriminate ].
    injection Hreg as _ <-. cbn [resSalt].
    destruct saltText as [ | c0 rest0]; [ congruence | ].
    symmetry. now apply normalizeSalt_idempotent.
Qed.

Lemma api_salt_spellings_witness :
  Sha256Length Sample.platform
  /\ ToLowerCaseAscii Sample.platform
  /\ normalizeSalt (P := Sample.platform) (js "test-salt-123") <> js "test-salt-123"
  /\ Sample.recover Sample.ready
       (Sample.recoverParams [Sample.google; Sample.github] Sample.stored
                             (js "test-salt-123") 2 None)
     = Sample.recover Sample.ready
         (Sample.recoverParams [Sample.google; Sample.github] Sample.stored
                               (normalizeSalt (P := Sample.platform)
                                              (js "test-salt-123")) 2 None).
Proof.
  split; [ exact sample_sha256_length | ].
  split; [ exact sample_toLowerCase_ascii | ].
  split; [ vm_compute; discriminate | ].
  exact (proj1 (api_salt_spellings
                  Sample.platform Sample.collaborators
                  sample_sha256_length sample_toLowerCase_ascii
                  Sample.ready (js "test-salt-123"))
               [Sample.google; Sample.github] Sample.stored 2%Z None).
Defined.

Lemma Forall_not_In {A} (P : A -> Prop) (x : A) (l : list A) :
  Forall P l -> ~ P x -> ~ In x l.
Proof. intros H Hx Hin. rewrite Forall_forall in H. exact (Hx (H _ Hin)). Qed.

(** X11.  The salt in a result of [registerWallet] is always in normal form,
    64 lowercase hexadecimal digits that [isValidSalt] accepts (given that
    SHA-256 yields 32 bytes and that [toLowerCase] lower-cases ASCII).  It is
    the normal form of the salt text passed, unless none was passed or the
    empty string was: then, and only then, [createRandomSalt] is called, and
    the result carries the normal form of what that returned. *)
Theorem registerWallet_salt
        (P : Platform) (C : Collaborators)
        (Hsha : Sha256Length P) (Hlower : ToLowerCaseAscii P)
        (st : KeyWeaverState) (rnd : jsstring) (params : RegisterWalletParams)
        (tr : list Event) (reg : RegisterWalletResult)
        (Hreg : registerWallet st rnd params = (tr, Ok reg)) :
  isCanonicalSalt (resSalt reg) = true
  /\ isValidSalt (resSalt reg) = true
  /\ length (resSalt reg) = 64%nat
  /\ (forall saltText, regSalt params = Some saltText -> saltText <> [] ->
                       resSalt reg = normalizeSalt saltText
                       /\ ~ In EvRandomSalt tr)
  /\ (regSalt params = None \/ regSalt params = Some [] ->
      resSalt reg = normalizeSalt rnd /\ calls EvRandomSalt tr = 1%nat).
Proof.
  destruct (getKeyWeaverConfig_cases st) as [Hcfg | [cfg Hcfg]];
    [ rewrite (registerWallet_not_initialized _ _ _ _ Hcfg) in Hreg; discriminate | ].
  rewrite (registerWallet_initialized _ _ _ _ Hcfg) in Hreg.
  destruct (Z.of_nat _ <? regThreshold params)%Z; [ discriminate | ].
  pose proof (extractClaims_trace (regIdentities params)) as [Ht1 _].
  destruct (extractClaims _) as [t1 [claims | e]]; [ | discriminate ].
  cbn [trace fst] in Ht1. cbv zeta in Hreg.
  destruct (deriveWalletKey _); [ | discriminate ].
  injection Hreg as <- <-. cbn [resSalt].
  assert (Hcanon : forall s, isCanonicalSalt (normalizeSalt s) = true)
    by (intros s; now apply normalizeSalt_canonical).
  split; [ apply Hcanon | ].
  split; [ apply isCanonicalSalt_valid, Hcanon | ].
  split.
  { specialize (Hcanon (match regSalt params with
                        | Some (c :: s) => c :: s
                        | _ => rnd
                        end)).
    unfold isCanonicalSalt in Hcanon. apply andb_true_iff in Hcanon.
    destruct Hcanon as [Hl _]. now apply Nat.eqb_eq in Hl. }
  split.
  - intros saltText E Hne. rewrite E.
    destruct saltText as [ | c s]; [ congruence | ].
    split; [ reflexivity | ].
    cbn [app]. rewrite in_app_iff. intros [Hin | Hin].
    + revert Hin. apply (Forall_not_In _ _ _ Ht1). discriminate.
    + destruct Hin as [Hin | [Hin | []]]; discriminate.
  - intros Hnone.
    assert (E : match regSalt params with
                | Some (c :: s) => c :: s
                | _ => rnd
                end = rnd
                /\ match regSalt params with
                   | Some (_ :: _) => []
                   | _ => [EvRandomSalt]
                   end = [EvRandomSalt])
      by (destruct Hnone as [-> | ->]; split; reflexivity).
    destruct E as [-> ->]. split; [ reflexivity | ].
    unfold calls. rewrite filter_app. cbn [app filter sameEvent length].
    rewrite length_app. cbn [length].
    assert (Hnil : filter (sameEvent EvRandomSalt) t1 = []).
    { clear - Ht1. induction Ht1 as [ | ev t <- _ IH]; [ reflexivity | exact IH ]. }
    now rewrite Hnil.
Qed.

Lemma registerWallet_salt_witness :
  Sha256Length Sample.platform
  /\ ToLowerCaseAscii Sample.platform
  /\ exists (tr : list Event) (reg : RegisterWalletResult),
      Sample.register Sample.ready (js "random text")
                      (Sample.registerParams [Sample.google; Sample.github] 2
                                             (Some []) None)
      = (tr, Ok reg)
      /\ resSalt reg = normalizeSalt (P := Sample.platform) (js "random text")
      /\ calls EvRandomSalt tr = 1%nat
      /\ length (resSalt reg) = 64%nat.
Proof.
  split; [ exact sample_sha256_length | ].
  split; [ exact sample_toLowerCase_ascii | ].
  eassert (Hreg : registerWallet
                    (P := Sample.platform) (C := Sample.collaborators)
                    Sample.ready (js "random text")
                    (mkRegisterParams
                       (C := Sample.collaborators)
                       [Sample.google; Sample.github] 2 (Some []) None)
                  = (_, Ok _)) by (vm_compute; reflexivity).
  match type of Hreg with
  | _ = (?tr, Ok ?reg) =>
      exists tr, reg;
      destruct (registerWallet_salt
                  Sample.platform Sample.collaborators
                  sample_sha256_length sample_toLowerCase_ascii
                  Sample.ready (js "random text") _ tr reg Hreg)
        as (_ & _ & Hl & _ & Hrandom)
  end.
  destruct (Hrandom (or_intror eq_refl)) as [Hs Hc].
  split; [ vm_compute; reflexivity | ].
  split; [ exact Hs | ]. split; [ exact Hc | exact Hl ].
Defined.

(** ** What the API returns and throws *)

Lemma deriveWalletKey_privateKey {P : Platform} (params : KeyDerivationParams)
      (r : DerivedKeyResult) :
  deriveWalletKey params = Ok r ->
  length (privateKey r) = 64%nat /\ forallb isLowerHexChar (privateKey r) = true.
Proof.
  intros H. unfold deriveWalletKey in H.
  destruct (Z.of_nat (length (commitments params)) <? threshold params)%Z;
    [ discriminate | ].
  destruct (negb (isValidHexSalt (salt params))); [ discriminate | ].
  unfold rbind in H.
  destruct (hexToBytes (salt params)) as [saltBytes | ]; [ | discriminate ].
  match type of H with
  | match BigIntHex ?d with _ => _ end = _ => destruct (BigIntHex d) as [scalar | ] eqn:E
  end; [ | discriminate ].
  destruct (addressOfPrivateKey (scalarToHex (clampScalar scalar)));
    [ | discriminate ].
  injection H as <-. cbn [privateKey].
  pose proof (clampScalar_range scalar (BigIntHex_nonneg _ _ E)) as Hk.
  pose proof CURVE_ORDER_bounds as Hn.
  split; [ apply scalarToHex_length; lia | apply scalarToHex_lower ].
Qed.

Lemma createSignerFromPrivateKey_cases {C : Collaborators}
      (pk : jsstring) (expose : option bool) :
  createSignerFromPrivateKey pk expose
  = match createWalletFromPrivateKey pk with
    | Ok w =>
        ([EvCreateWallet],
         Ok (mkSigner w (if match expose with Some b => b | None => false end
                         then Some pk else None)))
    | Err e => ([EvCreateWallet], Err (KeyDerivationError (message e)))
    end.
Proof.
  unfold createSignerFromPrivateKey, tryCatch, mbind, call, mret,
    rethrowAsKeyDerivationError, throw.
  destruct (createWalletFromPrivateKey pk); reflexivity.
Qed.

(** X12.  No result carries a private key unless [exposePrivateKey] was
    passed as true.  A result of [registerWallet] then carries the key that
    [deriveWalletKey] yields on all its commitments and its salt, 64
    hexadecimal digits, next to the address of that key; a result of
    [recoverWallet] carries a key exactly when, besides, it reports success;
    a result of [createSignerFromPrivateKey] carries the key it was given,
    unchanged. *)
Theorem private_key_only_when_asked
        (P : Platform) (C : Collaborators) (st : KeyWeaverState) :
  (forall (rnd : jsstring) (params : RegisterWalletParams) (tr : list Event)
          (reg : RegisterWalletResult),
      registerWallet st rnd params = (tr, Ok reg) ->
      (regExposePrivateKey params <> Some true -> resPrivateKey reg = None)
      /\ (regExposePrivateKey params = Some true ->
          exists pk : jsstring,
            resPrivateKey reg = Some pk
            /\ length pk = 64%nat
            /\ deriveWalletKey
                 (mkParams (map toTypedCommitment (resCommitments reg))
                           (regThreshold params) (resSalt reg))
               = Ok (mkDerived pk (resAddress reg))))
  /\ (forall (params : RecoverWalletParams) (tr : list Event)
             (r : RecoverWalletResult),
         recoverWallet st params = (tr, Ok r) ->
         (recExposePrivateKey params <> Some true \/ success r = false ->
          recoveredPrivateKey r = None)
         /\ (recExposePrivateKey params = Some true -> success r = true ->
             exists pk : jsstring,
               recoveredPrivateKey r = Some pk /\ length pk = 64%nat))
  /\ (forall (pk : jsstring) (expose : option bool) (tr : list Event)
             (s : SignerResult),
         createSignerFromPrivateKey pk expose = (tr, Ok s) ->
         signerPrivateKey s
         = match expose with Some true => Some pk | _ => None end).
Proof.
  split; [ | split ].
  - intros rnd params tr reg H.
    destruct (registerWallet_ok _ _ _ _ _ H)
      as (rawSalt & [pk addr] & _ & _ & Hd & Ha & Hp).
    cbn [privateKey address] in Ha, Hp. rewrite Hp. split.
    + intros Hno. destruct (regExposePrivateKey params) as [[ | ] | ];
        [ congruence | reflexivity | reflexivity ].
    + intros ->. exists pk. split; [ reflexivity | ].
      split; [ apply (deriveWalletKey_privateKey _ _ Hd) | now rewrite Ha ].
  - intros params tr r H.
    destruct (getKeyWeaverConfig_cases st) as [Hcfg | [cfg Hcfg]];
      [ rewrite (recoverWallet_not_initialized _ _ _ Hcfg) in H; discriminate | ].
    destruct (extractClaims (recIdentities params)) as [t1 [claims | e]] eqn:Hex;
      [ | rewrite (recoverWallet_extraction_failed _ _ _ _ _ Hcfg Hex) in H;
          discriminate ].
    destruct (recoverWallet_extracted _ _ _ _ _ Hcfg Hex) as (t2 & _ & E).
    rewrite E in H. clear E.
    destruct (Z.of_nat _ >=? recThreshold params)%Z.
    + destruct (deriveWalletKey _) as [derived | e] eqn:Hd; [ | discriminate ].
      destruct (createWalletFromPrivateKey _) as [w | e]; [ | discriminate ].
      destruct (streq _ _); [ | discriminate ].
      injection H as _ <-. cbn [success recoveredPrivateKey]. split.
      * intros [Hno | Hs]; [ | discriminate ].
        destruct (recExposePrivateKey params) as [[ | ] | ];
          [ congruence | reflexivity | reflexivity ].
      * intros -> _. exists (privateKey derived).
        split; [ reflexivity | apply (deriveWalletKey_privateKey _ _ Hd) ].
    + injection H as _ <-. cbn [success recoveredPrivateKey].
      split; [ reflexivity | discriminate ].
  - intros pk expose tr s H. rewrite createSignerFromPrivateKey_cases in H.
    destruct (createWalletFromPrivateKey pk); [ | discriminate ].
    injection H as _ <-. cbn [signerPrivateKey].
    destruct expose as [[ | ] | ]; reflexivity.
Qed.

Lemma private_key_only_when_asked_witness :
  exists (reg : RegisterWalletResult) (pk : jsstring),
    outcome Sample.registration = Ok reg
    /\ resPrivateKey reg = Some pk
    /\ length pk = 64%nat.
Proof.
  eassert (Hreg : registerWallet
                    (P := Sample.platform) (C := Sample.collaborators)
                    Sample.ready (js "unused")
                    (mkRegisterParams
                       (C := Sample.collaborators)
                       [Sample.google; Sample.github; Sample.passkey] 2
                       (Some (js "test-salt-123")) (Some true))
                  = (_, Ok _)) by (vm_compute; reflexivity).
  match type of Hreg with
  | _ = (?tr, Ok ?reg) =>
      destruct (proj2 (proj1 (private_key_only_when_asked
                                Sample.platform Sample.collaborators Sample.ready)
                             (js "unused") _ tr reg Hreg) eq_refl)
        as (pk & Hp & Hl & _);
      exists reg, pk
  end.
  split; [ vm_compute; reflexivity | ]. split; [ exact Hp | exact Hl ].
Defined.

(** An extraction that throws threw what the extractor threw on the first
    proof that it does not accept. *)
Lemma extractClaims_failure {C : Collaborators}
      (identities : list SupportedIdentity) (t : list Event) (cause : JsError) :
  extractClaims identities = (t, Err cause) -> firstFailure identities cause.
Proof.
  revert t. induction identities as [ | i rest IH]; intros t H; [ discriminate | ].
  rewrite extractClaims_cons in H.
  destruct (extractIdentityClaim i) as [claim | e] eqn:Hi.
  - destruct (extractClaims rest) as [t' [claims | e]] eqn:Hrest; [ discriminate | ].
    injection H as _ <-.
    destruct (IH _ eq_refl) as (good & bad & rest' & -> & Hgood & Hbad).
    exists (i :: good), bad, rest'.
    split; [ reflexivity | ]. split; [ | exact Hbad ].
    constructor; [ exists claim; exact Hi | exact Hgood ].
  - injection H as _ <-. exists [], i, rest.
    split; [ reflexivity | ]. split; [ constructor | exact Hi ].
Qed.

(** X13.  The errors of the API, and what each stands for.  [registerWallet]
    rejects with [KeyWeaverNotInitializedError], only where the system is
    not initialised, with [InsufficientIdentitiesError], only where fewer
    identities are passed than the threshold, or with a
    [KeyDerivationError]; [recoverWallet] with
    [KeyWeaverNotInitializedError] or a [KeyDerivationError];
    [createSignerFromPrivateKey] throws a [KeyDerivationError] only.  Every
    such [KeyDerivationError] stands for the one error thrown inside the
    [try] block, and its message is that error's message behind the prefix
    "Key derivation failed: " ("unknown error" behind it where that message
    is empty).  The error it stands for is: what the extractor threw on the
    first proof that it does not accept; or, the proofs all being accepted,
    what [deriveWalletKey] threw on the commitments (computed from the
    claims at registration, stored at recovery), the threshold and the
    normalised salt; or, in [recoverWallet] with the key derived and in
    [createSignerFromPrivateKey], what the wallet constructor threw on the
    key; or, in [recoverWallet] with the wallet made, the
    [KeyDerivationError] "Address mismatch during recovery" thrown where the
    two addresses differ beyond letter case. *)
Theorem api_error_kinds
        (P : Platform) (C : Collaborators) (st : KeyWeaverState) :
  (forall (rnd : jsstring) (params : RegisterWalletParams) (e : JsError),
      outcome (registerWallet st rnd params) = Err e ->
      (e = KeyWeaverNotInitializedError
       /\ getKeyWeaverConfig st = Err KeyWeaverNotInitializedError)
      \/ (e = InsufficientIdentitiesError
                (Z.of_nat (length (regIdentities params))) (regThreshold params)
          /\ (Z.of_nat (length (regIdentities params)) < regThreshold params)%Z)
      \/ (exists cause : JsError,
             e = KeyDerivationError (message cause)
             /\ message e
                = js "Key derivation failed: "
                     ++ orElse (message cause) (js "unknown error")
             /\ (firstFailure (regIdentities params) cause
                 \/ exists claims : list IdentityClaim,
                      outcome (extractClaims (regIdentities params)) = Ok claims
                      /\ let saltHex :=
                           normalizeSalt
                             match regSalt params with
                             | Some (c :: s) => c :: s
                             | _ => rnd
                             end in
                         deriveWalletKey
                           (mkParams
                              (map toTypedCommitment
                                   (generateCommitments claims saltHex))
                              (regThreshold params) saltHex)
                         = Err cause)))
  /\ (forall (params : RecoverWalletParams) (e : JsError),
         outcome (recoverWallet st params) = Err e ->
         (e = KeyWeaverNotInitializedError
          /\ getKeyWeaverConfig st = Err KeyWeaverNotInitializedError)
         \/ (exists cause : JsError,
                e = KeyDerivationError (message cause)
                /\ message e
                   = js "Key derivation failed: "
                        ++ orElse (message cause) (js "unknown error")
                /\ (firstFailure (recIdentities params) cause
                    \/ exists claims : list IdentityClaim,
                         outcome (extractClaims (recIdentities params)) = Ok claims
                         /\ let derivation :=
                              deriveWalletKey
                                (mkParams
                                   (map toTypedCommitment (recCommitments params))
                                   (recThreshold params)
                                   (normalizeSalt (recSalt params))) in
                            derivation = Err cause
                            \/ exists derived : DerivedKeyResult,
                                 derivation = Ok derived
                                 /\ (createWalletFromPrivateKey (privateKey derived)
                                     = Err cause
                                     \/ exists w : Wallet,
                                          createWalletFromPrivateKey
                                            (privateKey derived) = Ok w
                                          /\ toLowerCase (walletAddress w)
                                             <> toLowerCase (address derived)
                                          /\ cause
                                             = KeyDerivationError
                                                 (js "Address mismatch during recovery")))))
  /\ (forall (pk : jsstring) (expose : option bool) (e : JsError),
         outcome (createSignerFromPrivateKey pk expose) = Err e ->
         exists cause : JsError,
           createWalletFromPrivateKey pk = Err cause
           /\ e = KeyDerivationError (message cause)
           /\ message e
              = js "Key derivation failed: "
                   ++ orElse (message cause) (js "unknown error")).
Proof.
  split; [ | split ].
  - intros rnd params e H.
    destruct (getKeyWeaverConfig_cases st) as [Hcfg | [cfg Hcfg]].
    + rewrite (registerWallet_not_initialized _ _ _ _ Hcfg) in H.
      injection H as <-. left. now split.
    + rewrite (registerWallet_initialized _ _ _ _ Hcfg) in H.
      destruct (Z.of_nat _ <? regThreshold params)%Z eqn:EK.
      * injection H as <-. right. left. split; [ reflexivity | now apply Z.ltb_lt ].
      * right. right.
        destruct (extractClaims _) as [t1 [claims | cause]] eqn:Hex.
        -- cbv zeta in H.
           destruct (deriveWalletKey _) as [derived | cause] eqn:Ed; [ discriminate | ].
           injection H as <-. exists cause.
           split; [ reflexivity | ]. split; [ reflexivity | ].
           right. exists claims. split; [ reflexivity | exact Ed ].
        -- injection H as <-. exists cause.
           split; [ reflexivity | ]. split; [ reflexivity | ].
           left. exact (extractClaims_failure _ _ _ Hex).
  - intros params e H.
    destruct (getKeyWeaverConfig_cases st) as [Hcfg | [cfg Hcfg]].
    + rewrite (recoverWallet_not_initialized _ _ _ Hcfg) in H.
      injection H as <-. left. now split.
    + right.
      destruct (extractClaims (recIdentities params)) as [t1 [claims | cause]] eqn:Hex.
      * destruct (recoverWallet_extracted _ _ _ _ _ Hcfg Hex) as (t2 & _ & E).
        rewrite E in H. clear E.
        destruct (Z.of_nat _ >=? recThreshold params)%Z; [ | discriminate ].
        destruct (deriveWalletKey _) as [derived | cause] eqn:Ed.
        -- destruct (createWalletFromPrivateKey _) as [w | cause] eqn:Ew.
           ++ destruct (streq _ _) eqn:Es; [ discriminate | ].
              exists (KeyDerivationError (js "Address mismatch during recovery")).
              split; [ cbn [outcome snd] in H; congruence | ].
              split; [ cbn [outcome snd] in H; injection H as <-; reflexivity | ].
              right. exists claims. split; [ reflexivity | ].
              right. exists derived. split; [ reflexivity | ].
              right. exists w. split; [ exact Ew | ]. split; [ | reflexivity ].
              intros Heq. rewrite Heq, streq_refl in Es. discriminate.
           ++ injection H as <-. exists cause.
              split; [ reflexivity | ]. split; [ reflexivity | ].
              right. exists claims. split; [ reflexivity | ].
              right. exists derived. split; [ reflexivity | ]. left. exact Ew.
        -- injection H as <-. exists cause.
           split; [ reflexivity | ]. split; [ reflexivity | ].
           right. exists claims. split; [ reflexivity | ]. now left.
      * rewrite (recoverWallet_extraction_failed _ _ _ _ _ Hcfg Hex) in H.
        injection H as <-. exists cause.
        split; [ reflexivity | ]. split; [ reflexivity | ].
        left. exact (extractClaims_failure _ _ _ Hex).
  - intros pk expose e H. rewrite createSignerFromPrivateKey_cases in H.
    destruct (createWalletFromPrivateKey pk) as [w | cause]; [ discriminate | ].
    injection H as <-. exists cause. repeat split.
Qed.

Lemma api_error_kinds_witness :
  exists cause : JsError,
    Sample.extractClaim Sample.malformed = Err cause
    /\ outcome (Sample.register
                  Sample.ready (js "unused")
                  (Sample.registerParams [Sample.malformed; Sample.github] 2 None None))
       = Err (KeyDerivationError (message cause))
    /\ message (KeyDerivationError (message cause))
       = js "Key derivation failed: Invalid google token: Invalid JWT format".
Proof.
  eassert (Hrun : outcome (registerWallet
                             (P := Sample.platform) (C := Sample.collaborators)
                             Sample.ready (js "unused")
                             (mkRegisterParams
                                (C := Sample.collaborators)
                                [Sample.malformed; Sample.github] 2 None None))
                  = Err _) by (vm_compute; reflexivity).
  destruct (proj1 (api_error_kinds Sample.platform Sample.collaborators Sample.ready)
                  _ _ _ Hrun) as [[H _] | [[H _] | (cause & H & Hm & Hwhy)]];
    try discriminate H.
  exists cause. unfold Sample.register, Sample.registerParams. rewrite Hrun.
  assert (Hcause : message cause = js "Invalid google token: Invalid JWT format")
    by (injection H as H; symmetry; exact H).
  split; [ | split; [ now rewrite H | ] ].
  - destruct Hwhy as [(good & bad & rest & Eids & Hgood & Hbad)
                     | (claims & Hclaims & _)];
      [ | vm_compute in Hclaims; discriminate Hclaims ].
    cbn [regIdentities] in Eids.
    destruct good as [ | g good].
    + cbn [app] in Eids. injection Eids as <- _. exact Hbad.
    + cbn [app] in Eids. injection Eids as <- _.
      apply Forall_inv in Hgood. destruct Hgood as [claim Hclaim].
      vm_compute in Hclaim. discriminate Hclaim.
  - rewrite Hcause. vm_compute. reflexivity.
Defined.

(** X14.  A wallet whose address is not, up to letter case, the address that
    [deriveWalletKey] computed ends [recoverWallet] with a
    [KeyDerivationError]: the error thrown for the mismatch is caught by the
    [catch] of the same function and wrapped again, so that the message the
    caller reads carries the prefix twice. *)
Theorem address_mismatch_error
        (P : Platform) (C : Collaborators)
        (st : KeyWeaverState) (cfg : KeyWeaverConfig)
        (params : RecoverWalletParams)
        (t1 : list Event) (claims : list IdentityClaim)
        (derived : DerivedKeyResult) (w : Wallet)
        (Hinit : getKeyWeaverConfig st = Ok cfg)
        (Hex : extractClaims (recIdentities params) = (t1, Ok claims))
        (Hreached : (recThreshold params
                     <= Z.of_nat (countMatchingClaims
                                    (recCommitments params)
                                    (normalizeSalt (recSalt params)) claims))%Z)
        (Hderive : deriveWalletKey
                     (mkParams (map toTypedCommitment (recCommitments params))
                               (recThreshold params)
                               (normalizeSalt (recSalt params))) = Ok derived)
        (Hwallet : createWalletFromPrivateKey (privateKey derived) = Ok w)
        (Hdiff : toLowerCase (walletAddress w) <> toLowerCase (address derived)) :
  outcome (recoverWallet st params)
  = Err (KeyDerivationError
           (js "Key derivation failed: Address mismatch during recovery"))
  /\ message (KeyDerivationError
                (js "Key derivation failed: Address mismatch during recovery"))
     = js "Key derivation failed: Key derivation failed: Address mismatch during recovery"
  /\ In EvCreateWallet (trace (recoverWallet st params)).
Proof.
  destruct (recoverWallet_extracted _ _ _ _ _ Hinit Hex) as (t2 & _ & E).
  rewrite E. clear E.
  replace (Z.of_nat _ >=? recThreshold params)%Z with true
    by (symmetry; rewrite Z.geb_leb; apply Z.leb_le; exact Hreached).
  rewrite Hderive, Hwallet.
  destruct (streq _ _) eqn:Es; [ apply streq_true in Es; contradiction | ].
  split; [ reflexivity | ]. split; [ reflexivity | ].
  cbn [trace fst]. rewrite !in_app_iff. right. right. right. now left.
Qed.

Lemma address_mismatch_error_witness :
  outcome (recoverWallet (P := Sample.platform) (C := strayWallet)
             Sample.ready
             (mkRecoverParams (C := strayWallet) [Sample.google; Sample.github]
                              Sample.stored Sample.storedSalt 2 None))
  = Err (KeyDerivationError
           (js "Key derivation failed: Address mismatch during recovery")).
Proof.
  eassert (Hex : extractClaims (C := strayWallet) [Sample.google; Sample.github]
                 = (_, Ok _)) by (vm_compute; reflexivity).
  eassert (Hderive : deriveWalletKey (P := Sample.platform)
                       (mkParams (map (toTypedCommitment (P := Sample.platform))
                                      Sample.stored)
                                 2 (normalizeSalt (P := Sample.platform)
                                                  Sample.storedSalt))
                     = Ok _) by (vm_compute; reflexivity).
  exact (proj1 (address_mismatch_error
                  Sample.platform strayWallet Sample.ready
                  (mkConfig (Some (js "v1")))
                  (mkRecoverParams (C := strayWallet) [Sample.google; Sample.github]
                                   Sample.stored Sample.storedSalt 2 None)
                  _ _ _ (mkWallet (js "0x000000000000000000000000000000000000dead"))
                  eq_refl Hex ltac:(vm_compute; discriminate) Hderive eq_refl
                  ltac:(vm_compute; discriminate))).
Defined.

(** ** The signer *)

(** X15.  [createSignerFromPrivateKey] needs no initialisation and makes
    one call, to the wallet constructor.  Where the wallet made from a key
    carries the address recomputed from it: the signer made from a key that
    [deriveWalletKey] returned has the address returned with it; so the
    signer made from the private key in a result of [registerWallet] has the
    registered address. *)
Theorem signer_of_registered_key
        (P : Platform) (C : Collaborators)
        (Hwallet : WalletRecomputesAddress P C) (expose : option bool) :
  let exposed := match expose with Some b => b | None => false end in
  (forall (params : KeyDerivationParams) (r : DerivedKeyResult),
      deriveWalletKey params = Ok r ->
      createSignerFromPrivateKey (privateKey r) expose
      = ([EvCreateWallet],
         Ok (mkSigner (mkWallet (address r))
                      (if exposed then Some (privateKey r) else None))))
  /\ (forall (st : KeyWeaverState) (rnd : jsstring) (params : RegisterWalletParams)
             (tr : list Event) (reg : RegisterWalletResult) (pk : jsstring),
         registerWallet st rnd params = (tr, Ok reg) ->
         resPrivateKey reg = Some pk ->
         createSignerFromPrivateKey pk expose
         = ([EvCreateWallet],
            Ok (mkSigner (mkWallet (resAddress reg))
                         (if exposed then Some pk else None)))).
Proof.
  intros exposed.
  assert (Hderived : forall params r,
             deriveWalletKey params = Ok r ->
             createSignerFromPrivateKey (privateKey r) expose
             = ([EvCreateWallet],
                Ok (mkSigner (mkWallet (address r))
                             (if exposed then Some (privateKey r) else None)))).
  { intros params r H. destruct (deriveWalletKey_ok _ _ H) as (_ & _ & Ha).
    now rewrite createSignerFromPrivateKey_cases, (Hwallet _ _ Ha). }
  split; [ exact Hderived | ].
  intros st rnd params tr reg pk Hreg Hpk.
  destruct (registerWallet_ok _ _ _ _ _ Hreg)
    as (_ & derived & _ & _ & Hd & Ha & Hp).
  rewrite Hp in Hpk.
  destruct (match regExposePrivateKey params with Some b => b | None => false end);
    [ | discriminate ].
  injection Hpk as <-. rewrite Ha. now apply (Hderived _ _ Hd).
Qed.

Lemma signer_of_registered_key_witness :
  WalletRecomputesAddress Sample.platform Sample.collaborators
  /\ exists (reg : RegisterWalletResult) (pk : jsstring),
      outcome Sample.registration = Ok reg
      /\ resPrivateKey reg = Some pk
      /\ createSignerFromPrivateKey (C := Sample.collaborators) pk None
         = ([EvCreateWallet], Ok (mkSigner (mkWallet (resAddress reg)) None)).
Proof.
  split; [ exact sample_wallet_recomputes_address | ].
  eassert (Hreg : registerWallet
                    (P := Sample.platform) (C := Sample.collaborators)
                    Sample.ready (js "unused")
                    (mkRegisterParams
                       (C := Sample.collaborators)
                       [Sample.google; Sample.github; Sample.passkey] 2
                       (Some (js "test-salt-123")) (Some true))
                  = (_, Ok _)) by (vm_compute; reflexivity).
  match type of Hreg with
  | _ = (?tr, Ok ?reg) =>
      exists reg; eexists;
      split; [ vm_compute; reflexivity | ];
      split; [ reflexivity | ];
      exact (proj2 (signer_of_registered_key
                      Sample.platform Sample.collaborators
                      sample_wallet_recomputes_address None)
                   Sample.ready (js "unused") _ tr reg _ Hreg eq_refl)
  end.
Defined.

(** ** Recovery *)

Section RecoveryFacts.
Context {P : Platform} {C : Collaborators}.

Lemma Permutation_filter_length {A} (f : A -> bool) (l l' : list A) :
  Permutation l l' -> length (filter f l) = length (filter f l').
Proof.
  induction 1 as [ | x l l' _ IH | x y l | l l' l'' _ IH1 _ IH2 ]; cbn [filter].
  - reflexivity.
  - destruct (f x); cbn [length]; now rewrite IH.
  - destruct (f x), (f y); reflexivity.
  - now rewrite IH1.
Qed.

Lemma extractedClaims_app (ids ids' : list SupportedIdentity) :
  extractedClaims (ids ++ ids') = extractedClaims ids ++ extractedClaims ids'.
Proof. apply flat_map_app. Qed.

Lemma countMatchingClaims_app (stored : list Commitment) (saltHex : jsstring)
      (claims claims' : list IdentityClaim) :
  countMatchingClaims stored saltHex (claims ++ claims')
  = (countMatchingClaims stored saltHex claims
     + countMatchingClaims stored saltHex claims')%nat.
Proof. unfold countMatchingClaims. now rewrite filter_app, length_app. Qed.

(** Every run of [recoverWallet] on proofs that parse. *)
Lemma recoverWallet_parsed (st : KeyWeaverState) (cfg : KeyWeaverConfig)
      (ids : list SupportedIdentity) (stored : list Commitment)
      (saltText : jsstring) (K : Z) (expose : option bool) :
  getKeyWeaverConfig st = Ok cfg -> Forall parses ids ->
  let saltHex := normalizeSalt saltText in
  let m := countMatchingClaims stored saltHex (extractedClaims ids) in
  let exposed := match expose with Some b => b | None => false end in
  exists t2 : list Event,
    Forall (eq EvValidate) t2
    /\ recoverWallet st (mkRecoverParams ids stored saltText K expose)
       = if (Z.of_nat m >=? K)%Z then
           match deriveWalletKey
                   (mkParams (map toTypedCommitment stored) K saltHex) with
           | Err e =>
               (repeat EvExtract (length ids) ++ t2 ++ [EvDerive],
                Err (KeyDerivationError (message e)))
           | Ok derived =>
               match createWalletFromPrivateKey (privateKey derived) with
               | Err e =>
                   (repeat EvExtract (length ids) ++ t2 ++ [EvDerive; EvCreateWallet],
                    Err (KeyDerivationError (message e)))
               | Ok w =>
                   if streq (toLowerCase (walletAddress w))
                            (toLowerCase (address derived))
                   then
                     (repeat EvExtract (length ids) ++ t2 ++ [EvDerive; EvCreateWallet],
                      Ok (mkRecoverResult
                            (Some w) m true
                            (if exposed then Some (privateKey derived) else None)))
                   else
                     (repeat EvExtract (length ids) ++ t2 ++ [EvDerive; EvCreateWallet],
                      Err (KeyDerivationError
                             (message (KeyDerivationError
                                         (js "Address mismatch during recovery")))))
               end
           end
         else (repeat EvExtract (length ids) ++ t2,
               Ok (mkRecoverResult None m false None)).
Proof.
  intros Hcfg Hparse.
  apply (recoverWallet_extracted
           st (mkRecoverParams ids stored saltText K expose) cfg _ _ Hcfg).
  now apply extractClaims_all_ok.
Qed.

(** On proofs that parse, how [recoverWallet] ends depends on them through
    the number of matching claims only. *)
Lemma recoverWallet_outcome_by_count (st : KeyWeaverState)
      (ids ids' : list SupportedIdentity) (stored : list Commitment)
      (saltText : jsstring) (K : Z) (expose : option bool) :
  Forall parses ids -> Forall parses ids' ->
  countMatchingClaims stored (normalizeSalt saltText) (extractedClaims ids)
  = countMatchingClaims stored (normalizeSalt saltText) (extractedClaims ids') ->
  outcome (recoverWallet st (mkRecoverParams ids stored saltText K expose))
  = outcome (recoverWallet st (mkRecoverParams ids' stored saltText K expose)).
Proof.
  intros Hids Hids' Hcount.
  destruct (getKeyWeaverConfig_cases st) as [Hcfg | [cfg Hcfg]];
    [ now rewrite !(recoverWallet_not_initialized _ _ _ Hcfg) | ].
  destruct (recoverWallet_parsed st cfg ids stored saltText K expose Hcfg Hids)
    as (t2 & _ & E).
  destruct (recoverWallet_parsed st cfg ids' stored saltText K expose Hcfg Hids')
    as (t2' & _ & E').
  rewrite E, E', Hcount. clear E E'.
  destruct (Z.of_nat _ >=? K)%Z; [ | reflexivity ].
  destruct (deriveWalletKey _) as [derived | e]; [ | reflexivity ].
  destruct (createWalletFromPrivateKey _) as [w | e]; [ | reflexivity ].
  destruct (streq _ _); reflexivity.
Qed.

Lemma calls_app (ev : Event) (t t' : list Event) :
  calls ev (t ++ t') = (calls ev t + calls ev t')%nat.
Proof. unfold calls. now rewrite filter_app, length_app. Qed.

Lemma calls_uniform (ev ev' : Event) (t : list Event) :
  Forall (eq ev) t ->
  calls ev' t = if sameEvent ev' ev then length t else 0%nat.
Proof.
  unfold calls. induction 1 as [ | x t <- _ IH]; cbn [filter].
  - now destruct (sameEvent ev' ev).
  - destruct (sameEvent ev' ev); cbn [length]; now rewrite IH.
Qed.

Lemma Forall_repeat_same {A} (x : A) (n : nat) : Forall (eq x) (repeat x n).
Proof. induction n; cbn [repeat]; now constructor. Qed.



(** What a stored commitment is read for: its text by the validator, and
    its provider and its text by the key derivation. *)
Lemma findMatching_view (claim : IdentityClaim) (saltHex : jsstring)
      (stored : list Commitment) :
  forall stored' : list Commitment,
    map storedView stored = map storedView stored' ->
    trace (findMatching claim saltHex stored)
    = trace (findMatching claim saltHex stored')
    /\ exists o o' : option Commitment,
        outcome (findMatching claim saltHex stored) = Ok o
        /\ outcome (findMatching claim saltHex stored') = Ok o'
        /\ (o = None <-> o' = None).
Proof.
  induction stored as [ | s rest IH]; intros [ | s' rest'] Hview;
    try discriminate.
  - split; [ reflexivity | ]. exists None, None. now repeat split.
  - cbn [map] in Hview.
    assert (Hhex : commitmentHex s = commitmentHex s')
      by (apply (f_equal (fun l => match l with
                                   | v :: _ => snd v
                                   | [] => []
                                   end)) in Hview; exact Hview).
    assert (Hrest : map storedView rest = map storedView rest')
      by (now injection Hview).
    cbn [findMatching]. unfold mbind, call. rewrite Hhex.
    destruct (validateCommitment claim saltHex (commitmentHex s')).
    + split; [ reflexivity | ]. exists (Some s), (Some s'). cbn.
      repeat split; discriminate.
    + destruct (IH rest' Hrest) as (Ht & o & o' & Eo & Eo' & Hoo).
      destruct (findMatching claim saltHex rest) as [t r].
      destruct (findMatching claim saltHex rest') as [t' r'].
      cbn in *. subst. split; [ reflexivity | ]. exists o, o'.
      split; [ reflexivity | ]. split; [ reflexivity | exact Hoo ].
Qed.

Lemma matchClaims_view (claims : list IdentityClaim) (saltHex : jsstring)
      (stored stored' : list Commitment) :
  map storedView stored = map storedView stored' ->
  forall (matched matched' : list Commitment) (count : nat),
  exists (t : list Event) (result result' : list Commitment) (n : nat),
    matchClaims claims stored saltHex matched count = (t, Ok (result, n))
    /\ matchClaims claims stored' saltHex matched' count = (t, Ok (result', n)).
Proof.
  intros Hview. induction claims as [ | claim rest IH]; intros matched matched' count.
  - exists [], matched, matched', count. split; reflexivity.
  - cbn [matchClaims]. unfold mbind.
    destruct (findMatching_view claim saltHex stored stored' Hview)
      as (Ht & o & o' & Eo & Eo' & Hoo).
    destruct (findMatching claim saltHex stored) as [t0 r0].
    destruct (findMatching claim saltHex stored') as [t0' r0'].
    cbn in Ht, Eo, Eo'. subst.
    destruct o as [m | ], o' as [m' | ];
      try (exfalso; destruct Hoo as [H1 H2];
           first [ discriminate (H1 eq_refl) | discriminate (H2 eq_refl) ]).
    + destruct (IH (matched ++ [m]) (matched' ++ [m']) (S count))
        as (t & res & res' & n & E & E').
      rewrite E, E'. exists (t0' ++ t), res, res', n. split; reflexivity.
    + destruct (IH matched matched' count) as (t & res & res' & n & E & E').
      rewrite E, E'. exists (t0' ++ t), res, res', n. split; reflexivity.
Qed.

End RecoveryFacts.

(** X16.  [recoverWallet] takes the threshold from its caller and does not
    ask it to be positive.  Given that SHA-256 yields 32 bytes, that
    [toLowerCase] lower-cases ASCII and that the wallet made from a key
    carries the address recomputed from it: against the commitments and the
    salt that a registration returned, a call with no identity at all and a
    threshold of 0 or below reports success with [matchedCount] 0 and
    returns the wallet of the registered address (and the registered
    private key, when asked to expose it), having called the key derivation
    and the wallet constructor only: no proof is extracted and no
    commitment validated. *)
Theorem recoverWallet_nonpositive_threshold
        (P : Platform) (C : Collaborators)
        (Hsha : Sha256Length P) (Hlower : ToLowerCaseAscii P)
        (Hwallet : WalletRecomputesAddress P C)
        (st : KeyWeaverState) (rnd : jsstring) (regParams : RegisterWalletParams)
        (tr : list Event) (reg : RegisterWalletResult)
        (Hreg : registerWallet st rnd regParams = (tr, Ok reg))
        (st' : KeyWeaverState) (cfg : KeyWeaverConfig)
        (Hinit : getKeyWeaverConfig st' = Ok cfg)
        (K : Z) (HK : (K <= 0)%Z) (expose : option bool) :
  let exposed := match expose with Some b => b | None => false end in
  exists pk : jsstring,
    deriveWalletKey (mkParams (map toTypedCommitment (resCommitments reg))
                              (regThreshold regParams) (resSalt reg))
    = Ok (mkDerived pk (resAddress reg))
    /\ recoverWallet st' (mkRecoverParams [] (resCommitments reg) (resSalt reg)
                                          K expose)
       = ([EvDerive; EvCreateWallet],
          Ok (mkRecoverResult (Some (mkWallet (resAddress reg))) 0 true
                              (if exposed then Some pk else None))).
Proof.
  intros exposed.
  destruct (registerWallet_ok _ _ _ _ _ Hreg)
    as (rawSalt & [pk addr] & _ & Hs & Hd & Ha & _).
  cbn [privateKey address] in Ha. subst addr.
  assert (Hnorm : normalizeSalt (resSalt reg) = resSalt reg)
    by (rewrite Hs; now apply normalizeSalt_idempotent).
  pose proof (deriveWalletKey_ok _ _ Hd) as (HK0 & _ & Haddr).
  cbn [commitments threshold privateKey address] in HK0, Haddr.
  assert (Hd' : deriveWalletKey (mkParams (map toTypedCommitment (resCommitments reg))
                                          K (resSalt reg))
                = Ok (mkDerived pk (resAddress reg))).
  { rewrite <- Hd. apply deriveWalletKey_threshold_independent; lia. }
  exists pk. split; [ exact Hd | ].
  unfold recoverWallet. rewrite Hinit.
  cbn [mbind app recIdentities recCommitments recSalt recThreshold
       recExposePrivateKey extractClaims mapM mret matchClaims tryCatch snd].
  rewrite Hnorm.
  replace (Z.of_nat 0 >=? K)%Z with true
    by (symmetry; rewrite Z.geb_leb; apply Z.leb_le; cbn; lia).
  cbn [negb]. unfold call, mbind. rewrite Hd'. cbn [privateKey address].
  rewrite (Hwallet _ _ Haddr). cbn [walletAddress].
  rewrite streq_refl. reflexivity.
Qed.

Lemma recoverWallet_nonpositive_threshold_witness :
  exists (reg : RegisterWalletResult) (pk : jsstring),
    outcome Sample.registration = Ok reg
    /\ resPrivateKey reg = Some pk
    /\ Sample.recover Sample.ready
         (Sample.recoverParams [] (resCommitments reg) (resSalt reg) 0 (Some true))
       = ([EvDerive; EvCreateWallet],
          Ok (mkRecoverResult (Some (mkWallet (resAddress reg))) 0 true (Some pk))).
Proof.
  eassert (Hreg : registerWallet
                    (P := Sample.platform) (C := Sample.collaborators)
                    Sample.ready (js "unused")
                    (mkRegisterParams
                       (C := Sample.collaborators)
                       [Sample.google; Sample.github; Sample.passkey] 2
                       (Some (js "test-salt-123")) (Some true))
                  = (_, Ok _)) by (vm_compute; reflexivity).
  match type of Hreg with
  | _ = (?tr, Ok ?reg) =>
      destruct (recoverWallet_nonpositive_threshold
                  Sample.platform Sample.collaborators
                  sample_sha256_length sample_toLowerCase_ascii
                  sample_wallet_recomputes_address
                  Sample.ready (js "unused") _ tr reg Hreg
                  Sample.ready (mkConfig (Some (js "v1"))) eq_refl
                  0%Z ltac:(lia) (Some true))
        as (pk & Hd & Hrec);
      exists reg, pk
  end.
  split; [ vm_compute; reflexivity | ].
  split.
  - apply (f_equal (fun r => match r with
                             | Ok d => Some (privateKey d)
                             | Err _ => None
                             end)) in Hd.
    cbn [privateKey] in Hd. rewrite <- Hd. vm_compute. reflexivity.
  - exact Hrec.
Defined.

(** X17.  Fewer identities than the threshold never recover and never
    throw.  In an initialised system, when the identities passed all parse
    and are fewer than the threshold, [recoverWallet] returns, whatever the
    stored commitments and the salt, a result with [success] false, the
    empty wallet, no private key and a [matchedCount] of at most the number
    of identities; the key derivation and the wallet constructor are not
    called. *)
Theorem recoverWallet_too_few_identities
        (P : Platform) (C : Collaborators)
        (st : KeyWeaverState) (cfg : KeyWeaverConfig)
        (ids : list SupportedIdentity) (stored : list Commitment)
        (saltText : jsstring) (K : Z) (expose : option bool)
        (Hinit : getKeyWeaverConfig st = Ok cfg)
        (Hparse : Forall parses ids)
        (Hfew : (Z.of_nat (length ids) < K)%Z) :
  exists (tr : list Event) (m : nat),
    recoverWallet st (mkRecoverParams ids stored saltText K expose)
    = (tr, Ok (mkRecoverResult None m false None))
    /\ (m <= length ids)%nat
    /\ calls EvDerive tr = 0%nat
    /\ calls EvCreateWallet tr = 0%nat.
Proof.
  destruct (recoverWallet_parsed st cfg ids stored saltText K expose Hinit Hparse)
    as (t2 & Ht2 & E).
  pose proof (countMatchingClaims_le stored (normalizeSalt saltText)
                                     (extractedClaims ids)) as Hle.
  assert (Hlen : length (extractedClaims ids) = length ids).
  { apply extractClaims_length. now rewrite (extractClaims_all_ok ids Hparse). }
  replace (Z.of_nat _ >=? K)%Z with false in E
    by (symmetry; rewrite Z.geb_leb; apply Z.leb_gt; lia).
  eexists _, _. split; [ exact E | ]. split; [ lia | ].
  rewrite !calls_app, !(calls_uniform EvValidate _ _ Ht2).
  rewrite !(calls_uniform EvExtract) by apply Forall_repeat_same.
  split; reflexivity.
Qed.

Lemma recoverWallet_too_few_identities_witness :
  exists tr : list Event,
    Sample.recover Sample.ready
                   (Sample.recoverParams [Sample.google]
                                         Sample.stored Sample.storedSalt 2 None)
    = (tr, Ok (mkRecoverResult None 1 false None))
    /\ calls EvDerive tr = 0%nat.
Proof.
  assert (Hparse : Forall (parses (C := Sample.collaborators)) [Sample.google])
    by (constructor; [ eexists; reflexivity | constructor ]).
  destruct (recoverWallet_too_few_identities
              Sample.platform Sample.collaborators Sample.ready
              (mkConfig (Some (js "v1")))
              [Sample.google] Sample.stored Sample.storedSalt 2 None
              eq_refl Hparse ltac:(cbn; lia))
    as (tr & m & Hrun & _ & Hcalls & _).
  exists tr. split; [ | exact Hcalls ].
  unfold Sample.recover, Sample.recoverParams. rewrite Hrun.
  assert (Hm : Some m = Some 1%nat).
  { apply (f_equal (fun x => match snd x with
                             | Ok r => Some (matchedCount r)
                             | Err _ => None
                             end)) in Hrun.
    cbn [snd matchedCount] in Hrun. rewrite <- Hrun. vm_compute. reflexivity. }
  injection Hm as ->. reflexivity.
Defined.

(** X18.  The order in which the identities are passed does not matter to
    how [recoverWallet] ends, as long as they all parse: the same result or
    the same error for any reordering of them. *)
Theorem recoverWallet_order_of_identities
        (P : Platform) (C : Collaborators) (st : KeyWeaverState)
        (ids ids' : list SupportedIdentity) (stored : list Commitment)
        (saltText : jsstring) (K : Z) (expose : option bool)
        (Hperm : Permutation ids ids')
        (Hparse : Forall parses ids) :
  outcome (recoverWallet st (mkRecoverParams ids stored saltText K expose))
  = outcome (recoverWallet st (mkRecoverParams ids' stored saltText K expose)).
Proof.
  apply recoverWallet_outcome_by_count; [ exact Hparse | | ].
  - eapply Permutation_Forall; eassumption.
  - unfold countMatchingClaims. apply Permutation_filter_length.
    unfold extractedClaims. now apply Permutation_flat_map.
Qed.

Lemma recoverWallet_order_of_identities_witness :
  outcome (Sample.recover Sample.ready
             (Sample.recoverParams [Sample.google; Sample.passkey]
                                   Sample.stored Sample.storedSalt 2 None))
  = outcome (Sample.recover Sample.ready
               (Sample.recoverParams [Sample.passkey; Sample.google]
                                     Sample.stored Sample.storedSalt 2 None)).
Proof.
  apply (recoverWallet_order_of_identities
           Sample.platform Sample.collaborators Sample.ready
           [Sample.google; Sample.passkey] [Sample.passkey; Sample.google]).
  - apply perm_swap.
  - repeat constructor; eexists; reflexivity.
Defined.

(** X19.  Passing more identities, or a lower threshold, never turns a
    successful recovery into a failed one.  When [recoverWallet] returned a
    result that reports success, the call with further identities that
    parse appended, and with the same or a lower threshold, returns the
    same wallet and the same private key, with [success] true and a
    [matchedCount] that is not smaller. *)
Theorem recoverWallet_more_identities_lower_threshold
        (P : Platform) (C : Collaborators) (st : KeyWeaverState)
        (ids extra : list SupportedIdentity) (stored : list Commitment)
        (saltText : jsstring) (K K' : Z) (expose : option bool)
        (r : RecoverWalletResult)
        (Hrun : outcome (recoverWallet st (mkRecoverParams ids stored saltText
                                                           K expose)) = Ok r)
        (Hsuccess : success r = true)
        (Hextra : Forall parses extra)
        (HK : (K' <= K)%Z) :
  exists m' : nat,
    (matchedCount r <= m')%nat
    /\ outcome (recoverWallet st (mkRecoverParams (ids ++ extra) stored saltText
                                                  K' expose))
       = Ok (mkRecoverResult (wallet r) m' true (recoveredPrivateKey r)).
Proof.
  destruct (getKeyWeaverConfig_cases st) as [Hcfg | [cfg Hcfg]];
    [ rewrite (recoverWallet_not_initialized _ _ _ Hcfg) in Hrun; discriminate | ].
  assert (Hids : Forall parses ids).
  { destruct (extractClaims ids) as [t1 [claims | e]] eqn:Hex.
    - apply (extractClaims_ok_all _ claims). now rewrite Hex.
    - rewrite (recoverWallet_extraction_failed
                 st (mkRecoverParams ids stored saltText K expose) _ _ _ Hcfg Hex)
        in Hrun.
      discriminate. }
  destruct (recoverWallet_parsed st cfg ids stored saltText K expose Hcfg Hids)
    as (t2 & _ & E).
  destruct (recoverWallet_parsed st cfg (ids ++ extra) stored saltText K' expose Hcfg
                                 ltac:(apply Forall_app; now split))
    as (t2' & _ & E').
  rewrite E in Hrun. rewrite E'. clear E E'.
  rewrite extractedClaims_app, countMatchingClaims_app.
  set (m := countMatchingClaims stored (normalizeSalt saltText) (extractedClaims ids))
    in *.
  set (mx := countMatchingClaims stored (normalizeSalt saltText)
                                 (extractedClaims extra)).
  destruct (Z.of_nat m >=? K)%Z eqn:Em;
    [ | injection Hrun as <-; discriminate ].
  rewrite Z.geb_leb in Em. apply Z.leb_le in Em.
  replace (Z.of_nat (m + mx) >=? K')%Z with true
    by (symmetry; rewrite Z.geb_leb; apply Z.leb_le; lia).
  destruct (deriveWalletKey (mkParams _ K _)) as [derived | e] eqn:Hd;
    [ | discriminate ].
  pose proof (deriveWalletKey_ok _ _ Hd) as (HKN & _).
  cbn [commitments threshold] in HKN.
  rewrite (deriveWalletKey_threshold_independent _ K' K) by lia.
  rewrite Hd.
  destruct (createWalletFromPrivateKey _) as [w | e]; [ | discriminate ].
  destruct (streq _ _); [ | discriminate ].
  injection Hrun as <-. cbn [matchedCount wallet recoveredPrivateKey outcome snd].
  exists (m + mx)%nat. split; [ lia | reflexivity ].
Qed.

Lemma recoverWallet_more_identities_lower_threshold_witness :
  exists (r : RecoverWalletResult) (m' : nat),
    outcome (Sample.recover Sample.ready
               (Sample.recoverParams [Sample.google; Sample.github]
                                     Sample.stored Sample.storedSalt 2 None)) = Ok r
    /\ success r = true
    /\ outcome (Sample.recover Sample.ready
                  (Sample.recoverParams [Sample.google; Sample.github; Sample.passkey]
                                        Sample.stored Sample.storedSalt 1 None))
       = Ok (mkRecoverResult (wallet r) m' true (recoveredPrivateKey r)).
Proof.
  eassert (Hrun : outcome (recoverWallet
                             (P := Sample.platform) (C := Sample.collaborators)
                             Sample.ready
                             (mkRecoverParams
                                (C := Sample.collaborators)
                                [Sample.google; Sample.github]
                                Sample.stored Sample.storedSalt 2 None))
                  = Ok _) by (vm_compute; reflexivity).
  assert (Hextra : Forall (parses (C := Sample.collaborators)) [Sample.passkey])
    by (constructor; [ eexists; reflexivity | constructor ]).
  match type of Hrun with
  | _ = Ok ?r =>
      destruct (recoverWallet_more_identities_lower_threshold
                  Sample.platform Sample.collaborators Sample.ready
                  [Sample.google; Sample.github] [Sample.passkey]
                  Sample.stored Sample.storedSalt 2 1 None r
                  Hrun eq_refl Hextra ltac:(lia)) as (m' & _ & Hmore);
      exists r, m'
  end.
  split; [ vm_compute; reflexivity | ]. split; [ reflexivity | exact Hmore ].
Defined.

(** X20.  Of a stored commitment [recoverWallet] reads the provider name
    and the commitment text and nothing else: two stored lists that agree on
    these, position by position, make it run alike -- the same calls, the
    same result or error -- whatever else the stored claims hold, the stable
    identifier in particular. *)
Theorem recoverWallet_reads_provider_and_commitment
        (P : Platform) (C : Collaborators) (st : KeyWeaverState)
        (ids : list SupportedIdentity) (stored stored' : list Commitment)
        (saltText : jsstring) (K : Z) (expose : option bool)
        (Hview : map storedView stored = map storedView stored') :
  recoverWallet st (mkRecoverParams ids stored saltText K expose)
  = recoverWallet st (mkRecoverParams ids stored' saltText K expose).
Proof.
  assert (Htyped : map toTypedCommitment stored = map toTypedCommitment stored').
  { transitivity (map (fun v => mkTyped (trim (toLowerCase (fst v))) (snd v))
                      (map storedView stored));
      [ now rewrite map_map | rewrite Hview; now rewrite map_map ]. }
  unfold recoverWallet.
  destruct (getKeyWeaverConfig st) as [cfg | e]; [ | reflexivity ].
  cbn [mbind app recIdentities recCommitments recSalt recThreshold
       recExposePrivateKey].
  destruct (extractClaims ids) as [t1 [claims | e]]; [ | reflexivity ].
  cbn [mbind].
  destruct (matchClaims_view claims (normalizeSalt saltText) stored stored' Hview
                             [] [] 0)
    as (t & res & res' & n & E & E').
  rewrite E, E'. cbn [mbind snd]. now rewrite Htyped.
Qed.

Lemma recoverWallet_reads_provider_and_commitment_witness :
  let blank := fun c : Commitment =>
                 mkCommitment (mkClaim (claimProvider (claim c)) []) (commitmentHex c) in
  map storedView Sample.stored = map storedView (map blank Sample.stored)
  /\ Sample.stored <> map blank Sample.stored
  /\ Sample.recover Sample.ready
       (Sample.recoverParams [Sample.google; Sample.github]
                             Sample.stored Sample.storedSalt 2 None)
     = Sample.recover Sample.ready
         (Sample.recoverParams [Sample.google; Sample.github]
                               (map blank Sample.stored) Sample.storedSalt 2 None).
Proof.
  intros blank.
  assert (Hview : map storedView Sample.stored
                  = map storedView (map blank Sample.stored))
    by (rewrite map_map; reflexivity).
  split; [ exact Hview | ]. split; [ vm_compute; discriminate | ].
  exact (recoverWallet_reads_provider_and_commitment
           Sample.platform Sample.collaborators Sample.ready
           [Sample.google; Sample.github] Sample.stored (map blank Sample.stored)
           Sample.storedSalt 2 None Hview).
Defined.

(** ** Nothing stored *)

Lemma matchClaims_nothing_stored {C : Collaborators} (claims : list IdentityClaim)
      (saltHex : jsstring) :
  forall (matched : list Commitment) (count : nat),
    matchClaims claims [] saltHex matched count = ([], Ok (matched, count)).
Proof.
  induction claims as [ | claim rest IH]; intros matched count; [ reflexivity | ].
  cbn [matchClaims findMatching]. unfold mbind, mret. now rewrite IH.
Qed.

(** X21.  Against an empty list of stored commitments nothing matches.  In
    an initialised system, when the identities passed all parse,
    [recoverWallet] then makes no call but one to the extractor per
    identity, and with a threshold of 1 or more returns [success] false with
    [matchedCount] 0, however many identities are passed. *)
Theorem recoverWallet_nothing_stored
        (P : Platform) (C : Collaborators)
        (st : KeyWeaverState) (cfg : KeyWeaverConfig)
        (ids : list SupportedIdentity) (saltText : jsstring) (K : Z)
        (expose : option bool)
        (Hinit : getKeyWeaverConfig st = Ok cfg)
        (Hparse : Forall parses ids)
        (HK : (1 <= K)%Z) :
  recoverWallet st (mkRecoverParams ids [] saltText K expose)
  = (repeat EvExtract (length ids), Ok (mkRecoverResult None 0 false None)).
Proof.
  unfold recoverWallet. rewrite Hinit.
  cbn [mbind app recIdentities recCommitments recSalt recThreshold
       recExposePrivateKey].
  rewrite (extractClaims_all_ok ids Hparse). cbn [mbind].
  rewrite matchClaims_nothing_stored. cbn [mbind snd].
  replace (Z.of_nat 0 >=? K)%Z with false
    by (symmetry; rewrite Z.geb_leb; apply Z.leb_gt; cbn; lia).
  cbn [negb tryCatch mret]. now rewrite !app_nil_r.
Qed.

Lemma recoverWallet_nothing_stored_witness :
  Sample.recover Sample.ready
    (Sample.recoverParams [Sample.google; Sample.github; Sample.passkey] []
                          (js "test-salt-123") 1 None)
  = ([EvExtract; EvExtract; EvExtract], Ok (mkRecoverResult None 0 false None)).
Proof.
  apply (recoverWallet_nothing_stored
           Sample.platform Sample.collaborators Sample.ready
           (mkConfig (Some (js "v1")))
           [Sample.google; Sample.github; Sample.passkey] (js "test-salt-123") 1 None
           eq_refl).
  - repeat constructor; eexists; reflexivity.
  - lia.
Defined.

(** ** The calls made *)




(** ** The module state *)

Lemma initialisations_snoc (cfgs : list KeyWeaverConfig) (cfg : KeyWeaverConfig)
      (st : KeyWeaverState) :
  initialisations (cfgs ++ [cfg]) st = mkState true (Some cfg).
Proof. unfold initialisations. now rewrite fold_left_app. Qed.

(** X23.  The module state keeps the configuration of the latest
    [initKeyWeaver].  After any run of calls of it, from any state,
    [getKeyWeaverConfig] returns the configuration passed last and
    [isInitialized] is true; a state that is initialised stays so.  In the
    states reached from the initial one, [isInitialized] is true exactly
    when at least one call was made, and exactly when [getKeyWeaverConfig]
    returns. *)
Theorem initKeyWeaver_last_config_wins
        (cfgs : list KeyWeaverConfig) (cfg : KeyWeaverConfig)
        (st : KeyWeaverState) :
  getKeyWeaverConfig (initialisations (cfgs ++ [cfg]) st) = Ok cfg
  /\ isInitialized (initialisations (cfgs ++ [cfg]) st) = true
  /\ (isInitialized st = true -> isInitialized (initialisations cfgs st) = true)
  /\ (isInitialized (initialisations cfgs initialState) = true <-> cfgs <> [])
  /\ (isInitialized (initialisations cfgs initialState) = true
      <-> exists latest : KeyWeaverConfig,
            getKeyWeaverConfig (initialisations cfgs initialState) = Ok latest)
  /\ (cfgs = [] ->
      getKeyWeaverConfig (initialisations cfgs initialState)
      = Err KeyWeaverNotInitializedError).
Proof.
  rewrite initialisations_snoc.
  split; [ reflexivity | ]. split; [ reflexivity | ].
  destruct cfgs as [ | c cfgs' ] using rev_ind.
  - split; [ trivial | ]. cbn. split; [ split; congruence | ].
    split; [ | reflexivity ]. split; [ discriminate | intros [latest H]; discriminate ].
  - clear IHcfgs'. rewrite !initialisations_snoc.
    split; [ reflexivity | ]. split.
    + split; [ intros _ E; now destruct cfgs' | reflexivity ].
    + split; [ split; [ intros _; now exists c | reflexivity ] | ].
      intros E. now destruct cfgs'.
Qed.

Lemma initKeyWeaver_last_config_wins_witness :
  getKeyWeaverConfig
    (initKeyWeaver (mkConfig (Some (js "v2")))
                   (initKeyWeaver (mkConfig (Some (js "v1"))) initialState))
  = Ok (mkConfig (Some (js "v2"))).
Proof.
  exact (proj1 (initKeyWeaver_last_config_wins
                  [mkConfig (Some (js "v1"))] (mkConfig (Some (js "v2")))
                  initialState)).
Defined.

(** ** The inspector *)

Lemma strictEq_iff (x : option jsstring) (s : jsstring) :
  strictEq x s = true <-> x = Some s.
Proof.
  destruct x as [x' | ]; cbn [strictEq].
  - split; [ intros H; now rewrite (streq_true _ _ H) | ].
    intros H. injection H as ->. apply streq_refl.
  - split; discriminate.
Qed.

(** X24.  The status lines of the inspector do not contradict each other.
    The address line is "success" exactly when there is a recovery attempt
    that succeeded and whose recovered address is, character for character,
    the address of the registered wallet; it is "pending" exactly when there
    is no attempt, which is when there is no recovery line.  Whenever the
    address line is "success" the recovery line is "success" too, and
    whenever the recovery line is "error" the address line reads "Recovery
    failed". *)
Theorem inspector_status_lines_agree
        (registeredWallet : WalletData) (attempt : option RecoveryAttempt) :
  let verification := getVerificationStatus registeredWallet attempt in
  let recovery := getRecoveryStatus attempt in
  (className verification = js "success"
   <-> exists a : RecoveryAttempt,
         attempt = Some a /\ attemptSuccess a = true
         /\ recoveredAddress a = Some (wdAddress registeredWallet))
  /\ (className verification = js "pending" <-> attempt = None)
  /\ (attempt = None <-> recovery = None)
  /\ (className verification = js "success" ->
      exists s : StatusLine,
        recovery = Some s /\ className s = js "success"
        /\ text s = js "Recovery successful")
  /\ (forall s : StatusLine,
         recovery = Some s -> className s = js "error" ->
         className verification = js "error"
         /\ text verification = js "Recovery failed").
Proof.
  intros verification recovery. subst verification recovery.
  destruct attempt as [[ok addr key] | ];
    cbn [getVerificationStatus getRecoveryStatus attemptSuccess recoveredAddress].
  - destruct ok; cbn [negb className text].
    + destruct (strictEq addr (wdAddress registeredWallet)) eqn:Eaddr;
        cbn [className text].
      * apply strictEq_iff in Eaddr. subst addr.
        split; [ split; [ eauto | reflexivity ] | ].
        split; [ split; discriminate | ].
        split; [ split; discriminate | ].
        split; [ eauto | ].
        intros s Hs Herr. injection Hs as <-. discriminate.
      * split.
        { split; [ discriminate | ].
          intros (a & Ha & _ & Haddr). injection Ha as <-. cbn in Haddr.
          apply strictEq_iff in Haddr. congruence. }
        split; [ split; discriminate | ].
        split; [ split; discriminate | ].
        split; [ discriminate | ].
        intros s Hs Herr. injection Hs as <-. discriminate.
    + split.
      { split; [ discriminate | ].
        intros (a & Ha & Hok & _). injection Ha as <-. discriminate. }
      split; [ split; discriminate | ].
      split; [ split; discriminate | ].
      split; [ discriminate | ].
      intros s _ _. split; reflexivity.
  - cbn [className text].
    split; [ split; [ discriminate | intros (a & Ha & _); discriminate ] | ].
    split; [ split; reflexivity | ].
    split; [ split; reflexivity | ].
    split; [ discriminate | discriminate ].
Qed.

Lemma inspector_status_lines_agree_witness :
  let registeredWallet := mkWalletData (js "0xabc") None in
  let attempt := mkAttempt true (Some (js "0xABC")) None in
  getVerificationStatus registeredWallet (Some attempt)
  = mkStatus iconError (js "Address mismatch") (js "error")
  /\ className (getVerificationStatus registeredWallet (Some attempt))
     <> js "success".
Proof.
  intros registeredWallet attempt. split; [ reflexivity | ].
  intros H.
  destruct (proj1 (proj1 (inspector_status_lines_agree registeredWallet (Some attempt)))
                  H) as (a & Ha & _ & Haddr).
  injection Ha as <-. discriminate Haddr.
Defined.

(** X25.  The inspector compares private keys in demo mode only, and only
    keys that are there.  Its private-key line is absent whenever the mode
    is not "demo"; when it is present, the mode is "demo", the registered
    wallet and the latest attempt both carry a non-empty key, and the line
    is "success" exactly when the two keys are equal. *)
Theorem inspector_private_key_line
        (mode : jsstring) (registeredWallet : WalletData)
        (attempt : option RecoveryAttempt) :
  (mode <> js "demo" -> getPrivateKeyStatus mode registeredWallet attempt = None)
  /\ (forall s : StatusLine,
         getPrivateKeyStatus mode registeredWallet attempt = Some s ->
         mode = js "demo"
         /\ exists (a : RecoveryAttempt) (registered recovered : jsstring),
             attempt = Some a
             /\ wdPrivateKey registeredWallet = Some registered
             /\ attemptPrivateKey a = Some recovered
             /\ registered <> [] /\ recovered <> []
             /\ (className s = js "success" <-> recovered = registered)
             /\ (className s = js "error" <-> recovered <> registered)).
Proof.
  unfold getPrivateKeyStatus. split.
  - intros Hmode. destruct (streq mode (js "demo")) eqn:E;
      [ apply streq_true in E; contradiction | reflexivity ].
  - intros s H.
    destruct (streq mode (js "demo")) eqn:Emode; [ | discriminate ].
    apply streq_true in Emode. split; [ exact Emode | ].
    cbn [negb orb] in H.
    destruct (wdPrivateKey registeredWallet) as [[ | c registered] | ];
      try discriminate.
    cbn [truthy negb orb] in H.
    destruct attempt as [[ok addr [[ | c' recovered] | ]] | ];
      cbn [attemptPrivateKey truthy negb] in H; try discriminate.
    exists (mkAttempt ok addr (Some (c' :: recovered))), (c :: registered),
      (c' :: recovered).
    repeat (split; [ first [ reflexivity | discriminate ] | ]).
    injection H as <-.
    destruct (streq (c' :: recovered) (c :: registered)) eqn:Ekeys;
      cbn [className].
    + apply streq_true in Ekeys. split; split; intros; try congruence.
      discriminate.
    + assert (Hne : c' :: recovered <> c :: registered).
      { intros E. rewrite E, streq_refl in Ekeys. discriminate. }
      split; split; intros; try congruence; try discriminate.
Qed.

Lemma inspector_private_key_line_witness :
  getPrivateKeyStatus (js "live") (mkWalletData (js "0xabc") (Some (js "12")))
                      (Some (mkAttempt true (Some (js "0xabc")) (Some (js "12"))))
  = None
  /\ getPrivateKeyStatus (js "demo") (mkWalletData (js "0xabc") (Some (js "12")))
                         (Some (mkAttempt true (Some (js "0xabc")) (Some (js "12"))))
     = Some (mkStatus iconSuccess (js "Private keys match") (js "success")).
Proof.
  split; [ | reflexivity ].
  apply (proj1 (inspector_private_key_line
                  (js "live") (mkWalletData (js "0xabc") (Some (js "12")))
                  (Some (mkAttempt true (Some (js "0xabc")) (Some (js "12")))))).
  discriminate.
Defined.
